(** * Polygon.js: a shallow embedding and the properties of its geometry core

    The JavaScript class [Polygon] keeps two parallel arrays of
    double-precision numbers, [_X] and [_Y], and a tolerance [accuracy].
    Numbers are modelled by Rocq's primitive binary64 floats, whose
    [+ - * /], [sqrt], [abs] and comparisons are the IEEE 754 operations
    that a JavaScript engine performs; arrays are lists.  Reading an array
    past its end gives [undefined] in JavaScript, which every arithmetic
    operator and every comparison treats like [NaN]; [get] returns [nan]
    there. *)

From Stdlib Require Import Floats List ZArith Bool Lia Permutation.
Import ListNotations.

Local Open Scope float_scope.
Set Warnings "-inexact-float".

(** ** Arrays *)

(** [a[i]] where the value is then used as a number. *)
Definition get (a : list float) (i : nat) : float := nth i a nan.

(** A JavaScript integer as a number. *)
Definition Number (n : nat) : float := of_uint63 (Uint63.of_Z (Z.of_nat n)).

(** [i >>> 0] for a non-negative integer [i]. *)
Definition toUint32 (i : nat) : nat := Z.to_nat (Z.of_nat i mod 4294967296).

(** [a > b] *)
Definition gtb (a b : float) : bool := b <? a.

(** [a >= b] *)
Definition geb (a b : float) : bool := b <=? a.

(** [a.splice(i, 1)]: delete the element at index [i], if there is one. *)
Fixpoint splice1 {T : Type} (i : nat) (a : list T) : list T :=
  match a, i with
  | [], _ => []
  | _ :: r, O => r
  | x :: r, S j => x :: splice1 j r
  end.

(** The pairs (element, index) that [map] and [reduce] hand to their callback. *)
Definition indexed {T : Type} (a : list T) : list (T * nat) :=
  combine a (seq 0 (length a)).

(** ** The polygon object *)

Record Polygon : Type := mkPolygon {
  _X : list float;
  _Y : list float;
  accuracy : float
}.

(** [_finite(a)]: every entry passes [isFinite].  ([every] skips the holes
    of a sparse array; the arrays of this development are lists of elements
    and have no holes.  No operation embedded here leaves one but [change],
    where it is set apart.) *)
Definition _finite (a : list float) : bool := forallb is_finite a.

(** [new Polygon({type: 'array', x: ..., y: ...})].  The constructor throws
    ([None]) unless all numbers are finite, and sets [accuracy] to [1e-10]. *)
Definition Polygon_array (x y : list float) : option Polygon :=
  if _finite x && _finite y then Some (mkPolygon x y 1e-10) else None.

(** [new Polygon({type: 'point', points: [[x0, y0], ...]})], which tests
    each coordinate with [isFinite] before pushing it. *)
Definition Polygon_point (points : list (float * float)) : option Polygon :=
  if forallb (fun pt => is_finite (fst pt) && is_finite (snd pt)) points
  then Some (mkPolygon (map fst points) (map snd points) 1e-10)
  else None.

Definition size (p : Polygon) : nat := length (_X p).

(** [this._toSet(x, y)]: one pair per index of [x]. *)
Definition _toSet (x y : list float) : list (float * float) :=
  map (fun '(xi, i) => (xi, get y i)) (indexed x).

(** A polygon whose two coordinate arrays have the same length. *)
Definition wellFormed (p : Polygon) : Prop := length (_X p) = length (_Y p).

(** [this._diff(a)]: cyclic forward differences. *)
Definition _diff (a : list float) : list float :=
  skipn 1 (map (fun '(x, i) => if (0 <? i)%nat then x - get a (i - 1)%nat else 0)
               (indexed a))
  ++ [get a 0 - get a (length a - 1)%nat].

(** ** data: area, centroid, perimeter and moments of inertia *)

Module Data.

Definition _sum (a : list float) : float :=
  fold_left (fun prev x => prev + x) a 0.

Definition _add (a b : list float) : list float :=
  map (fun '(x, i) => x + get b i) (indexed a).

Definition _sqrt (a : list float) : list float := map PrimFloat.sqrt a.

(** [Math.pow(x, 2)] *)
Definition _pow2 (a : list float) : list float := map (fun x => x * x) a.

Definition _dot2 (a b : list float) : float :=
  fold_left (fun prev '(x, i) => prev + x * get b i) (indexed a) 0.

Definition _dot3 (a b c : list float) : float :=
  fold_left (fun prev '(x, i) => prev + x * get b i * get c i) (indexed a) 0.

Definition _dot4 (a b c d : list float) : float :=
  fold_left (fun prev '(x, i) => prev + x * get b i * get c i * get d i)
            (indexed a) 0.

(** The locals of [data] after its [var] block: the vertex mean, the signed
    area and the first and second moments about the mean, and the
    perimeter. *)
Record Locals : Type := mkLocals {
  l_xm : float; l_ym : float;
  l_A : float; l_Cx : float; l_Cy : float;
  l_Ixx : float; l_Iyy : float; l_Ixy : float;
  l_p : float
}.

Definition locals (this : Polygon) : Locals :=
  let _xm := _sum (_X this) / Number (size this) in
  let _ym := _sum (_Y this) / Number (size this) in
  let _x := map (fun x => x - _xm) (_X this) in
  let _y := map (fun x => x - _ym) (_Y this) in
  let _dx := _diff _x in
  let _dy := _diff _y in
  let _A := (_dot2 _y _dx - _dot2 _x _dy) / 2 in
  let _Cx := (6 * _dot3 _x _y _dx - 3 * _dot3 _x _x _dy
              + 3 * _dot3 _y _dx _dx + _dot3 _dx _dx _dy) / 12 in
  let _Cy := (3 * _dot3 _y _y _dx - 6 * _dot3 _x _y _dy
              - 3 * _dot3 _x _dy _dy - _dot3 _dx _dy _dy) / 12 in
  let _Ixx := (2 * _dot4 _y _y _y _dx - 6 * _dot4 _x _y _y _dy
               - 6 * _dot4 _x _y _dy _dy + (-2) * _dot4 _x _dy _dy _dy
               - 2 * _dot4 _y _dx _dy _dy - _dot4 _dx _dy _dy _dy) / 12 in
  let _Iyy := (6 * _dot4 _x _x _y _dx - 2 * _dot4 _x _x _x _dy
               + 6 * _dot4 _x _y _dx _dx + 2 * _dot4 _y _dx _dx _dx
               + 2 * _dot4 _x _dx _dx _dy + _dot4 _dx _dx _dx _dy) / 12 in
  let _Ixy := (6 * _dot4 _x _y _y _dx - 6 * _dot4 _x _x _y _dy
               + 3 * _dot4 _y _y _dx _dx + (-3) * _dot4 _x _x _dy _dy
               + 2 * _dot4 _y _dx _dx _dy - 2 * _dot4 _x _dx _dy _dy) / 24 in
  let _p := _sum (_sqrt (_add (_pow2 _dx) (_pow2 _dy))) in
  mkLocals _xm _ym _A _Cx _Cy _Ixx _Iyy _Ixy _p.

(** [if (_A < 0) { ... }]: the sign canonicalisation. *)
Definition canonical (l : Locals) : Locals :=
  if l_A l <? 0 then
    mkLocals (l_xm l) (l_ym l) (- l_A l) (- l_Cx l) (- l_Cy l)
             (- l_Ixx l) (- l_Iyy l) (- l_Ixy l) (l_p l)
  else l.

(** The array [data] returns, with its ten entries named. *)
Record MomentResult : Type := mkMomentResult {
  area : float; centroidX : float; centroidY : float; perimeter : float;
  Ixx : float; Iyy : float; Ixy : float;
  Iuu : float; Ivv : float; Iuv : float
}.

Definition data (this : Polygon) : MomentResult :=
  let l := canonical (locals this) in
  let _A := l_A l in
  (* centroidal moments *)
  let _xc := l_Cx l / _A in
  let _yc := l_Cy l / _A in
  let _Iuu := l_Ixx l - _A * _yc * _yc in
  let _Ivv := l_Iyy l - _A * _xc * _xc in
  let _Iuv := l_Ixy l - _A * _xc * _yc in
  (* mean of vertices *)
  let _Cx := l_xm l + l_Cx l in
  let _Cy := l_ym l + l_Cy l in
  let _Ixx := _Iuu + _A * _Cy * _Cy in
  let _Iyy := _Ivv + _A * _Cx * _Cx in
  let _Ixy := _Iuv * _A * _Cx * _Cy in
  mkMomentResult _A _Cx _Cy (l_p l) _Ixx _Iyy _Ixy _Iuu _Ivv _Iuv.

End Data.


(** ** isClockWise *)

Definition isClockWise (this : Polygon) : bool :=
  let _size := length (_X this) in
  let _sum :=
    fold_left (fun _sum _i =>
                 _sum + get (_X this) _i * get (_Y this) (_i + 1)%nat
                      - get (_Y this) _i * get (_X this) (_i + 1)%nat)
              (seq 0 (_size - 1)%nat) 0 in
  if _sum <? 0 then true else false.

(** ** inside: ray casting *)

Definition inside (this : Polygon) (xi_x xi_y : float) : bool :=
  let X := _X this in
  let Y := _Y this in
  let _len := length X in
  fst (fold_left
         (fun '(xo_inside, _j) _i =>
            (if negb (Bool.eqb (gtb (get Y _i) xi_y) (gtb (get Y _j) xi_y))
                && (xi_x <? get X _i + (get X _j - get X _i) * (xi_y - get Y _i)
                                        / (get Y _j - get Y _i))
             then negb xo_inside else xo_inside,
             _i))
         (seq 0 _len) (false, (_len - 1)%nat)).

(** ** Structural operations used by union *)

(** The argument of [remove]: a number, or an array of numbers. *)
Inductive IndexArg : Type :=
| Index (i : nat)
| Indexes (l : list nat).

Definition remove_at (this : Polygon) (xi_index : nat) : Polygon :=
  let _index := toUint32 xi_index in
  if (_index <=? length (_X this))%nat
  then mkPolygon (splice1 _index (_X this)) (splice1 _index (_Y this))
                 (accuracy this)
  else this.

(** [xi_index.length || 0] is [0] for a number and for an empty array; an
    empty array then converts to the index [0]. *)
Definition remove (this : Polygon) (xi_index : IndexArg) : Polygon :=
  match xi_index with
  | Index i => remove_at this i
  | Indexes [] => remove_at this 0
  | Indexes l => fold_left remove_at l this
  end.

(** [a.slice(start, end)] for non-negative indexes. *)
Definition Array_slice {T : Type} (a : list T) (s e : nat) : list T :=
  firstn (e - s) (skipn s a).

Definition slice (this : Polygon) (xi_start xi_end : nat) : option Polygon :=
  let s := toUint32 xi_start in
  let e := toUint32 xi_end in
  Polygon_array (Array_slice (_X this) s e) (Array_slice (_Y this) s e).

Definition insertPolygon (this : Polygon) (xi_index : nat) (xi_polygon : Polygon)
  : Polygon :=
  let _index := toUint32 xi_index in
  if (_index <? length (_X this))%nat
  then mkPolygon (firstn _index (_X this) ++ _X xi_polygon ++ skipn _index (_X this))
                 (firstn _index (_Y this) ++ _Y xi_polygon ++ skipn _index (_Y this))
                 (accuracy this)
  else mkPolygon (_X this ++ _X xi_polygon) (_Y this ++ _Y xi_polygon)
                 (accuracy this).

(** ** intersect: Sutherland-Hodgman clipping *)

Module Intersect.

Definition Point : Type := (float * float)%type.

(** [_in(_point)] for the clip edge [_clipPolyPt1 - _clipPolyPt2]. *)
Definition _in (_clipPolyPt1 _clipPolyPt2 _point : Point) : bool :=
  gtb ((fst _clipPolyPt2 - fst _clipPolyPt1) * (snd _point - snd _clipPolyPt1))
      ((snd _clipPolyPt2 - snd _clipPolyPt1) * (fst _point - fst _clipPolyPt1)).

Definition _lineLineInter (_clipPolyPt1 _clipPolyPt2 _startPt _endPt : Point)
  : Point :=
  let _diffClip := (fst _clipPolyPt1 - fst _clipPolyPt2,
                    snd _clipPolyPt1 - snd _clipPolyPt2) in
  let _diffPt := (fst _startPt - fst _endPt, snd _startPt - snd _endPt) in
  let _s := fst _clipPolyPt1 * snd _clipPolyPt2
            - snd _clipPolyPt1 * fst _clipPolyPt2 in
  let _t := fst _startPt * snd _endPt - snd _startPt * fst _endPt in
  let _den := 1 / (fst _diffClip * snd _diffPt - snd _diffClip * fst _diffPt) in
  ((_s * fst _diffPt - _t * fst _diffClip) * _den,
   (_s * snd _diffPt - _t * snd _diffClip) * _den).

Definition undefinedPoint : Point := (nan, nan).

(** One pass of the outer loop: clip [_tempIntersect] against one edge. *)
Definition clipEdge (_clipPolyPt1 _clipPolyPt2 : Point)
           (_tempIntersect : list Point) : list Point :=
  fst (fold_left
         (fun '(xo_intersect, _startPt) _endPt =>
            (if _in _clipPolyPt1 _clipPolyPt2 _endPt then
               (if negb (_in _clipPolyPt1 _clipPolyPt2 _startPt)
                then xo_intersect
                       ++ [_lineLineInter _clipPolyPt1 _clipPolyPt2 _startPt _endPt]
                else xo_intersect) ++ [_endPt]
             else if _in _clipPolyPt1 _clipPolyPt2 _startPt then
               xo_intersect
                 ++ [_lineLineInter _clipPolyPt1 _clipPolyPt2 _startPt _endPt]
             else xo_intersect,
             _endPt))
         _tempIntersect
         ([], last _tempIntersect undefinedPoint)).

Definition _clip (xi_clipped xi_clipper : list Point) : list Point :=
  fst (fold_left
         (fun '(xo_intersect, _clipPolyPt1) _clipPolyPt2 =>
            (clipEdge _clipPolyPt1 _clipPolyPt2 xo_intersect, _clipPolyPt2))
         xi_clipper
         (xi_clipped, last xi_clipper undefinedPoint)).

Definition intersect (this xi_polygon : Polygon) : option Polygon :=
  Polygon_point (_clip (_toSet (_X this) (_Y this))
                       (_toSet (_X xi_polygon) (_Y xi_polygon))).

End Intersect.

(** ** sortCW and union *)

Module SortCW.

(** The objects [{angle, x, y}] that [sortCW] sorts. *)
Record AngleZipped : Type := mkAngleZipped {
  angle : float; x : float; y : float
}.

Definition _atan2 (xi_y xi_x : float) : float :=
  let _arg := xi_y / xi_x in
  let _arg2 := _arg * _arg in
  let _arg3 := _arg2 * _arg in
  1.570796326794897 * (_arg3 + _arg2 + 0.640388203202208 * _arg)
  / (_arg3 + 1.640388203202208 * (_arg2 + _arg) + 1).

(** The comparison function handed to [sort]. *)
Definition byAngle (a b : AngleZipped) : float := angle a - angle b.

End SortCW.

(** [remove every vertex of _this that is inside _ipolygon]: the loop of
    [union], which reads [_this._X[_i]] after the removals made so far and
    runs [_i] up to the size [_this] had at the start. *)
Definition removeInside (_this _ipolygon : Polygon) : Polygon :=
  fold_left
    (fun _this _i =>
       if inside _ipolygon (get (_X _this) _i) (get (_Y _this) _i)
       then remove _this (Index _i) else _this)
    (seq 0 (size _this)) _this.

(** Steps (1) and (2) of [union]: the two trimmed copies. *)
Definition union_trimmed (this xi_polygon : Polygon)
  : option (Polygon * Polygon) :=
  match slice this 0 (size this), slice xi_polygon 0 (size xi_polygon) with
  | Some _this, Some _ipolygon =>
      let _this := removeInside _this _ipolygon in
      let _ipolygon := removeInside _ipolygon _this in
      Some (_this, _ipolygon)
  | _, _ => None
  end.

Section ArraySort.

(** [Array.prototype.sort(comparefn)] is the engine's: the development
    only relies on its result being a rearrangement of its input. *)
Variable Array_sort : forall T : Type, (T -> T -> float) -> list T -> list T.

Definition sortCW (this : Polygon) : Polygon :=
  let _len := size this in
  let _Xmean := fold_left (fun prev x => prev + x) (_X this) 0 / Number _len in
  let _Ymean := fold_left (fun prev x => prev + x) (_Y this) 0 / Number _len in
  let _angleZipped :=
    map (fun _i =>
           SortCW.mkAngleZipped
             (SortCW._atan2 (get (_Y this) _i - _Ymean) (get (_X this) _i - _Xmean))
             (get (_X this) _i) (get (_Y this) _i))
        (seq 0 _len) in
  let sorted := Array_sort _ SortCW.byAngle _angleZipped in
  (* this._X[_i] and this._Y[_i] are overwritten for _i < _len *)
  mkPolygon (map SortCW.x sorted ++ skipn _len (_X this))
            (map SortCW.y sorted ++ skipn _len (_Y this))
            (accuracy this).

Definition union (this xi_polygon : Polygon) : option Polygon :=
  match union_trimmed this xi_polygon with
  | Some (_this, _ipolygon) =>
      match Intersect.intersect _this _ipolygon with
      | Some _intersect =>
          let _intersect := insertPolygon _intersect (size _this) _this in
          let _intersect := insertPolygon _intersect (size _ipolygon) _ipolygon in
          let _intersect := sortCW _intersect in
          Polygon_array (_X _intersect) (_Y _intersect)
      | None => None
      end
  | None => None
  end.

End ArraySort.

(** A stable insertion sort, as one instance of [Array.prototype.sort]: an
    element moves behind those that compare lower ([comparefn(a, b) > 0]
    puts [a] after [b]). *)
Fixpoint sort_insert {T : Type} (cmp : T -> T -> float) (a : T) (l : list T)
  : list T :=
  match l with
  | [] => [a]
  | b :: r => if gtb (cmp a b) 0 then b :: sort_insert cmp a r else a :: b :: r
  end.

Definition insertion_sort (T : Type) (cmp : T -> T -> float) (l : list T)
  : list T :=
  fold_right (sort_insert cmp) [] l.

(** ** lineIntersect *)

Module LineIntersect.

(** The divisor of the only division [_lineLineInter] makes:
    [-_s2x * _s1y + _s1x * _s2y]. *)
Definition divisor (xi_x1_l1 xi_y1_l1 xi_x2_l1 xi_y2_l1
                    xi_x1_l2 xi_y1_l2 xi_x2_l2 xi_y2_l2 : float) : float :=
  let _s1x := xi_x2_l1 - xi_x1_l1 in
  let _s1y := xi_y2_l1 - xi_y1_l1 in
  let _s2x := xi_x2_l2 - xi_x1_l1 in
  let _s2y := xi_y2_l2 - xi_y1_l2 in
  - _s2x * _s1y + _s1x * _s2y.

(** [_lineLineInter]: [Some (X, Y)] stands for [{FLAG: true, X, Y}] and
    [None] for [{FLAG: false, X: [], Y: []}]. *)
Definition _lineLineInter (xi_x1_l1 xi_y1_l1 xi_x2_l1 xi_y2_l1
                           xi_x1_l2 xi_y1_l2 xi_x2_l2 xi_y2_l2 : float)
  : option (float * float) :=
  let _s1x := xi_x2_l1 - xi_x1_l1 in
  let _s1y := xi_y2_l1 - xi_y1_l1 in
  let _s2x := xi_x2_l2 - xi_x1_l1 in
  let _s2y := xi_y2_l2 - xi_y1_l2 in
  let _den := 1 / divisor xi_x1_l1 xi_y1_l1 xi_x2_l1 xi_y2_l1
                          xi_x1_l2 xi_y1_l2 xi_x2_l2 xi_y2_l2 in
  let _s := (- _s1y * (xi_x1_l1 - xi_x1_l2) + _s1x * (xi_y1_l1 - xi_y1_l2)) * _den in
  let _t := (_s2x * (xi_y1_l1 - xi_y1_l2) - _s2y * (xi_x1_l1 - xi_x1_l2)) * _den in
  if geb _s 0 && (_s <=? 1) && geb _t 0 && (_t <=? 1)
  then Some (xi_x1_l1 + _t * _s1x, xi_y1_l1 + _t * _s1y)
  else None.

Record Result : Type := mkResult {
  FLAG : bool; X : list float; Y : list float
}.

(** The index pairs of the edges in the order [lineIntersect] visits them:
    the body loop, then the closing edge from the index the loop stopped at. *)
Definition edges (_size : nat) : list (nat * nat) :=
  map (fun _i => (_i, (_i + 1)%nat)) (seq 0 (_size - 1)) ++ [((_size - 1)%nat, O)].

(** What one edge adds to the result. *)
Definition edgeResult (this : Polygon) (xi_x1 xi_y1 xi_x2 xi_y2 : float)
           (e : nat * nat) : option (float * float) :=
  _lineLineInter xi_x1 xi_y1 xi_x2 xi_y2
                 (get (_X this) (fst e)) (get (_Y this) (fst e))
                 (get (_X this) (snd e)) (get (_Y this) (snd e)).

Definition lineIntersect (this : Polygon) (xi_x1 xi_y1 xi_x2 xi_y2 : float)
  : Result :=
  fold_left
    (fun r e =>
       match edgeResult this xi_x1 xi_y1 xi_x2 xi_y2 e with
       | Some (px, py) => mkResult true (X r ++ [px]) (Y r ++ [py])
       | None => r
       end)
    (edges (length (_X this))) (mkResult false [] []).

End LineIntersect.

(** ** convexHull: gift wrapping *)

Module ConvexHull.

Definition _cross (xi_x1 xi_y1 xi_x2 xi_y2 xi_x3 xi_y3 : float) : bool :=
  ((xi_x2 - xi_x1) * (xi_y3 - xi_y1) - (xi_y2 - xi_y1) * (xi_x3 - xi_x1)) <? 0.

(** [_leftBottom] reads [this.accuracy]; [this_accuracy] is the value that
    expression has where the function is called. *)
Definition _leftBottom (this_accuracy : float) (xi_x xi_y : list float) : nat :=
  fold_left
    (fun xo_index _i =>
       let _xi := get xi_x _i in
       let _yi := get xi_y _i in
       let _x := get xi_x xo_index in
       let _y := get xi_y xo_index in
       if (_xi <? _x) || ((abs (_xi - _x) <? this_accuracy) && (_yi <? _y))
       then _i else xo_index)
    (seq 1 (length xi_x - 1)) O.

(** [convexHull] calls [_leftBottom(this._X, this._Y)] as a plain function
    in a script that is not in strict mode: inside the call [this] is the
    global object, not the polygon, and [this.accuracy] is [undefined].
    A comparison with [undefined] is a comparison with [NaN]. *)
Definition undefined_accuracy : float := nan.

(** The inner [for] loop: the next hull vertex after [_hull]. *)
Definition nextVertex (this : Polygon) (_hull : nat) : nat :=
  fold_left
    (fun _indexEnd _i =>
       if (_hull =? _indexEnd)%nat
          || _cross (get (_X this) _hull) (get (_Y this) _hull)
                    (get (_X this) _indexEnd) (get (_Y this) _indexEnd)
                    (get (_X this) _i) (get (_Y this) _i)
       then _i else _indexEnd)
    (seq 1 (size this - 1)) O.

(** The [do ... while] loop, with [fuel] bounding its iterations; [None]
    when they do not suffice. *)
Fixpoint wrap (fuel : nat) (this : Polygon) (_indexStart _hull : nat)
         (xo_Xhull xo_Yhull : list float) : option (list float * list float) :=
  match fuel with
  | O => None
  | S fuel' =>
      let xo_Xhull := xo_Xhull ++ [get (_X this) _hull] in
      let xo_Yhull := xo_Yhull ++ [get (_Y this) _hull] in
      let _indexEnd := nextVertex this _hull in
      if (_indexEnd =? _indexStart)%nat then Some (xo_Xhull, xo_Yhull)
      else wrap fuel' this _indexStart _indexEnd xo_Xhull xo_Yhull
  end.

Definition convexHull (fuel : nat) (this : Polygon)
  : option (list float * list float) :=
  let _indexStart := _leftBottom undefined_accuracy (_X this) (_Y this) in
  wrap fuel this _indexStart _indexStart [] [].

End ConvexHull.

(** ** radialFit: circle and ellipse fitting by Gaussian elimination *)

Module RadialFit.

Definition Matrix : Type := list (list float).

(** A [TypeError] (reading a property of [undefined]) is [None]. *)
Definition bind {A B : Type} (m : option A) (f : A -> option B) : option B :=
  match m with Some a => f a | None => None end.

Notation "x <- m ;; k" := (bind m (fun x => k))
  (at level 61, m at next level, right associativity).

(** A loop [for (v of l) body] over a state that may throw. *)
Definition forEach {St : Type} (l : list nat) (body : nat -> St -> option St)
           (s : St) : option St :=
  fold_left (fun acc i => bind acc (body i)) l (Some s).

(** [a[i] = v] for an index inside the array. *)
Fixpoint set (i : nat) (v : float) (a : list float) : list float :=
  match a, i with
  | [], _ => []
  | _ :: r, O => v :: r
  | h :: r, S j => h :: set j v r
  end.

Fixpoint setRow (i : nat) (row : list float) (m : Matrix) : Matrix :=
  match m, i with
  | [], _ => []
  | _ :: r, O => row :: r
  | h :: r, S j => h :: setRow j row r
  end.

(** [m[r][c]]: throws when row [r] is missing. *)
Definition read (m : Matrix) (r c : nat) : option float :=
  row <- nth_error m r ;; Some (get row c).

(** [m[r][c] = v]: throws when row [r] is missing. *)
Definition write (m : Matrix) (r c : nat) (v : float) : option Matrix :=
  row <- nth_error m r ;; Some (setRow r (set c v row) m).

(** [_concat(xi_matrix, xi_array)]: push [xi_array[_i]] onto row [_i]. *)
Definition _concat (xi_matrix : Matrix) (xi_array : list float) : option Matrix :=
  forEach (seq 0 (length xi_array))
          (fun _i m => row <- nth_error m _i ;;
                       Some (setRow _i (row ++ [get xi_array _i]) m))
          xi_matrix.

(** The search for the pivot row of column [_i]: the pair [(_pivot, _j)]. *)
Definition columnMaximum (_AB : Matrix) (_columns _i : nat)
  : option (float * nat) :=
  _pivot0 <- read _AB _i _i ;;
  forEach (seq (_i + 1) (_columns - (_i + 1)))
          (fun _k '(_pivot, _j) =>
             v <- read _AB _k _i ;;
             Some (if _pivot <? abs v then (v, _k) else (_pivot, _j)))
          (_pivot0, _i).

(** [maximum row <-> current row], entry by entry. *)
Definition swapRows (_AB : Matrix) (_abColumns _i _j : nat) : option Matrix :=
  forEach (seq 0 _abColumns)
          (fun _k m =>
             _temp <- read m _i _k ;;
             v <- read m _j _k ;;
             m <- write m _i _k v ;;
             write m _j _k _temp)
          _AB.

(** [nullify rows below current one]. *)
Definition nullifyBelow (_AB : Matrix) (_rows _abColumns _i : nat)
  : option Matrix :=
  forEach (seq (_i + 1) (_rows - (_i + 1)))
          (fun _j m =>
             a <- read m _j _i ;;
             d <- read m _i _i ;;
             let _fac := a / d in
             forEach (seq _i (_abColumns - _i))
                     (fun _k m =>
                        u <- read m _j _k ;;
                        w <- read m _i _k ;;
                        write m _j _k (u - _fac * w))
                     m)
          _AB.

(** [upper triangulation (bottom up)]: the loop runs [_i] from
    [_columns - 1] down to [0] and fills [xo_out[_i]]. *)
Definition backSubstitute (_AB : Matrix) (_columns : nat)
  : option (list float) :=
  r <- forEach (rev (seq 0 _columns))
         (fun _i '(m, xo_out) =>
            a <- read m _i _columns ;;
            d <- read m _i _i ;;
            let _temp := a / d in
            m <- forEach (rev (seq 0 _i))
                   (fun _j m =>
                      u <- read m _j _columns ;;
                      w <- read m _j _i ;;
                      write m _j _columns (u - w * _temp))
                   m ;;
            Some (m, _temp :: xo_out))
         (_AB, []) ;;
  Some (snd r).

Definition _gaussElimination (xi_A : Matrix) (xi_B : list float)
  : option (list float) :=
  row0 <- nth_error xi_A 0 ;;
  let _columns := length row0 in
  let _rows := length xi_A in
  _AB <- _concat xi_A xi_B ;;
  row0 <- nth_error _AB 0 ;;
  let _abColumns := length row0 in
  _AB <- forEach (seq 0 _rows)
           (fun _i m =>
              pj <- columnMaximum m _columns _i ;;
              m <- swapRows m _abColumns _i (snd pj) ;;
              nullifyBelow m _rows _abColumns _i)
           _AB ;;
  backSubstitute _AB _columns.

(** The linear system of the circle fit. *)
Definition circleSystem (xi_x xi_y : list float) : Matrix * list float :=
  (map (fun _i => [get xi_x _i; get xi_y _i; 1]) (seq 0 (length xi_x)),
   map (fun _i => - (get xi_x _i * get xi_x _i + get xi_y _i * get xi_y _i))
       (seq 0 (length xi_x))).

Definition _fitCircle (xi_x xi_y : list float) : option (list float) :=
  let '(_A, _B) := circleSystem xi_x xi_y in
  _X <- _gaussElimination _A _B ;;
  let _xi := get _X 0 in
  let _yi := get _X 1 in
  Some [- _xi / 2; - _yi / 2;
        PrimFloat.sqrt ((_xi * _xi + _yi * _yi) / 4 - get _X 2)].

(** The linear system of the ellipse fit. *)
Definition ellipseSystem (xi_x xi_y : list float) : Matrix * list float :=
  (map (fun _i => let _xi := get xi_x _i in
                  let _yi := get xi_y _i in
                  [2 * _xi * _yi; _yi * _yi; 2 * _xi; 2 * _yi; 1])
       (seq 0 (length xi_x)),
   map (fun _i => - get xi_x _i * get xi_x _i) (seq 0 (length xi_x))).

Definition Math_PI : float := 3.141592653589793.

(** [Math.max] and [Math.min] of two numbers. *)
Definition Math_max (a b : float) : float :=
  if is_nan a || is_nan b then nan
  else if a <? b then b
  else if b <? a then a
  else if 1 / a <? 0 then b else a.

Definition Math_min (a b : float) : float :=
  if is_nan a || is_nan b then nan
  else if a <? b then a
  else if b <? a then b
  else if 1 / a <? 0 then a else b.

Section Atan.

(** [Math.atan] is the engine's. *)
Variable Math_atan : float -> float.

Definition _fitEllipse (xi_x xi_y : list float) : option (list float) :=
  let '(_A, _B) := ellipseSystem xi_x xi_y in
  _X <- _gaussElimination _A _B ;;
  let _b := get _X 0 in
  let _c := get _X 1 in
  let _d := get _X 2 in
  let _f := get _X 3 in
  let _g := get _X 4 in
  let _i := _b * _b - _c in
  let _xi := (_c * _d - _b * _f) / _i in
  let _yi := (_f - _b * _d) / _i in
  let _nom := 2 * (_f * _f + _c * _d * _d + _g * _b * _b
                   - 2 * _b * _d * _f - _c * _g) in
  let _s := PrimFloat.sqrt (1 + (4 * _b * _b) / ((1 - _c) * (1 - _c))) in
  let _phi := (Math_PI / 2 - Math_atan ((_c - 1) / (2 * _b))) / 2 in
  let _aPrime :=
    PrimFloat.sqrt (abs (_nom / (_i * ((_c - 1) * _s - (_c + 1))))) in
  let _bPrime :=
    PrimFloat.sqrt (abs (_nom / (_i * ((1 - _c) * _s - (_c + 1))))) in
  let _phi := if _aPrime <? _bPrime then Math_PI / 2 - _phi else _phi in
  Some [_xi; _yi; Math_max _aPrime _bPrime; Math_min _aPrime _bPrime;
        _phi * 180 / Math_PI].

(** The value of [xi_type.toUpperCase()] that the [switch] looks at. *)
Inductive FitType : Type := CIRCLE | ELLIPSE | OTHER.

Definition radialFit (this : Polygon) (xi_type : FitType)
  : option (list float) :=
  match xi_type with
  | CIRCLE => _fitCircle (_X this) (_Y this)
  | ELLIPSE => _fitEllipse (_X this) (_Y this)
  | OTHER => _fitCircle (_X this) (_Y this)
  end.

End Atan.

End RadialFit.

(** ** simplify: radial pre-filter, then recursive splitting

    [simplify] only adds, subtracts, multiplies, divides and compares
    numbers.  It is written over a record of these operations, which the
    doubles of the engine fill in ([floatArith]): the facts on its two
    stages that need no property of the numbers are then proved without
    one. *)

Module Simplify.

Record Arith (R : Type) : Type := mkArith {
  add : R -> R -> R;
  sub : R -> R -> R;
  mul : R -> R -> R;
  div : R -> R -> R;
  zero : R;
  ltb : R -> R -> bool;
  leb : R -> R -> bool;
  (** [x || 0] *)
  orZero : R -> R;
  (** what reading past the end of an array of numbers gives *)
  undefined : R
}.

Arguments add {R}. Arguments sub {R}. Arguments mul {R}. Arguments div {R}.
Arguments zero {R}. Arguments ltb {R}. Arguments leb {R}.
Arguments orZero {R}. Arguments undefined {R}.

Section Generic.

Context {R : Type} (A : Arith R).

Definition Vertex : Type := (R * R)%type.

(** [xi_vertices[i]] *)
Definition at_ (v : list Vertex) (i : nat) : Vertex :=
  nth i v (undefined A, undefined A).

Definition _diff2vec (a b : Vertex) : Vertex :=
  (sub A (fst a) (fst b), sub A (snd a) (snd b)).

Definition _dot2vec (a b : Vertex) : R :=
  add A (mul A (fst a) (fst b)) (mul A (snd a) (snd b)).

Definition _mag2vec (a : Vertex) : R :=
  add A (mul A (fst a) (fst a)) (mul A (snd a) (snd a)).

Definition _magDiff2vec (a b : Vertex) : R := _mag2vec (_diff2vec a b).

(** The squared distance [_dist] of the vertex [v] from the segment
    [seg0 - seg1], as the body of the loop of [_reduce] computes it. *)
Definition distance (v seg0 seg1 : Vertex) : R :=
  let _direction := _diff2vec seg1 seg0 in
  let _length2 := _mag2vec _direction in
  let _w := _diff2vec v seg0 in
  let _dot := _dot2vec _w _direction in
  if leb A _dot (zero A) then _magDiff2vec v seg0
  else if leb A _length2 _dot then _magDiff2vec v seg1
  else
    let _proj := div A _dot _length2 in
    let _perpBase := (add A (fst seg0) (mul A _proj (fst _direction)),
                      add A (snd seg0) (mul A _proj (snd _direction))) in
    _magDiff2vec v _perpBase.

(** The loop of [_reduce]: the pair [(_iMax, _maxDistSqr)]. *)
Definition farthest (xi_vertices : list Vertex) (xi_start xi_end : nat)
  : nat * R :=
  fold_left
    (fun '(_iMax, _maxDistSqr) _i =>
       let _dist := distance (at_ xi_vertices _i) (at_ xi_vertices xi_start)
                             (at_ xi_vertices xi_end) in
       if leb A _dist _maxDistSqr then (_iMax, _maxDistSqr) else (_i, _dist))
    (seq (xi_start + 1) (xi_end - (xi_start + 1)))
    (xi_start, zero A).

(** [xi_key] is the array in which [_reduce] stores a [1] at the index of
    every vertex to keep; it is modelled by the list of these indexes. *)
Definition marked (xi_key : list nat) (i : nat) : bool :=
  existsb (Nat.eqb i) xi_key.

(** [_reduce], with [fuel] bounding the depth of its recursion; [None]
    when the depth exceeds it. *)
Fixpoint _reduce (fuel : nat) (xi_tolerance : R) (xi_vertices : list Vertex)
         (xi_start xi_end : nat) (xi_key : list nat) : option (list nat) :=
  match fuel with
  | O => None
  | S fuel' =>
      let _tol := mul A xi_tolerance xi_tolerance in
      if (xi_end <=? xi_start + 1)%nat then Some xi_key
      else
        let '(_iMax, _maxDistSqr) := farthest xi_vertices xi_start xi_end in
        if ltb A _tol _maxDistSqr then
          match _reduce fuel' xi_tolerance xi_vertices xi_start _iMax
                        (_iMax :: xi_key) with
          | Some xi_key =>
              _reduce fuel' xi_tolerance xi_vertices _iMax xi_end xi_key
          | None => None
          end
        else Some xi_key
  end.

(** [reduce neighbouring vertices using tolerance (as radial distance)]. *)
Definition radial (_tol2 : R) (_thisVertices : list Vertex) : list Vertex :=
  let _size := length _thisVertices in
  let '(_vertices, _j) :=
    fold_left
      (fun '(_vertices, _j) _i =>
         if ltb A (_magDiff2vec (at_ _thisVertices _i) (at_ _thisVertices _j))
                  _tol2
         then (_vertices, _j)
         else (_vertices ++ [at_ _thisVertices _i], _i))
      (seq 1 (_size - 1))
      ([at_ _thisVertices 0], O) in
  if (_j <? _size - 1)%nat
  then _vertices ++ [at_ _thisVertices (_size - 1)]
  else _vertices.

(** [simplify] on the list of vertices.  On an empty polygon the last
    loop reads [_vertices[0][0]] where [_vertices[0]] is [undefined], which
    throws ([None]).  The recursion of [_reduce] is given the depth [_k]. *)
Definition simplifyVertices (xi_tolerance : R) (_thisVertices : list Vertex)
  : option (list Vertex) :=
  match _thisVertices with
  | [] => None
  | _ :: _ =>
      let _tol := orZero A xi_tolerance in
      let _tol2 := mul A _tol _tol in
      let _vertices := radial _tol2 _thisVertices in
      let _k := length _vertices in
      match _reduce _k _tol _vertices 0 (_k - 1) [(_k - 1)%nat; O] with
      | Some _key =>
          Some (map (at_ _vertices) (filter (marked _key) (seq 0 _k)))
      | None => None
      end
  end.

End Generic.

(** The arithmetic of the engine: IEEE 754 doubles. *)
Definition floatArith : Arith float :=
  mkArith float PrimFloat.add PrimFloat.sub PrimFloat.mul PrimFloat.div
          0%float PrimFloat.ltb PrimFloat.leb
          (fun x => if is_nan x || (x =? 0)%float then 0%float else x)
          nan.

(** [Polygon.prototype.simplify]. *)
Definition simplify (this : Polygon) (xi_tolerance : float) : option Polygon :=
  match simplifyVertices floatArith xi_tolerance (_toSet (_X this) (_Y this)) with
  | Some v => Some (mkPolygon (map fst v) (map snd v) (accuracy this))
  | None => None
  end.

End Simplify.

(** ** Further structural operations *)

(** [a.splice(start, deleteCount)]: delete [deleteCount] elements from
    [start] on. *)
Definition Array_splice {T : Type} (a : list T) (s c : nat) : list T :=
  firstn s a ++ skipn (s + c) a.

(** [Polygon.prototype.splice] hands its second argument to
    [Array.prototype.splice] as the number of elements to delete. *)
Definition splice (this : Polygon) (xi_start xi_end : nat) : Polygon :=
  let xi_start := toUint32 xi_start in
  let xi_end := toUint32 xi_end in
  mkPolygon (Array_splice (_X this) xi_start xi_end)
            (Array_splice (_Y this) xi_start xi_end) (accuracy this).

(** [push] throws ([None]) on a number that is not finite. *)
Definition push (this : Polygon) (xi_x xi_y : float) : option Polygon :=
  if is_finite xi_x && is_finite xi_y
  then Some (mkPolygon (_X this ++ [xi_x]) (_Y this ++ [xi_y]) (accuracy this))
  else None.

Definition unshift (this : Polygon) (xi_x xi_y : float) : option Polygon :=
  if is_finite xi_x && is_finite xi_y
  then Some (mkPolygon (xi_x :: _X this) (xi_y :: _Y this) (accuracy this))
  else None.

(** [a.pop()] returns the last element, [undefined] ([None]) on an empty
    array. *)
Definition Array_last {T : Type} (a : list T) : option T :=
  nth_error a (length a - 1).

(** [shift] returns [[x, y]] and leaves the polygon without its first
    vertex. *)
Definition shift (this : Polygon) : (option float * option float) * Polygon :=
  ((hd_error (_X this), hd_error (_Y this)),
   mkPolygon (tl (_X this)) (tl (_Y this)) (accuracy this)).

Definition pop (this : Polygon) : (option float * option float) * Polygon :=
  ((Array_last (_X this), Array_last (_Y this)),
   mkPolygon (removelast (_X this)) (removelast (_Y this)) (accuracy this)).

(** [a[i] = v] for an index up to the length of [a]: an entry is replaced,
    or one is appended. *)
Definition Array_assign (i : nat) (v : float) (a : list float) : list float :=
  if (i <? length a)%nat then RadialFit.set i v a else a ++ [v].

(** The receiver after [change].  [_index] is tested against the length of
    [_X] only: where [_Y] is shorter than [_index], the assignment to
    [_Y[_index]] leaves holes between the old end of [_Y] and the new entry.
    A hole is not an element ([every], [map] and [reduce] skip it, an
    indexed read gives [undefined]), and the arrays of a [Polygon] here are
    lists of elements: that receiver is [Sparse], with [None] for a hole
    of [_Y]. *)
Inductive Changed : Type :=
| Dense (this : Polygon)
| Sparse (x : list float) (y : list (option float)) (acc : float).

Definition change (this : Polygon) (xi_index : nat) (xi_x xi_y : float)
  : option Changed :=
  let _index := toUint32 xi_index in
  if is_finite xi_x && is_finite xi_y then
    if (_index <=? length (_X this))%nat
    then
      if (_index <=? length (_Y this))%nat
      then Some (Dense (mkPolygon (Array_assign _index xi_x (_X this))
                                  (Array_assign _index xi_y (_Y this))
                                  (accuracy this)))
      else Some (Sparse (Array_assign _index xi_x (_X this))
                        (map Some (_Y this)
                         ++ repeat None (_index - length (_Y this))
                         ++ [Some xi_y])
                        (accuracy this))
    else Some (Dense this)
  else None.

Definition insertVertex (this : Polygon) (xi_index : nat) (xi_x xi_y : float)
  : option Polygon :=
  let _index := toUint32 xi_index in
  if is_finite xi_x && is_finite xi_y then
    if (_index <? length (_X this))%nat
    then Some (mkPolygon
                 (firstn _index (_X this) ++ [xi_x] ++ skipn _index (_X this))
                 (firstn _index (_Y this) ++ [xi_y] ++ skipn _index (_Y this))
                 (accuracy this))
    else Some (mkPolygon (_X this ++ [xi_x]) (_Y this ++ [xi_y]) (accuracy this))
  else None.

Definition reverse (this : Polygon) : Polygon :=
  mkPolygon (rev (_X this)) (rev (_Y this)) (accuracy this).

(** [x || 0] on a number, and [x || 1]. *)
Definition orZero (x : float) : float :=
  if is_nan x || (x =? 0) then 0 else x.

Definition orOne (x : float) : float :=
  if is_nan x || (x =? 0) then 1 else x.

(** The loop [while (--_len >= 0) if (flag[_len]) splice(_len, 1)] of
    [sliceBox] and [sliceCircle]; a flag that is missing is [undefined]. *)
Definition removeFlagged (flag : list bool) (this : Polygon) : Polygon :=
  fold_left
    (fun this _len =>
       if nth _len flag false
       then mkPolygon (splice1 _len (_X this)) (splice1 _len (_Y this))
                      (accuracy this)
       else this)
    (rev (seq 0 (size this))) this.

Module SliceBox.

Definition _in (xi_array : list float) (xi_left xi_right : float) : list bool :=
  map (fun x => geb x xi_left && (x <=? xi_right)) xi_array.

Definition sliceBox (this : Polygon) (xi_xb xi_yb xi_xu xi_yu : float) : Polygon :=
  let _xIn := _in (_X this) (orZero xi_xb) (orZero xi_xu) in
  let _yIn := _in (_Y this) (orZero xi_yb) (orZero xi_yu) in
  removeFlagged
    (map (fun _len => nth _len _xIn false && nth _len _yIn false)
         (seq 0 (size this)))
    this.

End SliceBox.

Definition sliceCircle (this : Polygon) (xi_x xi_y xi_radius : float) : Polygon :=
  let _ix := orZero xi_x in
  let _iy := orZero xi_y in
  let _r2 := orOne xi_radius * xi_radius in
  let _xc := map (fun x => x - _ix) (_X this) in
  let _yc := map (fun x => x - _iy) (_Y this) in
  let _inCirc :=
    map (fun '(x, i) => x * x + get _yc i * get _yc i <=? _r2) (indexed _xc) in
  removeFlagged _inCirc this.

(** [this._equal(a, b)] *)
Definition _equal (this : Polygon) (xi_a xi_b : float) : bool :=
  abs (xi_a - xi_b) <? accuracy this.

Definition isEqual (this xi_polygon : Polygon) : bool :=
  if negb (length (_X this) =? size xi_polygon)%nat then false
  else
    forallb
      (fun _i =>
         negb (negb (_equal this (get (_X this) _i) (get (_X xi_polygon) _i))
               || negb (_equal this (get (_Y this) _i) (get (_Y xi_polygon) _i))))
      (seq 0 (length (_X this))).

(** ** extent and the extreme vertices *)

(** [this._min(a)] is [Math.min.apply(Math, a)]: [Infinity] for no
    argument, [NaN] as soon as one argument is. *)
Definition _min (xi_array : list float) : float :=
  fold_left RadialFit.Math_min xi_array infinity.

Definition _max (xi_array : list float) : float :=
  fold_left RadialFit.Math_max xi_array neg_infinity.

(** [a.indexOf(v)]: the first index whose element is [===] to [v];
    [None] stands for [-1]. *)
Fixpoint indexOfFrom (k : nat) (a : list float) (v : float) : option nat :=
  match a with
  | [] => None
  | x :: r => if x =? v then Some k else indexOfFrom (S k) r v
  end.

Definition Array_indexOf (a : list float) (v : float) : option nat :=
  indexOfFrom 0 a v.

Definition extent (this : Polygon) : list float :=
  [_min (_X this); _max (_X this); _min (_Y this); _max (_Y this)].

Definition bottomVertex (this : Polygon) : option nat :=
  Array_indexOf (_Y this) (_min (_Y this)).

Definition upperVertex (this : Polygon) : option nat :=
  Array_indexOf (_Y this) (_max (_Y this)).

Definition leftVertex (this : Polygon) : option nat :=
  Array_indexOf (_X this) (_min (_X this)).

Definition rightVertex (this : Polygon) : option nat :=
  Array_indexOf (_X this) (_max (_X this)).

(** ** on, closest, maxSide and minSide

    These methods reach [this._equal] and [this._safePythag] from inside a
    function that is called as a plain function ([_pointOnLine] in [on]) or
    handed to [map] without a receiver (the callback of [_distance2]).  In
    a script that is not in strict mode [this] is then the global object,
    as for [_leftBottom] in [convexHull].  The two properties of the global
    object are parameters: [None] when it has no such property, in which
    case the call throws, and the function to call otherwise. *)

Section GlobalObject.

Variable global_equal : option (float -> float -> bool).
Variable global_safePythag : option (float -> float -> float).

(** A boolean used as a number. *)
Definition boolNumber (b : bool) : float := if b then 1 else 0.

(** [_pointOnLine]; [None] is the [TypeError] of calling [undefined]. *)
Definition _pointOnLine (xi_px xi_py xi_lx1 xi_ly1 xi_lx2 xi_ly2 : float)
  : option bool :=
  let _crossTerm :=
    ((xi_py - xi_ly1) * (xi_lx2 - xi_lx1) =? (xi_px - xi_lx1) * (xi_ly2 - xi_ly1)) in
  match global_equal with
  | None => None
  | Some _equal =>
      let _xInclude :=
        abs (boolNumber (_equal xi_lx1 xi_px) + boolNumber (_equal xi_lx2 xi_px))
        <=? 1 in
      let _yInclude :=
        abs (boolNumber (_equal xi_ly1 xi_py) + boolNumber (_equal xi_ly2 xi_py))
        <=? 1 in
      Some (_crossTerm && _xInclude && _yInclude)
  end.

(** The [for] loop of [on] over the indexes [l]: [Some true] when it
    returns [true], [Some false] when it runs to its end. *)
Fixpoint onEdges (this : Polygon) (_ix _iy : float) (l : list nat)
  : option bool :=
  match l with
  | [] => Some false
  | _i :: r =>
      match _pointOnLine _ix _iy
                         (get (_X this) (_i - 1)) (get (_Y this) (_i - 1))
                         (get (_X this) _i) (get (_Y this) _i) with
      | None => None
      | Some true => Some true
      | Some false => onEdges this _ix _iy r
      end
  end.

(** [on]: after the loop [_i] is [_size], or [1] when the loop did not
    run. *)
Definition on (this : Polygon) (xi_x xi_y : float) : option bool :=
  let _size := length (_X this) in
  let _ix := orZero xi_x in
  let _iy := orZero xi_y in
  match onEdges this _ix _iy (seq 1 (_size - 1)) with
  | None => None
  | Some true => Some true
  | Some false =>
      let _i := Nat.max 1 _size in
      match _pointOnLine _ix _iy (get (_X this) _i) (get (_Y this) _i)
                         (get (_X this) 0) (get (_Y this) 0) with
      | None => None
      | Some true => Some true
      | Some false => Some false
      end
  end.

(** [this._distance2(a1, a2)]: the callback of [map] runs once for each
    element of [a1]. *)
Definition _distance2 (xi_array1 xi_array2 : list float) : option (list float) :=
  match xi_array1 with
  | [] => Some []
  | _ :: _ =>
      match global_safePythag with
      | None => None
      | Some _safePythag =>
          Some (map (fun '(x, i) => _safePythag x (get xi_array2 i))
                    (indexed xi_array1))
      end
  end.

(** [closest] returns an index, [-1] ([Some None]) when [indexOf] finds
    nothing. *)
Definition closest (this : Polygon) (xi_x xi_y : float) : option (option nat) :=
  let _ix := orZero xi_x in
  let _iy := orZero xi_y in
  let _dx := map (fun x => x - _ix) (_X this) in
  let _dy := map (fun x => x - _iy) (_Y this) in
  match _distance2 _dx _dy with
  | None => None
  | Some _dist => Some (Array_indexOf _dist (_min _dist))
  end.

Definition maxSide (this : Polygon) : option (option nat * float) :=
  let _xDiff := _diff (_X this) in
  let _yDiff := _diff (_Y this) in
  match _distance2 _xDiff _yDiff with
  | None => None
  | Some _side => let _maxSide := _max _side in
                  Some (Array_indexOf _side _maxSide, _maxSide)
  end.

Definition minSide (this : Polygon) : option (option nat * float) :=
  let _xDiff := _diff (_X this) in
  let _yDiff := _diff (_Y this) in
  match _distance2 _xDiff _yDiff with
  | None => None
  | Some _side => let _minSide := _min _side in
                  Some (Array_indexOf _side _minSide, _minSide)
  end.

End GlobalObject.

(** * Properties *)

(** ** Facts on IEEE 754 numbers *)

Module FloatFacts.




(** No number is below [NaN]. *)
Lemma ltb_nan_r (a : float) : (a <? nan) = false.
Proof.
  rewrite FloatAxioms.ltb_spec. change (Prim2SF nan) with S754_nan.
  destruct (Prim2SF a) as [[]|[]| |[] m e]; reflexivity.
Qed.

End FloatFacts.

(** ** Polygons used below *)

(** The square [(0,0), (10,0), (10,10), (0,10)]. *)
Definition square10 : Polygon :=
  mkPolygon [0; 10; 10; 0] [0; 0; 10; 10] 1e-10.

(** The two polygons of the third example of the README. *)
Definition readmeSubject : Polygon :=
  mkPolygon [50; 200; 350; 350; 250; 200; 150; 100; 100]
            [150; 50; 150; 300; 300; 250; 350; 250; 200] 1e-10.

Definition readmeClipper : Polygon :=
  mkPolygon [100; 300; 300; 100] [100; 100; 300; 300] 1e-10.

(** The quadrilateral [(0,0), (8,0), (8,8), (0,4)]. *)
Definition trapezoid : Polygon :=
  mkPolygon [0; 8; 8; 0] [0; 0; 8; 4] 1e-10.

(** The counter-clockwise triangle [(9,3), (9,0), (12,0)]. *)
Definition triangle : Polygon :=
  mkPolygon [9; 9; 12] [3; 0; 0] 1e-10.

(** The triangle [(0,5), (0,0), (1,0)], whose first two vertices share the
    least abscissa. *)
Definition tieTriangle : Polygon :=
  mkPolygon [0; 0; 1] [5; 0; 0] 1e-10.

(** Three points on the line [y = x]. *)
Definition collinear3 : Polygon :=
  mkPolygon [0; 1; 2] [0; 1; 2] 1e-10.

Example square10_constructed :
  Polygon_point [(0, 0); (10, 0); (10, 10); (0, 10)] = Some square10.
Proof. reflexivity. Qed.

Example readmeSubject_constructed :
  Polygon_point [(50, 150); (200, 50); (350, 150); (350, 300); (250, 300);
                 (200, 250); (150, 350); (100, 250); (100, 200)]
  = Some readmeSubject.
Proof. reflexivity. Qed.

Example readmeClipper_constructed :
  Polygon_point [(100, 100); (300, 100); (300, 300); (100, 300)]
  = Some readmeClipper.
Proof. reflexivity. Qed.

(** ** union: the two trimming loops *)

(** Which vertices of the README subject [inside] places in the clipper:
    those at the indexes 5, 7 and 8. *)
Example readmeSubject_inside_clipper :
  map (fun i => inside readmeClipper (get (_X readmeSubject) i)
                                     (get (_Y readmeSubject) i))
      (seq 0 9)
  = [false; false; false; false; false; true; false; true; true].
Proof. vm_compute. reflexivity. Qed.

(** C1 (the code departs from the claim).  After steps (1) and (2) of
    [union] on the README example, the trimmed copy of the subject still
    holds the vertex (100, 200), at index 6, which [inside] reports to be
    inside the clipper, both the original one and its trimmed copy: the
    loop removes index 6 (the vertex (100, 250)) and then moves on to index
    7, skipping the vertex that the removal shifted into index 6. *)
Theorem union_trimmed_keeps_an_inside_vertex :
  exists _this _ipolygon,
    union_trimmed readmeSubject readmeClipper = Some (_this, _ipolygon)
    /\ _this = mkPolygon [50; 200; 350; 350; 250; 150; 100]
                         [150; 50; 150; 300; 300; 350; 200] 1e-10
    /\ (get (_X _this) 6, get (_Y _this) 6) = (100, 200)
    /\ inside readmeClipper (get (_X _this) 6) (get (_Y _this) 6) = true
    /\ inside _ipolygon (get (_X _this) 6) (get (_Y _this) 6) = true.
Proof.
  eexists; eexists; split; [vm_compute; reflexivity|].
  repeat split; vm_compute; reflexivity.
Qed.

(** ** data *)

(** C2 (the code departs from the claim).  On the square of side 10,
    [data] returns [Ixy = -0], the product [Iuv * A * Cx * Cy], where the
    parallel-axis sum [Iuv + A * Cx * Cy] is 2500. *)
Theorem data_Ixy_is_a_product_on_square10 :
  let d := Data.data square10 in
  Data.Ixy d = (-0)%float
  /\ Data.Ixy d = Data.Iuv d * Data.area d * Data.centroidX d * Data.centroidY d
  /\ Data.Iuv d + Data.area d * Data.centroidX d * Data.centroidY d = 2500
  /\ (Data.Ixy d =? Data.Iuv d + Data.area d * Data.centroidX d * Data.centroidY d)
     = false.
Proof. vm_compute. repeat split; reflexivity. Qed.

(** C3 (the code departs from the claim).  On the quadrilateral
    [(0,0), (8,0), (8,8), (0,4)], of area 48 and vertex mean (4, 3), the
    first moments about the mean are (64/3, 16/3).  [data] returns the
    mean plus these moments, a point right of and above every vertex; the
    mean plus the moments divided by the area is another point. *)
Theorem data_centroid_is_not_normalised_on_trapezoid :
  let l := Data.canonical (Data.locals trapezoid) in
  let d := Data.data trapezoid in
  Data.area d = 48
  /\ (Data.l_xm l, Data.l_ym l) = (4, 3)
  /\ Data.centroidX d = Data.l_xm l + Data.l_Cx l
  /\ Data.centroidY d = Data.l_ym l + Data.l_Cy l
  /\ (25 <? Data.centroidX d) = true
  /\ (8 <? Data.centroidY d) = true
  /\ (Data.l_xm l + Data.l_Cx l / Data.l_A l <? 5) = true
  /\ (Data.l_ym l + Data.l_Cy l / Data.l_A l <? 4) = true.
Proof. vm_compute. repeat split; reflexivity. Qed.

(** C5 (the code departs from the claim).  The triangle
    [(9,3), (9,0), (12,0)] is counter-clockwise: the signed area that
    [data] computes before canonicalisation is -4.5, not positive.
    [isClockWise], whose sum leaves out the closing edge, returns [true]. *)
Theorem isClockWise_disagrees_with_raw_area_on_triangle :
  isClockWise triangle = true
  /\ Data.l_A (Data.locals triangle) = (-4.5)%float
  /\ (0 <? Data.l_A (Data.locals triangle)) = false.
Proof. vm_compute. repeat split; reflexivity. Qed.

(** ** intersect *)

(** C6.  Intersecting the square [(0,0), (10,0), (10,10), (0,10)] with
    itself returns a polygon, and the area [data] computes for it is
    exactly 100. *)
Theorem intersect_square10_with_itself_has_area_100 :
  exists p, Intersect.intersect square10 square10 = Some p
            /\ Data.area (Data.data p) = 100.
Proof. eexists; split; vm_compute; reflexivity. Qed.

(** ** convexHull *)

(** C9 (the code departs from the claim).  On [(0,5), (0,0), (1,0)] the
    hull starts at (0, 5), the first vertex of least abscissa, although
    (0, 0) has the same abscissa and a lower ordinate: the tie-breaking
    comparison with [this.accuracy] never holds. *)
Theorem convexHull_first_point_ignores_the_tie_on_x :
  ConvexHull._leftBottom ConvexHull.undefined_accuracy
                         (_X tieTriangle) (_Y tieTriangle) = O
  /\ ConvexHull.convexHull 3 tieTriangle = Some ([0; 0; 1], [5; 0; 0]).
Proof. vm_compute. split; reflexivity. Qed.

(** With the tolerance of the polygon in the place of [this.accuracy],
    [_leftBottom] would break the tie of [tieTriangle] by the ordinate. *)
Example leftBottom_with_the_polygon_accuracy :
  ConvexHull._leftBottom (accuracy tieTriangle) (_X tieTriangle) (_Y tieTriangle)
  = 1%nat.
Proof. vm_compute. reflexivity. Qed.

Lemma fold_left_pointwise {St T : Type} (f g : St -> T -> St) (l : list T) :
  (forall s t, f s t = g s t) ->
  forall s, fold_left f l s = fold_left g l s.
Proof.
  intros H. induction l as [|t l IH]; intros s; simpl; auto.
  rewrite H. apply IH.
Qed.

(** With [this.accuracy] undefined the ordinates play no part in the choice
    of the first hull vertex. *)
Lemma leftBottom_ignores_the_ordinates (xi_x xi_y xi_y' : list float) :
  ConvexHull._leftBottom ConvexHull.undefined_accuracy xi_x xi_y
  = ConvexHull._leftBottom ConvexHull.undefined_accuracy xi_x xi_y'.
Proof.
  unfold ConvexHull._leftBottom, ConvexHull.undefined_accuracy.
  apply fold_left_pointwise. intros xo_index _i.
  rewrite !FloatFacts.ltb_nan_r. reflexivity.
Qed.

(** The bound given to the loop of [convexHull] does not change what it
    returns. *)
Lemma convexHull_more_fuel :
  forall fuel this hull,
    ConvexHull.convexHull fuel this = Some hull ->
    forall n, ConvexHull.convexHull (fuel + n) this = Some hull.
Proof.
  intros fuel this hull H n. unfold ConvexHull.convexHull in *.
  revert H.
  generalize (ConvexHull._leftBottom ConvexHull.undefined_accuracy
                                     (_X this) (_Y this)) at 2 4.
  generalize (@nil float) at 1 3. generalize (@nil float).
  induction fuel as [|fuel IH]; intros ys xs h H; [discriminate|].
  cbn [Nat.add ConvexHull.wrap] in *.
  destruct (_ =? _)%nat; auto.
Qed.

(** ** radialFit: the linear solver has no failure channel of its own *)

Module RadialFitFacts.
Import RadialFit.

(** A matrix of [r] rows, each of [c] entries. *)
Definition shape (m : Matrix) (r c : nat) : Prop :=
  length m = r /\ Forall (fun row => length row = c) m.

Lemma forEach_nil {St : Type} (body : nat -> St -> option St) (s : St) :
  forEach [] body s = Some s.
Proof. reflexivity. Qed.

Lemma forEach_failed {St : Type} (body : nat -> St -> option St) (l : list nat) :
  fold_left (fun acc i => bind acc (body i)) l None = None.
Proof. induction l; simpl; auto. Qed.

Lemma forEach_cons {St : Type} (body : nat -> St -> option St) i l (s : St) :
  forEach (i :: l) body s = bind (body i s) (forEach l body).
Proof.
  unfold forEach; simpl. destruct (body i s); simpl; auto using forEach_failed.
Qed.

(** A loop whose body keeps an invariant and never throws does not throw. *)
Lemma forEach_invariant {St : Type} (P : St -> Prop) (body : nat -> St -> option St)
      (l : list nat) :
  (forall i s, In i l -> P s -> exists s', body i s = Some s' /\ P s') ->
  forall s, P s -> exists s', forEach l body s = Some s' /\ P s'.
Proof.
  induction l as [|i l IH]; intros Hbody s Hs.
  - exists s; auto.
  - rewrite forEach_cons.
    destruct (Hbody i s (or_introl eq_refl) Hs) as (s1 & -> & Hs1); simpl.
    apply IH; auto. intros j s2 Hj. apply Hbody. now right.
Qed.

(** The same for an invariant that depends on the loop counter. *)
Lemma forEach_seq_invariant {St : Type} (P : nat -> St -> Prop)
      (body : nat -> St -> option St) (n : nat) :
  forall a,
    (forall i s, a <= i < a + n -> P i s ->
                 exists s', body i s = Some s' /\ P (S i) s')%nat ->
    forall s, P a s -> exists s', forEach (seq a n) body s = Some s' /\ P (a + n)%nat s'.
Proof.
  induction n as [|n IH]; intros a Hbody s Hs.
  - exists s. rewrite Nat.add_0_r. auto.
  - simpl seq. rewrite forEach_cons.
    destruct (Hbody a s ltac:(lia) Hs) as (s1 & -> & Hs1); simpl.
    replace (a + S n)%nat with (S a + n)%nat by lia.
    apply IH; auto. intros i s2 Hi. apply Hbody. lia.
Qed.

Lemma length_set i v a : length (set i v a) = length a.
Proof. revert i; induction a; destruct i; simpl; auto. Qed.

Lemma length_setRow i row m : length (setRow i row m) = length m.
Proof. revert i; induction m; destruct i; simpl; auto. Qed.

Lemma nth_error_setRow i row m k :
  (i < length m)%nat ->
  nth_error (setRow i row m) k = if (k =? i)%nat then Some row else nth_error m k.
Proof.
  revert i k; induction m as [|h m IH]; intros i k Hi; simpl in Hi; [lia|].
  destruct i, k; simpl; auto. apply IH. lia.
Qed.

Lemma Forall_setRow (P : list float -> Prop) i row m :
  P row -> Forall P m -> Forall P (setRow i row m).
Proof.
  intros Hrow Hm; revert i; induction Hm; destruct i; simpl; auto.
Qed.

Lemma shape_row m r c i :
  shape m r c -> (i < r)%nat ->
  exists row, nth_error m i = Some row /\ length row = c.
Proof.
  intros [Hlen Hall] Hi.
  destruct (nth_error m i) as [row|] eqn:E.
  - exists row; split; auto.
    rewrite Forall_forall in Hall. apply Hall. eapply nth_error_In; eauto.
  - apply nth_error_None in E. lia.
Qed.

Lemma read_shape m r c i j :
  shape m r c -> (i < r)%nat -> exists v, read m i j = Some v.
Proof.
  intros Hm Hi. destruct (shape_row m r c i Hm Hi) as (row & E & _).
  unfold read. rewrite E. simpl. eauto.
Qed.

Lemma write_shape m r c i j v :
  shape m r c -> (i < r)%nat ->
  exists m', write m i j v = Some m' /\ shape m' r c.
Proof.
  intros Hm Hi. destruct (shape_row m r c i Hm Hi) as (row & E & Hrow).
  unfold write. rewrite E. simpl. eexists; split; eauto.
  destruct Hm as [Hlen Hall]. split.
  - now rewrite length_setRow.
  - apply Forall_setRow; auto. now rewrite length_set.
Qed.

Ltac step_read H :=
  match goal with
  | |- context [read ?m ?i ?j] =>
      let v := fresh "v" in
      let E := fresh "E" in
      destruct (read_shape m _ _ i j H ltac:(lia)) as (v & E); rewrite E; simpl
  end.

Lemma concat_shape A B r c :
  shape A r c -> length B = r ->
  exists AB, _concat A B = Some AB /\ shape AB r (c + 1).
Proof.
  intros [Hlen Hall] HB. unfold _concat. rewrite HB.
  pose (P := fun (i : nat) (m : Matrix) =>
               length m = r /\
               forall k row, nth_error m k = Some row ->
                             length row = if (k <? i)%nat then (c + 1)%nat else c).
  destruct (forEach_seq_invariant P
              (fun _i m => row <- nth_error m _i ;;
                           Some (setRow _i (row ++ [get B _i]) m)) r O)
    with (s := A) as (AB & E & HP).
  - intros i m Hi [Hl Hrows].
    destruct (nth_error m i) as [row|] eqn:Ei.
    2:{ apply nth_error_None in Ei. lia. }
    simpl. eexists; split; eauto. split.
    + now rewrite length_setRow.
    + intros k row' Hk. rewrite nth_error_setRow in Hk by lia.
      destruct (Nat.eqb_spec k i) as [->|Hne].
      * inversion Hk; subst. rewrite length_app; simpl.
        rewrite (Hrows _ _ Ei).
        replace (i <? i)%nat with false by (symmetry; apply Nat.ltb_ge; lia).
        replace (i <? S i)%nat with true by (symmetry; apply Nat.ltb_lt; lia).
        reflexivity.
      * rewrite (Hrows _ _ Hk).
        destruct (Nat.ltb_spec k i), (Nat.ltb_spec k (S i)); auto; lia.
  - split; auto. intros k row Hk. simpl.
    rewrite Forall_forall in Hall. apply Hall. eapply nth_error_In; eauto.
  - exists AB; split; auto. destruct HP as [Hl Hrows]. split; auto.
    apply Forall_forall. intros row Hin.
    destruct (In_nth_error _ _ Hin) as (k & Hk).
    rewrite (Hrows _ _ Hk).
    assert (k < length AB)%nat by (apply nth_error_Some; congruence).
    replace (k <? 0 + r)%nat with true by (symmetry; apply Nat.ltb_lt; lia).
    reflexivity.
Qed.

Lemma columnMaximum_shape m r c _columns i :
  shape m r c -> (_columns <= r)%nat -> (i < r)%nat ->
  exists p j, columnMaximum m _columns i = Some (p, j) /\ (j < r)%nat.
Proof.
  intros Hm Hc Hi. unfold columnMaximum.
  destruct (read_shape m r c i i Hm Hi) as (p0 & ->); simpl.
  destruct (forEach_invariant (fun pj : float * nat => (snd pj < r)%nat)
              (fun _k '(_pivot, _j) =>
                 v <- read m _k i ;;
                 Some (if _pivot <? abs v then (v, _k) else (_pivot, _j)))
              (seq (i + 1) (_columns - (i + 1))))
    with (s := (p0, i)) as ([p j] & E & Hj); simpl; auto.
  - intros k [p j] Hk Hj. apply in_seq in Hk.
    destruct (read_shape m r c k i Hm ltac:(lia)) as (v & ->); simpl.
    eexists; split; eauto. destruct (p <? abs v); simpl in *; lia.
  - exists p, j; split; auto.
Qed.

Lemma swapRows_shape m r c _abColumns i j :
  shape m r c -> (i < r)%nat -> (j < r)%nat ->
  exists m', swapRows m _abColumns i j = Some m' /\ shape m' r c.
Proof.
  intros Hm Hi Hj. unfold swapRows.
  apply forEach_invariant with (P := fun m => shape m r c); auto.
  intros k m0 _ Hm0.
  destruct (read_shape m0 r c i k Hm0 Hi) as (t & ->); simpl.
  destruct (read_shape m0 r c j k Hm0 Hj) as (v & ->); simpl.
  destruct (write_shape m0 r c i k v Hm0 Hi) as (m1 & -> & Hm1); simpl.
  apply write_shape; auto.
Qed.

Lemma nullifyBelow_shape m r c _abColumns i :
  shape m r c -> (i < r)%nat ->
  exists m', nullifyBelow m r _abColumns i = Some m' /\ shape m' r c.
Proof.
  intros Hm Hi. unfold nullifyBelow.
  apply forEach_invariant with (P := fun m => shape m r c); auto.
  intros j m0 Hj Hm0. apply in_seq in Hj.
  destruct (read_shape m0 r c j i Hm0 ltac:(lia)) as (a & ->); simpl.
  destruct (read_shape m0 r c i i Hm0 Hi) as (d & ->); simpl.
  apply forEach_invariant with (P := fun m => shape m r c); auto.
  intros k m1 _ Hm1.
  destruct (read_shape m1 r c j k Hm1 ltac:(lia)) as (u & ->); simpl.
  destruct (read_shape m1 r c i k Hm1 Hi) as (w & ->); simpl.
  apply write_shape; auto. lia.
Qed.

Lemma backSubstitute_shape m r c _columns :
  shape m r c -> (_columns <= r)%nat ->
  exists out, backSubstitute m _columns = Some out /\ length out = _columns.
Proof.
  intros Hm Hc. unfold backSubstitute.
  pose (body := fun (_i : nat) '((m, xo_out) : Matrix * list float) =>
            a <- read m _i _columns ;;
            d <- read m _i _i ;;
            let _temp := a / d in
            m <- forEach (rev (seq 0 _i))
                   (fun _j m =>
                      u <- read m _j _columns ;;
                      w <- read m _j _i ;;
                      write m _j _columns (u - w * _temp))
                   m ;;
            Some (m, _temp :: xo_out)).
  assert (Hgen : forall l, (forall i, In i l -> i < _columns)%nat ->
            forall s, shape (fst s) r c ->
            exists s', forEach l body s = Some s' /\ shape (fst s') r c
                       /\ length (snd s') = (length l + length (snd s))%nat).
  { induction l as [|i l IH]; intros Hl [m0 out0] Hs; simpl in Hs.
    - eexists; split; [reflexivity|]. simpl; auto.
    - rewrite forEach_cons. unfold body at 1.
      assert (Hi : (i < _columns)%nat) by (apply Hl; now left).
      destruct (read_shape m0 r c i _columns Hs ltac:(lia)) as (a & ->); simpl.
      destruct (read_shape m0 r c i i Hs ltac:(lia)) as (d & ->); simpl.
      destruct (forEach_invariant (fun m => shape m r c)
                  (fun _j m =>
                     u <- read m _j _columns ;;
                     w <- read m _j i ;;
                     write m _j _columns (u - w * (a / d)))
                  (rev (seq 0 i)))
        with (s := m0) as (m1 & -> & Hm1); auto.
      { intros j m2 Hj Hm2. apply in_rev, in_seq in Hj.
        destruct (read_shape m2 r c j _columns Hm2 ltac:(lia)) as (u & ->); simpl.
        destruct (read_shape m2 r c j i Hm2 ltac:(lia)) as (w & ->); simpl.
        apply write_shape; auto. lia. }
      simpl.
      destruct (IH (fun k Hk => Hl k (or_intror Hk)) (m1, (a / d) :: out0) Hm1)
        as (s' & E & Hs' & Hlen).
      exists s'; split; auto. split; auto. simpl in Hlen. simpl. lia. }
  destruct (Hgen (rev (seq 0 _columns))
                 (fun i Hi => proj2 (proj1 (in_seq _ _ _) (proj2 (in_rev _ _) Hi)))
                 (m, []) Hm) as ([m' out] & E & _ & Hlen).
  fold body. rewrite E. simpl. exists out; split; auto.
  simpl in Hlen. rewrite length_rev, length_seq in Hlen. lia.
Qed.

(** On a system of [r] equations with [c] unknowns, [1 <= c <= r], the
    elimination runs to its end and returns [c] numbers: no input of this
    shape makes it throw. *)
Lemma gaussElimination_returns A B r c :
  shape A r c -> length B = r -> (1 <= r)%nat -> (c <= r)%nat ->
  exists out, _gaussElimination A B = Some out /\ length out = c.
Proof.
  intros HA HB Hr Hc. unfold _gaussElimination.
  destruct (shape_row A r c 0 HA Hr) as (row0 & -> & Hrow0); cbn [bind].
  destruct HA as [HlenA HallA]. rewrite HlenA, Hrow0.
  destruct (concat_shape A B r c (conj HlenA HallA) HB) as (AB & -> & HAB);
    cbn [bind].
  destruct (shape_row AB r (c + 1) 0 HAB Hr) as (row1 & -> & Hrow1); cbn [bind].
  rewrite Hrow1.
  destruct (forEach_invariant (fun m => shape m r (c + 1))
              (fun _i m =>
                 pj <- columnMaximum m c _i ;;
                 m <- swapRows m (c + 1) _i (snd pj) ;;
                 nullifyBelow m r (c + 1) _i)
              (seq 0 r))
    with (s := AB) as (AB' & -> & HAB'); auto.
  { intros i m Hi Hm. apply in_seq in Hi.
    destruct (columnMaximum_shape m r (c + 1) c i Hm Hc ltac:(lia))
      as (p & j & -> & Hj); simpl.
    destruct (swapRows_shape m r (c + 1) (c + 1) i j Hm ltac:(lia) Hj)
      as (m1 & -> & Hm1); simpl.
    apply nullifyBelow_shape; auto. lia. }
  simpl. eapply backSubstitute_shape; eauto.
Qed.

Lemma circleSystem_shape x y :
  shape (fst (circleSystem x y)) (length x) 3
  /\ length (snd (circleSystem x y)) = length x.
Proof.
  unfold circleSystem, shape; simpl. rewrite !length_map, !length_seq.
  repeat split. apply Forall_forall. intros row Hin.
  apply in_map_iff in Hin. destruct Hin as (i & <- & _). reflexivity.
Qed.

Lemma ellipseSystem_shape x y :
  shape (fst (ellipseSystem x y)) (length x) 5
  /\ length (snd (ellipseSystem x y)) = length x.
Proof.
  unfold ellipseSystem, shape; simpl. rewrite !length_map, !length_seq.
  repeat split. apply Forall_forall. intros row Hin.
  apply in_map_iff in Hin. destruct Hin as (i & <- & _). reflexivity.
Qed.

Lemma fitCircle_returns x y :
  (3 <= length x)%nat -> exists a b c, _fitCircle x y = Some [a; b; c].
Proof.
  intros Hx. unfold _fitCircle.
  destruct (circleSystem_shape x y) as [HA HB].
  destruct (circleSystem x y) as [A B]; simpl in *.
  destruct (gaussElimination_returns A B (length x) 3 HA HB ltac:(lia) Hx)
    as (out & -> & _); simpl.
  eauto.
Qed.

Lemma fitEllipse_returns atan x y :
  (5 <= length x)%nat ->
  exists a b c d e, _fitEllipse atan x y = Some [a; b; c; d; e].
Proof.
  intros Hx. unfold _fitEllipse.
  destruct (ellipseSystem_shape x y) as [HA HB].
  destruct (ellipseSystem x y) as [A B]; simpl in *.
  destruct (gaussElimination_returns A B (length x) 5 HA HB ltac:(lia) Hx)
    as (out & -> & _); simpl.
  do 5 eexists; reflexivity.
Qed.

End RadialFitFacts.

(** Three collinear points make the system of the circle fit singular
    (its first two columns are equal), and the fit returns three [NaN]
    without reporting anything. *)
Example circleSystem_collinear3 :
  RadialFit.circleSystem (_X collinear3) (_Y collinear3)
  = ([[0; 0; 1]; [1; 1; 1]; [2; 2; 1]], [(-0)%float; (-2)%float; (-8)%float]).
Proof. reflexivity. Qed.

(** C4, as stated, fails: the circle fit over the collinear points
    (0,0), (1,1), (2,2) builds a singular system, and [radialFit] returns the
    array [[NaN, NaN, NaN]] instead of a failure. *)
Lemma radialFit_collinear3_returns_NaN :
  (forall Math_atan,
      RadialFit.radialFit Math_atan collinear3 RadialFit.CIRCLE
      = Some [nan; nan; nan])
  /\ map (fun row => get row 0)
         (fst (RadialFit.circleSystem (_X collinear3) (_Y collinear3)))
     = map (fun row => get row 1)
           (fst (RadialFit.circleSystem (_X collinear3) (_Y collinear3))).
Proof. split; [intros Math_atan|]; vm_compute; reflexivity. Qed.

(** The numbers returned for a singular system are not always [NaN]: on
    the collinear points (1,1), (2,3), (3,5) they are finite, and on
    (1,1), (2,1), (4,1) they are [NaN] and [Infinity]. *)
Example radialFit_singular_systems_return_any_numbers :
  RadialFit.radialFit (fun x => x) (mkPolygon [1; 2; 3] [1; 3; 5] 1e-10)
                      RadialFit.CIRCLE
  = Some [22517998136852484; -11258999068426238; 25175887275607880]
  /\ RadialFit.radialFit (fun x => x) (mkPolygon [1; 2; 4] [1; 1; 1] 1e-10)
                         RadialFit.CIRCLE
     = Some [nan; infinity; nan].
Proof. vm_compute. split; reflexivity. Qed.

(** C4, as amended.  [radialFit] has no test for a singular system: on
    every polygon with at least as many vertices as the fit has unknowns
    (three for a circle, five for an ellipse) it returns an array of
    numbers, three for a circle and five for an ellipse, whatever the
    system is. *)
Theorem radialFit_always_returns_numbers :
  forall (Math_atan : float -> float) (this : Polygon) (xi_type : RadialFit.FitType),
    let n := match xi_type with RadialFit.ELLIPSE => 5%nat | _ => 3%nat end in
    (n <= size this)%nat ->
    exists out, RadialFit.radialFit Math_atan this xi_type = Some out
                /\ length out = n.
Proof.
  intros Math_atan this xi_type n Hn. unfold size in Hn.
  destruct xi_type; simpl in *.
  - destruct (RadialFitFacts.fitCircle_returns (_X this) (_Y this) Hn)
      as (a & b & c & ->). eauto.
  - destruct (RadialFitFacts.fitEllipse_returns Math_atan (_X this) (_Y this) Hn)
      as (a & b & c & d & e & ->). eauto.
  - destruct (RadialFitFacts.fitCircle_returns (_X this) (_Y this) Hn)
      as (a & b & c & ->). eauto.
Qed.

(** The circle fit over [collinear3] is such a call. *)
Lemma radialFit_always_returns_numbers_witness :
  exists out,
    RadialFit.radialFit (fun x => x) collinear3 RadialFit.CIRCLE = Some out
    /\ length out = 3%nat.
Proof.
  apply (radialFit_always_returns_numbers (fun x => x) collinear3 RadialFit.CIRCLE).
  vm_compute. lia.
Defined.

(** ** lineIntersect: edges parallel to the query segment *)

(** The 2x2 determinant of the two directions that the specification
    names: the divisor of [_lineLineInter] with the extent of the second
    segment along x taken from that segment's own first point,
    [xi_x2_l2 - xi_x1_l2], the way [_s2y] is taken along y.  It is zero
    when the segments are parallel or collinear. *)
Definition determinant (xi_x1_l1 xi_y1_l1 xi_x2_l1 xi_y2_l1
                        xi_x1_l2 xi_y1_l2 xi_x2_l2 xi_y2_l2 : float) : float :=
  let _s1x := xi_x2_l1 - xi_x1_l1 in
  let _s1y := xi_y2_l1 - xi_y1_l1 in
  let _s2x := xi_x2_l2 - xi_x1_l2 in
  let _s2y := xi_y2_l2 - xi_y1_l2 in
  - _s2x * _s1y + _s1x * _s2y.


Module LineIntersectFacts.



End LineIntersectFacts.




(** For an edge that starts at another abscissa the divisor is not the
    determinant: it uses [xi_x2_l2 - xi_x1_l1] where the extent of the edge
    is [xi_x2_l2 - xi_x1_l2].  The segment (1,2)-(3,4) and the edge
    (0,0)-(2,2) are parallel, the determinant is zero, the divisor is 2,
    and the edge adds the point (1, 2); the triangle (0,0), (2,2), (0,2)
    gets that point twice, from this edge and from the next. *)
Example lineLineInter_parallel_edge_with_nonzero_divisor :
  determinant 1 2 3 4 0 0 2 2 = 0
  /\ LineIntersect.divisor 1 2 3 4 0 0 2 2 = 2
  /\ LineIntersect._lineLineInter 1 2 3 4 0 0 2 2 = Some (1, 2)
  /\ LineIntersect.lineIntersect (mkPolygon [0; 2; 0] [0; 2; 2] 1e-10) 1 2 3 4
     = LineIntersect.mkResult true [1; 1] [2; 2].
Proof. vm_compute. repeat split; reflexivity. Qed.

(** ** sortCW only reorders the vertices *)

(** The vertices of a polygon as pairs. *)
Definition vertexPairs (p : Polygon) : list (float * float) :=
  combine (_X p) (_Y p).

Lemma map_get_pairs (x y : list float) :
  length x = length y ->
  map (fun i => (get x i, get y i)) (seq 0 (length x)) = combine x y.
Proof.
  revert y. induction x as [|a x IH]; intros [|b y] H; simpl in *;
    try discriminate; auto.
  f_equal. rewrite <- seq_shift, map_map. apply IH. congruence.
Qed.

Lemma sort_insert_Permutation {T : Type} (cmp : T -> T -> float) a l :
  Permutation (sort_insert cmp a l) (a :: l).
Proof.
  induction l as [|b l IH]; simpl; auto.
  destruct (gtb (cmp a b) 0); auto.
  rewrite IH. apply perm_swap.
Qed.

Lemma insertion_sort_Permutation (T : Type) (cmp : T -> T -> float) (l : list T) :
  Permutation (insertion_sort T cmp l) l.
Proof.
  induction l as [|a l IH]; simpl; auto.
  rewrite sort_insert_Permutation. now constructor.
Qed.

(** C10.  Whatever rearrangement the engine's [sort] makes, [sortCW] on a
    polygon (two coordinate arrays of one length) leaves the number of
    vertices unchanged and its vertices are a permutation of the vertices
    before the call. *)
Theorem sortCW_is_a_permutation_of_the_vertices :
  forall (Array_sort : forall T : Type, (T -> T -> float) -> list T -> list T),
    (forall T cmp l, Permutation (Array_sort T cmp l) l) ->
    forall this : Polygon,
      wellFormed this ->
      Permutation (vertexPairs (sortCW Array_sort this)) (vertexPairs this)
      /\ size (sortCW Array_sort this) = size this
      /\ wellFormed (sortCW Array_sort this).
Proof.
  intros Array_sort Hsort this Hwf. unfold wellFormed in Hwf.
  assert (HX : skipn (length (_X this)) (_X this) = []) by apply skipn_all.
  assert (HY : skipn (length (_X this)) (_Y this) = [])
    by (rewrite Hwf; apply skipn_all).
  unfold sortCW, vertexPairs, size, wellFormed; simpl.
  rewrite HX, HY, !app_nil_r.
  set (z := map _ (seq 0 (length (_X this)))).
  assert (Hz : map (fun a => (SortCW.x a, SortCW.y a)) z = combine (_X this) (_Y this)).
  { unfold z. rewrite map_map. simpl. now apply map_get_pairs. }
  assert (Hc : forall l : list SortCW.AngleZipped,
             combine (map SortCW.x l) (map SortCW.y l)
             = map (fun a => (SortCW.x a, SortCW.y a)) l).
  { induction l; simpl; congruence. }
  rewrite Hc, <- Hz. repeat split.
  - apply Permutation_map, Hsort.
  - rewrite length_map, (Permutation_length (Hsort _ _ _)).
    unfold z. now rewrite length_map, length_seq.
  - now rewrite !length_map.
Qed.

(** The README subject, sorted with the insertion sort above. *)
Lemma sortCW_is_a_permutation_of_the_vertices_witness :
  Permutation (vertexPairs (sortCW insertion_sort readmeSubject))
              (vertexPairs readmeSubject)
  /\ size (sortCW insertion_sort readmeSubject) = size readmeSubject
  /\ wellFormed (sortCW insertion_sort readmeSubject).
Proof.
  apply (sortCW_is_a_permutation_of_the_vertices
           insertion_sort insertion_sort_Permutation readmeSubject).
  reflexivity.
Defined.

(** ** simplify: the two stages on lists

    [_reduce] works on indexes into the array of vertices and on the array
    of marks; [farL] and [dpL] below do the same on lists.  Nothing here
    depends on a property of the numbers. *)

Module SimplifyFacts.
Import Simplify.

Section Stages.

Context {R : Type} (A : Arith R).

(** The tolerance [_tol] that [simplify] hands to [_reduce]. *)
Variable tol : R.

(** [_tol2] in [simplify], [_tol] in [_reduce]. *)
Definition tol2 : R := mul A tol tol.

(** The scan of [farthest] over the vertices [mid] strictly between the
    ends [a] and [b] of a chord, with running maximum [M]: the vertices
    before the farthest one, the farthest one, those after it, and its
    distance; [None] when no vertex beats [M]. *)
Fixpoint farL (a b : Vertex) (mid : list Vertex) (M : R)
  : option (list Vertex * Vertex * list Vertex * R) :=
  match mid with
  | [] => None
  | p :: rest =>
      let d := distance A p a b in
      if leb A d M then
        match farL a b rest M with
        | Some (pre, m, post, D) => Some (p :: pre, m, post, D)
        | None => None
        end
      else
        match farL a b rest d with
        | Some (pre, m, post, D) => Some (p :: pre, m, post, D)
        | None => Some ([], p, rest, d)
        end
  end.

(** [_reduce] on lists: the vertices kept strictly between [a] and [b]. *)
Fixpoint dpL (fuel : nat) (a b : Vertex) (mid : list Vertex)
  : option (list Vertex) :=
  match fuel with
  | O => None
  | S fuel' =>
      match mid with
      | [] => Some []
      | _ :: _ =>
          match farL a b mid (zero A) with
          | Some (pre, m, post, D) =>
              if ltb A tol2 D then
                match dpL fuel' a m pre with
                | Some r1 =>
                    match dpL fuel' m b post with
                    | Some r2 => Some (r1 ++ m :: r2)
                    | None => None
                    end
                | None => None
                end
              else Some []
          | None => Some []
          end
      end
  end.

Lemma at_middle (pfx sfx : list Vertex) (p : Vertex) :
  at_ A (pfx ++ p :: sfx) (length pfx) = p.
Proof. unfold at_. apply nth_middle. Qed.

Lemma farL_split a b mid M pre m post D :
  farL a b mid M = Some (pre, m, post, D) ->
  mid = pre ++ m :: post /\ D = distance A m a b.
Proof.
  revert M pre. induction mid as [|p rest IH]; intros M pre H; simpl in H.
  - discriminate.
  - destruct (leb A (distance A p a b) M).
    + destruct (farL a b rest M) as [[[[pre' m'] post'] D']|] eqn:E;
        inversion H; subst.
      destruct (IH _ _ E) as [-> ->]. auto.
    + destruct (farL a b rest (distance A p a b)) as [[[[pre' m'] post'] D']|] eqn:E;
        inversion H; subst.
      * destruct (IH _ _ E) as [-> ->]. auto.
      * auto.
Qed.

(** The body of the loop of [farthest]. *)
Definition farStep (vs : list Vertex) (s e : nat) : nat * R -> nat -> nat * R :=
  fun '(_iMax, _maxDistSqr) _i =>
    let _dist := distance A (at_ A vs _i) (at_ A vs s) (at_ A vs e) in
    if leb A _dist _maxDistSqr then (_iMax, _maxDistSqr) else (_i, _dist).

Lemma farthest_fold vs s e :
  farthest A vs s e
  = fold_left (farStep vs s e) (seq (s + 1) (e - (s + 1))) (s, zero A).
Proof. reflexivity. Qed.

(** The loop of [farthest], started anywhere, is the scan [farL]. *)
Lemma farthest_loop vs s e :
  forall rest pfx sfx i0 M,
    vs = pfx ++ rest ++ sfx ->
    fold_left (farStep vs s e) (seq (length pfx) (length rest)) (i0, M)
    = match farL (at_ A vs s) (at_ A vs e) rest M with
      | Some (pre, _, _, D) => ((length pfx + length pre)%nat, D)
      | None => (i0, M)
      end.
Proof.
  induction rest as [|p rest IH]; intros pfx sfx i0 M Hvs.
  - reflexivity.
  - assert (Hp : at_ A vs (length pfx) = p) by (subst vs; apply at_middle).
    assert (Hvs' : vs = (pfx ++ [p]) ++ rest ++ sfx)
      by (rewrite <- app_assoc; exact Hvs).
    assert (Hlen : length (pfx ++ [p]) = S (length pfx))
      by (rewrite length_app; simpl; lia).
    cbn [length seq fold_left farL]. unfold farStep at 2. rewrite Hp.
    cbv zeta.
    destruct (leb A (distance A p (at_ A vs s) (at_ A vs e)) M).
    + specialize (IH (pfx ++ [p]) sfx i0 M Hvs'). rewrite Hlen in IH.
      rewrite IH.
      destruct (farL _ _ rest M) as [[[[pre m] post] D]|]; simpl; auto.
      f_equal. lia.
    + specialize (IH (pfx ++ [p]) sfx (length pfx)
                     (distance A p (at_ A vs s) (at_ A vs e)) Hvs').
      rewrite Hlen in IH. rewrite IH.
      destruct (farL _ _ rest _) as [[[[pre m] post] D]|]; simpl; auto.
      * f_equal. lia.
      * f_equal. lia.
Qed.

Lemma farthest_farL L a mid b Rr :
  let vs := L ++ a :: mid ++ b :: Rr in
  let s := length L in
  let e := (s + 1 + length mid)%nat in
  farthest A vs s e
  = match farL a b mid (zero A) with
    | Some (pre, _, _, D) => ((s + 1 + length pre)%nat, D)
    | None => (s, zero A)
    end.
Proof.
  intros vs s e. rewrite farthest_fold.
  assert (Ha : at_ A vs s = a) by apply at_middle.
  assert (Hb : at_ A vs e = b).
  { unfold vs, e, s.
    replace (L ++ a :: mid ++ b :: Rr) with ((L ++ a :: mid) ++ b :: Rr)
      by (rewrite <- app_assoc; reflexivity).
    replace (length L + 1 + length mid)%nat with (length (L ++ a :: mid))
      by (rewrite length_app; simpl; lia).
    apply at_middle. }
  replace (e - (s + 1))%nat with (length mid) by (unfold e; lia).
  replace (s + 1)%nat with (length (L ++ [a]))
    by (rewrite length_app; simpl; unfold s; lia).
  rewrite (farthest_loop vs s e mid (L ++ [a]) (b :: Rr) s (zero A)).
  - rewrite Ha, Hb. reflexivity.
  - unfold vs. rewrite <- app_assoc. reflexivity.
Qed.

(** The depth given to [_reduce] does not change what it returns. *)
Lemma reduce_more_fuel :
  forall fuel vs s e key key',
    _reduce A fuel tol vs s e key = Some key' ->
    forall n, _reduce A (fuel + n) tol vs s e key = Some key'.
Proof.
  induction fuel as [|fuel IH]; intros vs s e key key' H n; [discriminate|].
  cbn [Nat.add _reduce] in *.
  destruct (e <=? s + 1)%nat; auto.
  destruct (farthest A vs s e) as [iMax maxDist].
  destruct (ltb A (mul A tol tol) maxDist); auto.
  destruct (_reduce A fuel tol vs s iMax (iMax :: key)) as [key1|] eqn:E1;
    [|discriminate].
  rewrite (IH _ _ _ _ _ E1 n). apply IH. exact H.
Qed.

Lemma marked_cons i key j :
  marked (i :: key) j = (j =? i)%nat || marked key j.
Proof. reflexivity. Qed.

Lemma filter_unmarked key a n :
  (forall i, a <= i < a + n -> marked key i = false)%nat ->
  filter (marked key) (seq a n) = [].
Proof.
  intros H. induction n in a, H |- *; simpl; auto.
  rewrite (H a) by lia. apply IHn. intros i Hi. apply H. lia.
Qed.

Lemma filter_marked_ext key key' a n :
  (forall i, a <= i < a + n -> marked key i = marked key' i)%nat ->
  filter (marked key) (seq a n) = filter (marked key') (seq a n).
Proof.
  intros H. apply filter_ext_in. intros i Hi. apply in_seq in Hi. apply H. lia.
Qed.

(** *** The scan [farL] *)

Lemma farL_none a b mid M :
  farL a b mid M = None <->
  (forall q, In q mid -> leb A (distance A q a b) M = true).
Proof.
  induction mid as [|p rest IH]; simpl.
  - split; [intros _ q []|reflexivity].
  - destruct (leb A (distance A p a b) M) eqn:E.
    + destruct (farL a b rest M) as [[[[pre m] post] D]|] eqn:Er.
      * split; [discriminate|]. intros H.
        assert (Hc : Some (pre, m, post, D) = None)
          by (apply (proj2 IH); intros q Hq; apply H; now right).
        discriminate Hc.
      * split; auto. intros _ q [<-|Hq]; auto.
        apply (proj1 IH); auto.
    + split.
      * destruct (farL a b rest (distance A p a b)) as [[[[pre m] post] D]|];
          discriminate.
      * intros H. rewrite (H p (or_introl eq_refl)) in E. discriminate.
Qed.

Lemma farL_intro a b pre m post :
  forall M,
    leb A (distance A m a b) M = false ->
    (forall p, In p pre -> leb A (distance A m a b) (distance A p a b) = false) ->
    (forall q, In q post -> leb A (distance A q a b) (distance A m a b) = true) ->
    farL a b (pre ++ m :: post) M = Some (pre, m, post, distance A m a b).
Proof.
  induction pre as [|p pre IH]; intros M HM Hpre Hpost; simpl.
  - rewrite HM.
    rewrite (proj2 (farL_none a b post (distance A m a b)) Hpost).
    reflexivity.
  - destruct (leb A (distance A p a b) M) eqn:E.
    + rewrite IH; auto. intros q Hq. apply Hpre. now right.
    + rewrite IH; auto.
      * apply Hpre. now left.
      * intros q Hq. apply Hpre. now right.
Qed.

(** *** Facts on [dpL] *)

Lemma dpL_step fuel a b p mid :
  dpL (S fuel) a b (p :: mid)
  = match farL a b (p :: mid) (zero A) with
    | Some (pre, m, post, D) =>
        if ltb A tol2 D then
          match dpL fuel a m pre with
          | Some r1 =>
              match dpL fuel m b post with
              | Some r2 => Some (r1 ++ m :: r2)
              | None => None
              end
          | None => None
          end
        else Some []
    | None => Some []
    end.
Proof. reflexivity. Qed.

Lemma dpL_incl fuel :
  forall a b mid res, dpL fuel a b mid = Some res -> incl res mid.
Proof.
  induction fuel as [|fuel IH]; intros a b mid res H; [discriminate|].
  destruct mid as [|p mid'].
  - inversion H. apply incl_refl.
  - rewrite dpL_step in H.
    destruct (farL a b (p :: mid') (zero A)) as [[[[pre m] post] D]|] eqn:Efar.
    2:{ inversion H. intros x []. }
    destruct (farL_split _ _ _ _ _ _ _ _ Efar) as [Hmid _].
    destruct (ltb A tol2 D).
    2:{ inversion H. intros x []. }
    destruct (dpL fuel a m pre) as [r1|] eqn:E1; [|discriminate].
    destruct (dpL fuel m b post) as [r2|] eqn:E2; [|discriminate].
    inversion H; subst res. rewrite Hmid.
    apply IH in E1. apply IH in E2.
    intros x Hx. apply in_app_or in Hx. apply in_or_app.
    destruct Hx as [Hx|[<-|Hx]]; [left; auto | right; now left | right; right; auto].
Qed.

(** The recursion is no deeper than the number of vertices in between. *)
Lemma dpL_total fuel :
  forall a b mid, (length mid < fuel)%nat -> exists res, dpL fuel a b mid = Some res.
Proof.
  induction fuel as [|fuel IH]; intros a b mid Hlen; [lia|].
  destruct mid as [|p mid'].
  - exists []. reflexivity.
  - rewrite dpL_step.
    destruct (farL a b (p :: mid') (zero A)) as [[[[pre m] post] D]|] eqn:Efar;
      [|eauto].
    destruct (farL_split _ _ _ _ _ _ _ _ Efar) as [Hmid _].
    assert (Hl : length (p :: mid') = (length pre + 1 + length post)%nat).
    { rewrite Hmid, length_app. simpl. lia. }
    destruct (ltb A tol2 D); [|eauto].
    destruct (IH a m pre ltac:(lia)) as (r1 & ->).
    destruct (IH m b post ltac:(lia)) as (r2 & ->).
    eauto.
Qed.

(** *** Consecutive vertices at least the tolerance apart *)

(** Every vertex of the list, from the second on, passes the test of the
    radial filter against the vertex before it. *)
Fixpoint farPairs (l : list Vertex) : Prop :=
  match l with
  | x :: (y :: _) as l' =>
      ltb A (_magDiff2vec A y x) tol2 = false /\ farPairs l'
  | _ => True
  end.

Lemma farPairs_cons x y l :
  farPairs (x :: y :: l)
  <-> ltb A (_magDiff2vec A y x) tol2 = false /\ farPairs (y :: l).
Proof. reflexivity. Qed.

Lemma farPairs_join l1 m l2 :
  farPairs (l1 ++ [m]) -> farPairs (m :: l2) -> farPairs (l1 ++ m :: l2).
Proof.
  induction l1 as [|x l1 IH]; intros H1 H2; auto.
  destruct l1 as [|y l1].
  - cbn [app] in *. apply farPairs_cons in H1. apply farPairs_cons.
    split; [apply H1 | exact H2].
  - cbn [app] in *. apply farPairs_cons in H1. apply farPairs_cons.
    split; [apply H1 | apply IH; [apply H1 | exact H2]].
Qed.

Lemma farPairs_init l z : farPairs (l ++ [z]) -> farPairs l.
Proof.
  induction l as [|x l IH]; intros H; [exact I|].
  destruct l as [|y l]; [exact I|].
  cbn [app] in *. apply farPairs_cons in H. apply farPairs_cons.
  split; [apply H | apply IH; apply H].
Qed.

Lemma farPairs_last2 l x y :
  farPairs (l ++ [x; y]) -> ltb A (_magDiff2vec A y x) tol2 = false.
Proof.
  induction l as [|z l IH]; intros H.
  - apply H.
  - apply IH. destruct l as [|w l]; cbn [app] in *;
      apply farPairs_cons in H; apply H.
Qed.

(** *** The radial filter keeps a list whose vertices are far apart *)

Definition radStep (tv : list Vertex) : list Vertex * nat -> nat -> list Vertex * nat :=
  fun '(_vertices, _j) _i =>
    if ltb A (_magDiff2vec A (at_ A tv _i) (at_ A tv _j)) tol2
    then (_vertices, _j)
    else (_vertices ++ [at_ A tv _i], _i).

Lemma radial_fold tv :
  radial A tol2 tv
  = let '(_vertices, _j) :=
      fold_left (radStep tv) (seq 1 (length tv - 1)) ([at_ A tv 0], O) in
    if (_j <? length tv - 1)%nat
    then _vertices ++ [at_ A tv (length tv - 1)]
    else _vertices.
Proof. reflexivity. Qed.

Lemma radial_scan_nonempty tv l st :
  fst st <> [] -> fst (fold_left (radStep tv) l st) <> [].
Proof.
  revert st. induction l as [|i l IH]; intros [v j] H; simpl; auto.
  apply IH. destruct (ltb A _ tol2); simpl; auto.
  destruct v; simpl; discriminate.
Qed.

Lemma radial_nonempty tv : radial A tol2 tv <> [].
Proof.
  rewrite radial_fold.
  assert (H := radial_scan_nonempty tv (seq 1 (length tv - 1)) ([at_ A tv 0], O)).
  destruct (fold_left _ _ _) as [v j]. simpl in H.
  destruct (j <? length tv - 1)%nat.
  - destruct v; simpl; discriminate.
  - apply H. discriminate.
Qed.

Lemma radial_scan_far c :
  forall sfx,
    c <> [] -> farPairs c ->
    fold_left (radStep (c ++ sfx)) (seq 1 (length c - 1)) ([at_ A (c ++ sfx) 0], O)
    = (c, (length c - 1)%nat).
Proof.
  induction c as [|y c' IH] using rev_ind; intros sfx Hne Hfar; [congruence|].
  destruct c' as [|x0 c0] using rev_ind.
  - reflexivity.
  - clear IHc0. set (c' := c0 ++ [x0]) in *.
    assert (Hlen' : length c' = S (length c0))
      by (unfold c'; rewrite length_app; simpl; lia).
    assert (Hlen : (length (c' ++ [y]) - 1 = S (length c0))%nat)
      by (rewrite length_app; simpl; lia).
    rewrite Hlen, seq_S, fold_left_app.
    assert (Hvs : (c' ++ [y]) ++ sfx = c' ++ [y] ++ sfx)
      by (rewrite <- app_assoc; reflexivity).
    rewrite Hvs.
    replace (length c0) with (length c' - 1)%nat by lia.
    rewrite IH; [|unfold c'; destruct c0; discriminate
                 |apply farPairs_init with (z := y); exact Hfar].
    cbn [fold_left radStep].
    replace (1 + (length c' - 1))%nat with (length c') by lia.
    assert (Hy : at_ A (c' ++ [y] ++ sfx) (length c') = y) by apply at_middle.
    assert (Hx : at_ A (c' ++ [y] ++ sfx) (length c' - 1) = x0).
    { unfold c'. rewrite <- app_assoc. cbn [app].
      replace (length (c0 ++ [x0]) - 1)%nat with (length c0)
        by (rewrite length_app; simpl; lia).
      apply at_middle. }
    rewrite Hy, Hx.
    assert (Hyx : ltb A (_magDiff2vec A y x0) tol2 = false).
    { apply (farPairs_last2 c0). unfold c' in Hfar.
      rewrite <- app_assoc in Hfar. exact Hfar. }
    rewrite Hyx. f_equal. lia.
Qed.

Lemma radial_far c z :
  c <> [] -> farPairs c -> radial A tol2 (c ++ [z]) = c ++ [z].
Proof.
  intros Hne Hfar. rewrite radial_fold.
  assert (Hc : (1 <= length c)%nat) by (destruct c; simpl; [congruence|lia]).
  assert (Hlen : (length (c ++ [z]) - 1 = S (length c - 1))%nat)
    by (rewrite length_app; simpl; lia).
  rewrite Hlen, seq_S, fold_left_app, radial_scan_far by assumption.
  cbn [fold_left radStep].
  replace (1 + (length c - 1))%nat with (length c) by lia.
  replace (S (length c - 1)) with (length c) by lia.
  assert (Hz : at_ A (c ++ [z]) (length c) = z) by apply at_middle.
  rewrite Hz.
  destruct (ltb A _ tol2).
  - replace (length c - 1 <? length c)%nat with true
      by (symmetry; apply Nat.ltb_lt; lia).
    reflexivity.
  - rewrite Nat.ltb_irrefl. reflexivity.
Qed.

Lemma radial_single v : radial A tol2 [v] = [v].
Proof. reflexivity. Qed.

(** *** Putting the two stages together *)

(** The second stage of [simplify] on the filtered list [c]. *)
Definition keep (c : list Vertex) : option (list Vertex) :=
  let _k := length c in
  match _reduce A _k tol c 0 (_k - 1) [(_k - 1)%nat; O] with
  | Some _key => Some (map (at_ A c) (filter (marked _key) (seq 0 _k)))
  | None => None
  end.

Lemma simplifyVertices_keep t v vs :
  orZero A t = tol ->
  simplifyVertices A t (v :: vs) = keep (radial A tol2 (v :: vs)).
Proof.
  intros Ht. unfold simplifyVertices, keep, tol2. rewrite Ht. reflexivity.
Qed.

Lemma keep_single v : keep [v] = Some [v].
Proof. reflexivity. Qed.

End Stages.
End SimplifyFacts.

(** * Further properties of the code *)

(** ** The order of IEEE 754 numbers *)

Module FloatOrder.

Lemma SFcompare_le_trans x y z :
  SFleb x y = true -> SFleb y z = true -> SFleb x z = true.
Proof.
  unfold SFleb, SFcompare.
  destruct x as [[]|[]| |[] mx ex], y as [[]|[]| |[] my ey],
           z as [[]|[]| |[] mz ez];
    try reflexivity; try discriminate; intros H1 H2;
    repeat match goal with
      | H : context [Z.compare ?a ?b] |- _ =>
          destruct (Z.compare_spec a b); try discriminate
      | |- context [Z.compare ?a ?b] =>
          destruct (Z.compare_spec a b)
      end;
    subst; try lia; try reflexivity;
    rewrite ?Pos.compare_cont_spec in *; simpl in *;
    repeat match goal with
      | H : context [Pos.compare ?a ?b] |- _ =>
          destruct (Pos.compare_spec a b); try discriminate
      | |- context [Pos.compare ?a ?b] =>
          destruct (Pos.compare_spec a b)
      end;
    subst; simpl in *; try lia; try reflexivity; try discriminate.
Qed.

Lemma leb_trans (a b c : float) :
  (a <=? b) = true -> (b <=? c) = true -> (a <=? c) = true.
Proof. rewrite !FloatAxioms.leb_spec. apply SFcompare_le_trans. Qed.

(** Two numbers, none of them [NaN], are comparable. *)
Lemma ltb_false_leb (a b : float) :
  is_nan a = false -> is_nan b = false -> (a <? b) = false -> (b <=? a) = true.
Proof.
  unfold is_nan.
  rewrite !FloatAxioms.eqb_spec, FloatAxioms.ltb_spec, FloatAxioms.leb_spec.
  unfold SFeqb, SFltb, SFleb, SFcompare.
  destruct (Prim2SF a) as [[]|[]| |[] ma ea], (Prim2SF b) as [[]|[]| |[] mb eb];
    try reflexivity; try discriminate; intros _ _;
    rewrite (Z.compare_antisym ea eb);
    destruct (Z.compare_spec ea eb); simpl; try reflexivity; try discriminate;
    rewrite ?Pos.compare_cont_spec; simpl;
    rewrite (Pos.compare_antisym ma mb);
    destruct (Pos.compare ma mb); simpl; try reflexivity; discriminate.
Qed.

Lemma ltb_leb (a b : float) : (a <? b) = true -> (a <=? b) = true.
Proof.
  rewrite FloatAxioms.ltb_spec, FloatAxioms.leb_spec. unfold SFltb, SFleb.
  destruct (SFcompare _ _) as [[]|]; auto.
Qed.

Lemma leb_refl (a : float) : is_nan a = false -> (a <=? a) = true.
Proof.
  unfold is_nan. rewrite FloatAxioms.eqb_spec, FloatAxioms.leb_spec.
  unfold SFeqb, SFleb. destruct (SFcompare _ _) as [[]|]; auto; discriminate.
Qed.

(** What is below something is not [NaN]. *)
Lemma leb_not_nan (a b : float) :
  (a <=? b) = true -> is_nan a = false /\ is_nan b = false.
Proof.
  unfold is_nan. rewrite !FloatAxioms.eqb_spec, FloatAxioms.leb_spec.
  unfold SFeqb, SFleb, SFcompare.
  destruct (Prim2SF a) as [[]|[]| |[] ma ea], (Prim2SF b) as [[]|[]| |[] mb eb];
    try discriminate; intros _; split; try reflexivity;
    rewrite ?Z.compare_refl, ?Pos.compare_cont_spec, ?Pos.compare_refl;
    reflexivity.
Qed.

Lemma ltb_leb_false (a b : float) : (a <? b) = true -> (b <=? a) = false.
Proof.
  rewrite FloatAxioms.ltb_spec, FloatAxioms.leb_spec.
  unfold SFltb, SFleb, SFcompare.
  destruct (Prim2SF a) as [[]|[]| |[] ma ea], (Prim2SF b) as [[]|[]| |[] mb eb];
    try reflexivity; try discriminate;
    rewrite (Z.compare_antisym ea eb);
    destruct (Z.compare ea eb); simpl; try reflexivity; try discriminate;
    rewrite ?Pos.compare_cont_spec; simpl;
    rewrite (Pos.compare_antisym ma mb);
    destruct (Pos.compare ma mb); simpl; try reflexivity; discriminate.
Qed.

(** A finite number is not [NaN]. *)
Lemma is_finite_not_nan (a : float) : is_finite a = true -> is_nan a = false.
Proof.
  unfold is_finite. intros H. apply negb_true_iff, orb_false_iff in H. apply H.
Qed.

(** The negation of a number below zero is not below zero. *)
Lemma opp_of_negative (a : float) : (a <? 0) = true -> (- a <? 0) = false.
Proof.
  rewrite !FloatAxioms.ltb_spec, FloatAxioms.opp_spec.
  change (Prim2SF 0) with (S754_zero false).
  destruct (Prim2SF a) as [[]|[]| |[] m e]; try reflexivity; discriminate.
Qed.

(** A square is not below zero. *)
Lemma square_not_negative (t : float) : (t * t <? 0) = false.
Proof.
  rewrite FloatAxioms.ltb_spec, FloatAxioms.mul_spec.
  change (Prim2SF 0) with (S754_zero false).
  unfold SF64mul, SFmul.
  destruct (Prim2SF t) as [[]|[]| |[] m e]; try reflexivity;
    cbn [xorb]; unfold binary_round_aux;
    destruct (shr_fexp _ _ _ _ _) as [mrs' e'];
    destruct (shr_fexp _ _ _ _ _) as [mrs'' e''];
    destruct (shr_m mrs''); try reflexivity;
    destruct (Z.leb _ _); reflexivity.
Qed.

End FloatOrder.

(** ** Further facts on IEEE 754 numbers *)

Module FloatArith.

(** A finite number is a zero or has a mantissa and an exponent. *)
Lemma finite_cases (a : float) :
  is_finite a = true ->
  (exists s, Prim2SF a = S754_zero s)
  \/ (exists s m e, Prim2SF a = S754_finite s m e).
Proof.
  unfold is_finite, is_nan, is_infinity.
  rewrite !FloatAxioms.eqb_spec, FloatAxioms.abs_spec.
  change (Prim2SF infinity) with (S754_infinity false).
  destruct (Prim2SF a) as [s|[]| |s m e]; try discriminate; eauto.
Qed.

(** [x - x] is [+0] for a finite [x]. *)
Lemma sub_diag (a : float) : is_finite a = true -> a - a = 0.
Proof.
  intros H. apply Prim2SF_inj. rewrite FloatAxioms.sub_spec.
  change (Prim2SF 0) with (S754_zero false).
  destruct (finite_cases a H) as [[s ->]|(s & m & e & ->)].
  - destruct s; reflexivity.
  - unfold SF64sub, SFsub. rewrite Z.sub_diag. reflexivity.
Qed.

Lemma SFabs_binary_round prec emax s m e :
  SFabs (binary_round prec emax s m e)
  = SFabs (binary_round prec emax (negb s) m e).
Proof.
  unfold binary_round. destruct (shl_align _ _ _) as [mz ez].
  unfold binary_round_aux.
  destruct (shr_fexp _ _ _ _ _) as [mrs' e'].
  destruct (shr_fexp _ _ _ _ _) as [mrs'' e''].
  destruct (shr_m mrs''); try reflexivity.
  destruct (Z.leb _ _); reflexivity.
Qed.

Lemma SFabs_binary_normalize prec emax z e :
  SFabs (binary_normalize prec emax z e false)
  = SFabs (binary_normalize prec emax (- z) e false).
Proof.
  destruct z; simpl; try reflexivity.
  - apply (SFabs_binary_round prec emax false).
  - apply (SFabs_binary_round prec emax true).
Qed.

(** The distance of two numbers does not depend on their order. *)
Lemma abs_sub_comm (a b : float) : abs (a - b) = abs (b - a).
Proof.
  apply Prim2SF_inj. rewrite !FloatAxioms.abs_spec, !FloatAxioms.sub_spec.
  unfold SF64sub, SFsub.
  destruct (Prim2SF a) as [[]|[]| |sa ma ea], (Prim2SF b) as [[]|[]| |sb mb eb];
    try reflexivity.
  rewrite (Z.min_comm eb ea).
  rewrite SFabs_binary_normalize. f_equal. f_equal. lia.
Qed.

Lemma eqb_leb (a b : float) : (a =? b) = true -> (a <=? b) = true.
Proof.
  rewrite FloatAxioms.eqb_spec, FloatAxioms.leb_spec. unfold SFeqb, SFleb.
  destruct (SFcompare _ _) as [[]|]; auto.
Qed.

Lemma eqb_refl (a : float) : is_nan a = false -> (a =? a) = true.
Proof.
  unfold is_nan. intros H. apply negb_false_iff in H. exact H.
Qed.

Lemma eqb_sym (a b : float) : (a =? b) = (b =? a).
Proof.
  rewrite !FloatAxioms.eqb_spec. unfold SFeqb, SFcompare.
  destruct (Prim2SF a) as [[]|[]| |[] ma ea], (Prim2SF b) as [[]|[]| |[] mb eb];
    try reflexivity;
    rewrite (Z.compare_antisym ea eb);
    destruct (Z.compare ea eb); simpl; try reflexivity;
    rewrite ?Pos.compare_cont_spec; simpl;
    rewrite (Pos.compare_antisym ma mb);
    destruct (Pos.compare ma mb); simpl; reflexivity.
Qed.

(** Nothing finite is above [Infinity] or below [-Infinity]. *)
Lemma infinity_not_leb_finite (a : float) :
  is_finite a = true -> (infinity <=? a) = false.
Proof.
  intros H. rewrite FloatAxioms.leb_spec.
  change (Prim2SF infinity) with (S754_infinity false).
  destruct (finite_cases a H) as [[s ->]|(s & m & e & ->)]; reflexivity.
Qed.

Lemma finite_not_leb_neg_infinity (a : float) :
  is_finite a = true -> (a <=? neg_infinity) = false.
Proof.
  intros H. rewrite FloatAxioms.leb_spec.
  change (Prim2SF neg_infinity) with (S754_infinity true).
  destruct (finite_cases a H) as [[s ->]|(s & m & e & ->)];
    destruct s; reflexivity.
Qed.

End FloatArith.

(** ** Numbers that are not below zero *)

Module FloatSign.

(** A square root is not below zero. *)
Lemma sqrt_not_negative (a : float) : (PrimFloat.sqrt a <? 0) = false.
Proof.
  rewrite FloatAxioms.ltb_spec, FloatAxioms.sqrt_spec.
  change (Prim2SF 0) with (S754_zero false).
  unfold SF64sqrt, SFsqrt.
  destruct (Prim2SF a) as [[]|[]| |[] m e]; try reflexivity.
  destruct (SFsqrt_core_binary _ _ _ _) as [[mz ez] lz].
  unfold binary_round_aux.
  destruct (shr_fexp _ _ _ _ _) as [mrs' e'].
  destruct (shr_fexp _ _ _ _ _) as [mrs'' e''].
  destruct (shr_m mrs''); try reflexivity.
  destruct (Z.leb _ _); reflexivity.
Qed.

Lemma binary_round_positive prec emax m e :
  SFltb (binary_round prec emax false m e) (S754_zero false) = false.
Proof.
  unfold binary_round. destruct (shl_align _ _ _) as [mz ez].
  unfold binary_round_aux.
  destruct (shr_fexp _ _ _ _ _) as [mrs' e'].
  destruct (shr_fexp _ _ _ _ _) as [mrs'' e''].
  destruct (shr_m mrs''); try reflexivity.
  destruct (Z.leb _ _); reflexivity.
Qed.

(** The sum of two numbers that are not below zero is not below zero. *)
Lemma add_not_negative (a b : float) :
  (a <? 0) = false -> (b <? 0) = false -> (a + b <? 0) = false.
Proof.
  rewrite !FloatAxioms.ltb_spec, FloatAxioms.add_spec.
  change (Prim2SF 0) with (S754_zero false).
  unfold SF64add, SFadd.
  destruct (Prim2SF a) as [[]|[]| |[] ma ea], (Prim2SF b) as [[]|[]| |[] mb eb];
    try reflexivity; try discriminate; intros _ _.
  cbn [cond_Zopp]. cbn [Z.add binary_normalize].
  apply binary_round_positive.
Qed.

End FloatSign.

(** ** NaN in arithmetic and comparisons *)

Module FloatNaN.

Lemma sub_nan_r (a : float) : a - nan = nan.
Proof.
  apply Prim2SF_inj. rewrite FloatAxioms.sub_spec.
  change (Prim2SF nan) with S754_nan.
  destruct (Prim2SF a) as [[]|[]| |[] m e]; reflexivity.
Qed.

Lemma mul_nan_r (a : float) : a * nan = nan.
Proof.
  apply Prim2SF_inj. rewrite FloatAxioms.mul_spec.
  change (Prim2SF nan) with S754_nan.
  destruct (Prim2SF a) as [[]|[]| |[] m e]; reflexivity.
Qed.

Lemma eqb_nan_l (a : float) : (nan =? a) = false.
Proof.
  rewrite FloatAxioms.eqb_spec. change (Prim2SF nan) with S754_nan.
  reflexivity.
Qed.

End FloatNaN.

(** ** Structural operations: positions, round trips, bounds *)

Module Structural.

Lemma toUint32_small (i : nat) :
  (Z.of_nat i < 4294967296)%Z -> toUint32 i = i.
Proof.
  intros H. unfold toUint32. rewrite Z.mod_small by lia. apply Nat2Z.id.
Qed.

Lemma combine_app {U T : Type} (a a' : list U) (b b' : list T) :
  length a = length b ->
  combine (a ++ a') (b ++ b') = combine a b ++ combine a' b'.
Proof.
  revert b. induction a as [|x a IH]; intros [|y b] H; simpl in *;
    try discriminate; auto.
  f_equal. apply IH. congruence.
Qed.

Lemma combine_firstn {U T : Type} (a : list U) (b : list T) n :
  combine (firstn n a) (firstn n b) = firstn n (combine a b).
Proof.
  revert a b. induction n as [|n IH]; intros [|x a] [|y b]; simpl; auto.
  f_equal. apply IH.
Qed.

Lemma combine_skipn {U T : Type} (a : list U) (b : list T) n :
  combine (skipn n a) (skipn n b) = skipn n (combine a b).
Proof.
  revert a b. induction n as [|n IH]; intros [|x a] [|y b]; simpl; auto.
  destruct (skipn n a); reflexivity.
Qed.

Lemma combine_rev {U T : Type} (a : list U) (b : list T) :
  length a = length b -> combine (rev a) (rev b) = rev (combine a b).
Proof.
  revert b. induction a as [|x a IH]; intros [|y b] H; simpl in *;
    try discriminate; auto.
  rewrite combine_app by (rewrite !length_rev; congruence).
  rewrite IH by congruence. reflexivity.
Qed.

Lemma Array_last_app {T : Type} (a : list T) (x : T) :
  Array_last (a ++ [x]) = Some x.
Proof.
  unfold Array_last. rewrite length_app. simpl.
  replace (length a + 1 - 1)%nat with (length a) by lia.
  rewrite nth_error_app2 by lia. rewrite Nat.sub_diag. reflexivity.
Qed.

Lemma toSet_combine (X Y : list float) :
  length X = length Y -> _toSet X Y = combine X Y.
Proof.
  intros Hwf. unfold _toSet, indexed.
  assert (G : forall k (pre : list float) (a b : list float),
             length a = length b -> length pre = k ->
             map (fun '(xi, i) => (xi, get (pre ++ b) i))
                 (combine a (seq k (length a)))
             = combine a b).
  { intros k pre a. revert k pre.
    induction a as [|u a IH]; intros k pre [|v b] Hl Hk; simpl in *;
      try discriminate; auto.
    f_equal.
    - unfold get. rewrite app_nth2 by lia.
      replace (k - length pre)%nat with O by lia. reflexivity.
    - replace (pre ++ v :: b) with ((pre ++ [v]) ++ b)
        by (rewrite <- app_assoc; reflexivity).
      apply IH; [congruence | rewrite length_app; simpl; lia]. }
  apply (G O [] X Y Hwf eq_refl).
Qed.

Lemma map_fst_combine (X Y : list float) :
  length X = length Y -> map fst (combine X Y) = X.
Proof.
  revert Y. induction X as [|u X IH]; intros [|v Y] Hwf; simpl in *;
    try discriminate; auto.
  f_equal. apply IH. congruence.
Qed.

Lemma map_snd_combine (X Y : list float) :
  length X = length Y -> map snd (combine X Y) = Y.
Proof.
  revert Y. induction X as [|u X IH]; intros [|v Y] Hwf; simpl in *;
    try discriminate; auto.
  f_equal. apply IH. congruence.
Qed.

(** The constructor for points accepts the vertices of a polygon with
    finite coordinates, and rebuilds its two arrays. *)
Lemma Polygon_point_combine (X Y : list float) :
  length X = length Y -> _finite X = true -> _finite Y = true ->
  Polygon_point (combine X Y) = Some (mkPolygon X Y 1e-10).
Proof.
  intros Hwf HX HY. unfold Polygon_point.
  assert (Hall : forallb (fun pt : float * float =>
                            is_finite (fst pt) && is_finite (snd pt))
                         (combine X Y) = true).
  { unfold _finite in *. revert Y Hwf HX HY.
    induction X as [|u X IH]; intros [|v Y] Hwf HX HY; simpl in *;
      try discriminate; auto.
    apply andb_true_iff in HX, HY. destruct HX as [-> HX], HY as [-> HY].
    simpl. apply IH; congruence. }
  rewrite Hall, map_fst_combine, map_snd_combine by exact Hwf. reflexivity.
Qed.

End Structural.

(** X1.  The vertices that [slice(s, s + c)] copies are those that
    [splice(s, c)] deletes: inserting the copy at [s] into the spliced
    polygon gives the polygon back. *)
Theorem slice_splice_insertPolygon_round_trip :
  forall (this q : Polygon) (s c : nat),
    wellFormed this ->
    (Z.of_nat s + Z.of_nat c < 4294967296)%Z ->
    slice this s (s + c) = Some q ->
    insertPolygon (splice this s c) s q = this.
Proof.
  intros [X Y acc] q s c Hwf Hb Hq. unfold wellFormed in Hwf; simpl in Hwf.
  unfold slice, Polygon_array in Hq.
  rewrite !Structural.toUint32_small in Hq by lia.
  destruct (_finite _ && _finite _); [|discriminate].
  inversion Hq; subst q; clear Hq.
  unfold insertPolygon, splice, Array_splice, Array_slice; simpl.
  rewrite !Structural.toUint32_small by lia.
  replace (s + c - s)%nat with c by lia.
  assert (Hre : forall (l : list float),
             firstn s l ++ firstn c (skipn s l) ++ skipn (s + c) l = l).
  { intros l. rewrite (Nat.add_comm s c), <- skipn_skipn.
    rewrite firstn_skipn. apply firstn_skipn. }
  destruct (Nat.ltb_spec s (length (firstn s X ++ skipn (s + c) X))) as [Hlt|Hge].
  - rewrite length_app, length_firstn, length_skipn in Hlt.
    assert (Hs : (s <= length X)%nat) by lia.
    assert (HfX : forall l : list float, (s <= length l)%nat ->
              firstn s (firstn s l ++ skipn (s + c) l) = firstn s l
              /\ skipn s (firstn s l ++ skipn (s + c) l) = skipn (s + c) l).
    { intros l Hl. split.
      - rewrite firstn_app, length_firstn.
        replace (s - Nat.min s (length l))%nat with O by lia.
        rewrite firstn_firstn. simpl. rewrite app_nil_r. f_equal. lia.
      - rewrite skipn_app, length_firstn.
        replace (s - Nat.min s (length l))%nat with O by lia.
        rewrite skipn_firstn_comm. replace (s - s)%nat with O by lia.
        reflexivity. }
    destruct (HfX X Hs) as [-> ->].
    destruct (HfX Y ltac:(lia)) as [-> ->].
    rewrite !Hre. reflexivity.
  - rewrite length_app, length_firstn, length_skipn in Hge.
    assert (Hend : forall l : list float, length l = length X ->
              (firstn s l ++ skipn (s + c) l) ++ firstn c (skipn s l) = l).
    { intros l Hl.
      rewrite (skipn_all2 (n := (s + c)%nat) l) by lia. rewrite app_nil_r.
      rewrite (@firstn_all2 _ c (skipn s l))
        by (rewrite length_skipn; lia).
      apply firstn_skipn. }
    rewrite (Hend X eq_refl), (Hend Y (eq_sym Hwf)). reflexivity.
Qed.

(** Vertices 1 and 2 of [square10], cut out and put back. *)
Lemma slice_splice_insertPolygon_round_trip_witness :
  insertPolygon (splice square10 1 2) 1 (mkPolygon [10; 10] [0; 10] 1e-10)
  = square10.
Proof.
  apply (slice_splice_insertPolygon_round_trip
           square10 (mkPolygon [10; 10] [0; 10] 1e-10) 1 2).
  - reflexivity.
  - reflexivity.
  - vm_compute. reflexivity.
Defined.

(** X2.  [pop] after [push], and [shift] after [unshift], return the vertex and
    leave the polygon as it was. *)
Theorem push_pop_and_unshift_shift_round_trip :
  forall (this q1 q2 : Polygon) (x y : float),
    push this x y = Some q1 -> unshift this x y = Some q2 ->
    pop q1 = ((Some x, Some y), this) /\ shift q2 = ((Some x, Some y), this).
Proof.
  intros [X Y acc] q1 q2 x y. unfold push, unshift, pop, shift; simpl.
  destruct (is_finite x && is_finite y); [|discriminate].
  intros H1 H2. inversion H1; inversion H2; subst; simpl.
  rewrite !Structural.Array_last_app, !removelast_last. split; reflexivity.
Qed.

(** The vertex (5, 5) added to [square10] at either end and taken off
    again. *)
Lemma push_pop_and_unshift_shift_round_trip_witness :
  pop (mkPolygon [0; 10; 10; 0; 5] [0; 0; 10; 10; 5] 1e-10)
  = ((Some 5, Some 5), square10)
  /\ shift (mkPolygon [5; 0; 10; 10; 0] [5; 0; 0; 10; 10] 1e-10)
     = ((Some 5, Some 5), square10).
Proof.
  apply (push_pop_and_unshift_shift_round_trip square10 _ _ 5 5).
  - vm_compute. reflexivity.
  - vm_compute. reflexivity.
Defined.

(** X3.  [change] accepts the index one past the last vertex, where the
    assignment lengthens both arrays: it then does what [push] does. *)
Theorem change_at_index_size_is_push :
  forall (this : Polygon) (x y : float),
    wellFormed this ->
    (Z.of_nat (size this) < 4294967296)%Z ->
    change this (size this) x y = option_map Dense (push this x y).
Proof.
  intros [X Y acc] x y Hwf Hb. unfold wellFormed, size in *; simpl in *.
  unfold change, push; simpl.
  rewrite Structural.toUint32_small by exact Hb.
  destruct (is_finite x && is_finite y); [|reflexivity].
  rewrite <- Hwf, Nat.leb_refl. unfold Array_assign.
  rewrite <- Hwf, Nat.ltb_irrefl. reflexivity.
Qed.

(** [square10] has four vertices: [change] at index 4 adds a fifth. *)
Lemma change_at_index_size_is_push_witness :
  change square10 4 5 5 = option_map Dense (push square10 5 5).
Proof.
  apply (change_at_index_size_is_push square10 5 5).
  - reflexivity.
  - reflexivity.
Defined.

(** X4.  [reverse] reverses the sequence of vertices. *)
Theorem reverse_reverses_the_vertices :
  forall this : Polygon,
    wellFormed this ->
    vertexPairs (reverse this) = rev (vertexPairs this).
Proof.
  intros [X Y acc] Hwf. unfold vertexPairs, reverse; simpl.
  apply Structural.combine_rev. exact Hwf.
Qed.

Lemma reverse_reverses_the_vertices_witness :
  vertexPairs (reverse square10) = rev (vertexPairs square10).
Proof.
  apply (reverse_reverses_the_vertices square10). reflexivity.
Defined.

(** X5.  [insertVertex] puts the new vertex before the vertex that had the index,
    or at the end when there is none. *)
Theorem insertVertex_position :
  forall (this q : Polygon) (i : nat) (x y : float),
    wellFormed this ->
    (Z.of_nat i < 4294967296)%Z ->
    insertVertex this i x y = Some q ->
    vertexPairs q
    = firstn i (vertexPairs this) ++ [(x, y)] ++ skipn i (vertexPairs this).
Proof.
  intros [X Y acc] q i x y Hwf Hb. unfold wellFormed in Hwf; simpl in Hwf.
  unfold insertVertex, vertexPairs; simpl.
  rewrite Structural.toUint32_small by exact Hb.
  destruct (is_finite x && is_finite y); [|discriminate].
  destruct (Nat.ltb_spec i (length X)) as [Hlt|Hge]; intros H; inversion H;
    subst; clear H; simpl.
  - rewrite Structural.combine_app by (rewrite !length_firstn; lia).
    simpl. rewrite Structural.combine_firstn, Structural.combine_skipn.
    reflexivity.
  - rewrite Structural.combine_app by exact Hwf. simpl.
    rewrite firstn_all2 by (rewrite length_combine; lia).
    rewrite skipn_all2 by (rewrite length_combine; lia).
    reflexivity.
Qed.

(** The vertex (5, 5) inserted into [square10] at index 2. *)
Lemma insertVertex_position_witness :
  vertexPairs (mkPolygon [0; 10; 5; 10; 0] [0; 0; 5; 10; 10] 1e-10)
  = firstn 2 (vertexPairs square10) ++ [(5, 5)]
    ++ skipn 2 (vertexPairs square10).
Proof.
  apply (insertVertex_position square10 _ 2 5 5).
  - reflexivity.
  - reflexivity.
  - vm_compute. reflexivity.
Defined.

(** X6.  [insertPolygon] puts the vertices of the other polygon, in their order,
    before the vertex that had the index, or at the end when there is
    none. *)
Theorem insertPolygon_position :
  forall (this q : Polygon) (i : nat),
    wellFormed this -> wellFormed q ->
    (Z.of_nat i < 4294967296)%Z ->
    vertexPairs (insertPolygon this i q)
    = firstn i (vertexPairs this) ++ vertexPairs q ++ skipn i (vertexPairs this).
Proof.
  intros [X Y acc] [X' Y' acc'] i Hwf Hwf' Hb.
  unfold wellFormed in *; simpl in *.
  unfold insertPolygon, vertexPairs; simpl.
  rewrite Structural.toUint32_small by exact Hb.
  destruct (Nat.ltb_spec i (length X)) as [Hlt|Hge]; simpl.
  - rewrite Structural.combine_app by (rewrite !length_firstn; lia).
    rewrite Structural.combine_app by exact Hwf'.
    rewrite Structural.combine_firstn, Structural.combine_skipn.
    reflexivity.
  - rewrite Structural.combine_app by exact Hwf.
    rewrite firstn_all2 by (rewrite length_combine; lia).
    rewrite skipn_all2 by (rewrite length_combine; lia).
    rewrite app_nil_r. reflexivity.
Qed.

(** [triangle] inserted into [square10] at index 1. *)
Lemma insertPolygon_position_witness :
  vertexPairs (insertPolygon square10 1 triangle)
  = firstn 1 (vertexPairs square10) ++ vertexPairs triangle
    ++ skipn 1 (vertexPairs square10).
Proof.
  apply (insertPolygon_position square10 triangle 1).
  - reflexivity.
  - reflexivity.
  - reflexivity.
Defined.


(** *** Removing flagged vertices from the last index down *)

Module RemoveFlagged.

(** The elements of [l], whose first element has index [k], without those
    at an index below [n] whose flag is set. *)
Fixpoint below {T : Type} (k n : nat) (flag : list bool) (l : list T) : list T :=
  match l with
  | [] => []
  | x :: r =>
      if (k <? n)%nat && nth k flag false then below (S k) n flag r
      else x :: below (S k) n flag r
  end.

Lemma below_none {T : Type} (k n : nat) flag (l : list T) :
  (n <= k)%nat -> below k n flag l = l.
Proof.
  revert k. induction l as [|x l IH]; intros k H; [reflexivity|].
  cbn [below]. destruct (Nat.ltb_spec k n); [lia|]. cbn [andb].
  f_equal. apply IH. lia.
Qed.

Lemma below_flagged {T : Type} (k n : nat) flag (l : list T) :
  (k <= n)%nat -> nth n flag false = true ->
  below k (S n) flag l = below k n flag (splice1 (n - k) l).
Proof.
  revert k. induction l as [|x l IH]; intros k Hk Hf;
    [destruct (n - k)%nat; reflexivity|].
  destruct (Nat.eq_dec k n) as [->|Hne].
  - rewrite Nat.sub_diag. cbn [below splice1]. rewrite Hf.
    destruct (Nat.ltb_spec n (S n)); [|lia]. cbn [andb].
    rewrite !below_none by lia. reflexivity.
  - destruct (n - k)%nat as [|j] eqn:E; [lia|].
    cbn [below splice1]. replace j with (n - S k)%nat by lia.
    destruct (Nat.ltb_spec k (S n)), (Nat.ltb_spec k n); try lia. cbn [andb].
    rewrite IH by (auto; lia). reflexivity.
Qed.

Lemma below_unflagged {T : Type} (k n : nat) flag (l : list T) :
  nth n flag false = false -> below k (S n) flag l = below k n flag l.
Proof.
  revert k. induction l as [|x l IH]; intros k Hf; [reflexivity|].
  cbn [below]. rewrite IH by exact Hf.
  destruct (Nat.eq_dec k n) as [->|Hne].
  - rewrite Hf, !andb_false_r. reflexivity.
  - destruct (Nat.ltb_spec k (S n)), (Nat.ltb_spec k n); try lia; reflexivity.
Qed.

Lemma removeFlagged_below (flag : list bool) (this : Polygon) :
  removeFlagged flag this
  = mkPolygon (below 0 (size this) flag (_X this))
              (below 0 (size this) flag (_Y this)) (accuracy this).
Proof.
  unfold removeFlagged. generalize (size this) as n. intros n. revert this.
  induction n as [|n IH]; intros [X Y acc]; cbn [_X _Y accuracy].
  - rewrite !below_none by lia. reflexivity.
  - rewrite seq_S, rev_app_distr. cbn [rev app fold_left Nat.add].
    destruct (nth n flag false) eqn:Hf.
    + rewrite IH. cbn [_X _Y accuracy].
      rewrite !(below_flagged 0 n) by (auto; lia).
      rewrite Nat.sub_0_r. reflexivity.
    + rewrite IH. cbn [_X _Y accuracy].
      rewrite !below_unflagged by exact Hf. reflexivity.
Qed.

Lemma combine_below {U T : Type} (k n : nat) flag (a : list U) (b : list T) :
  combine (below k n flag a) (below k n flag b) = below k n flag (combine a b).
Proof.
  revert k b. induction a as [|x a IH]; intros k [|y b]; cbn [below combine];
    auto.
  - destruct ((k <? n)%nat && nth k flag false); cbn [combine]; auto.
    destruct (below (S k) n flag a); reflexivity.
  - destruct ((k <? n)%nat && nth k flag false); cbn [combine]; rewrite IH;
      reflexivity.
Qed.

Lemma below_filter {T : Type} (g : T -> bool) (k n : nat) flag (l : list T) :
  (k + length l <= n)%nat ->
  (forall i v, nth_error l i = Some v -> nth (k + i) flag false = g v) ->
  below k n flag l = filter (fun v => negb (g v)) l.
Proof.
  revert k. induction l as [|x l IH]; intros k Hn Hg; [reflexivity|].
  cbn [below filter length] in *.
  destruct (Nat.ltb_spec k n); [|lia].
  generalize (Hg O x eq_refl). rewrite Nat.add_0_r. intros ->. cbn [andb].
  rewrite IH.
  - destruct (g x); reflexivity.
  - lia.
  - intros i v Hv. rewrite <- (Hg (S i) v Hv). f_equal. lia.
Qed.

Lemma nth_error_combine {U T : Type} (a : list U) (b : list T) i u v :
  nth_error (combine a b) i = Some (u, v) ->
  nth_error a i = Some u /\ nth_error b i = Some v.
Proof.
  revert a b. induction i as [|i IH]; intros [|x a] [|y b] H; simpl in *;
    try discriminate.
  - inversion H; auto.
  - apply IH. exact H.
Qed.

Lemma nth_map_seq {T : Type} (f : nat -> T) (n i : nat) (d : T) :
  (i < n)%nat -> nth i (map f (seq 0 n)) d = f i.
Proof.
  intros H. rewrite (nth_indep _ d (f O)) by (rewrite length_map, length_seq; lia).
  rewrite map_nth, seq_nth by lia. reflexivity.
Qed.

Lemma nth_map_some {U T : Type} (f : U -> T) (l : list U) i u d :
  nth_error l i = Some u -> nth i (map f l) d = f u.
Proof.
  revert l. induction i as [|i IH]; intros [|x l] H; simpl in *;
    try discriminate.
  - inversion H; reflexivity.
  - apply IH. exact H.
Qed.

Lemma nth_error_length {T : Type} (l : list T) i u :
  nth_error l i = Some u -> (i < length l)%nat.
Proof.
  intros H. apply nth_error_Some. congruence.
Qed.

Lemma nth_indexed {U T : Type} (f : U * nat -> T) (l : list U) i u d :
  nth_error l i = Some u -> nth i (map f (indexed l)) d = f (u, i).
Proof.
  unfold indexed.
  assert (G : forall k (l : list U) i u,
             nth_error l i = Some u ->
             nth i (map f (combine l (seq k (length l)))) d = f (u, (k + i)%nat)).
  { intros k l0. revert k.
    induction l0 as [|x l0 IH]; intros k [|j] v H; simpl in *;
      try discriminate.
    - inversion H. rewrite Nat.add_0_r. reflexivity.
    - rewrite (IH (S k) j v H). do 2 f_equal. lia. }
  intros H. apply (G O l i u H).
Qed.

End RemoveFlagged.

(** X7.  [sliceBox] removes exactly the vertices inside the closed box, and keeps
    the others in their order. *)
Theorem sliceBox_keeps_the_vertices_outside_the_box :
  forall (this : Polygon) (xb yb xu yu : float),
    vertexPairs (SliceBox.sliceBox this xb yb xu yu)
    = filter (fun '(x, y) =>
                negb ((geb x (orZero xb) && (x <=? orZero xu))
                      && (geb y (orZero yb) && (y <=? orZero yu))))
             (vertexPairs this).
Proof.
  intros [X Y acc] xb yb xu yu. unfold SliceBox.sliceBox.
  rewrite RemoveFlagged.removeFlagged_below. unfold vertexPairs, size; simpl.
  rewrite RemoveFlagged.combine_below.
  rewrite (RemoveFlagged.below_filter
             (fun '(x, y) => (geb x (orZero xb) && (x <=? orZero xu))
                             && (geb y (orZero yb) && (y <=? orZero yu)))).
  - apply filter_ext. intros [x y]. reflexivity.
  - rewrite length_combine. lia.
  - intros i [x y] Hv. simpl.
    destruct (RemoveFlagged.nth_error_combine _ _ _ _ _ Hv) as [Hx Hy].
    rewrite RemoveFlagged.nth_map_seq
      by (eapply RemoveFlagged.nth_error_length; exact Hx).
    unfold SliceBox._in.
    rewrite (RemoveFlagged.nth_map_some _ _ _ _ _ Hx).
    rewrite (RemoveFlagged.nth_map_some _ _ _ _ _ Hy). reflexivity.
Qed.

(** X8.  [sliceCircle] removes exactly the vertices whose squared distance from
    the centre is at most [(radius || 1) * radius], and keeps the others in
    their order. *)
Theorem sliceCircle_keeps_the_vertices_outside_the_circle :
  forall (this : Polygon) (cx cy radius : float),
    vertexPairs (sliceCircle this cx cy radius)
    = filter (fun '(x, y) =>
                negb ((x - orZero cx) * (x - orZero cx)
                      + (y - orZero cy) * (y - orZero cy)
                      <=? orOne radius * radius))
             (vertexPairs this).
Proof.
  intros [X Y acc] cx cy radius. unfold sliceCircle.
  rewrite RemoveFlagged.removeFlagged_below. unfold vertexPairs, size; simpl.
  rewrite RemoveFlagged.combine_below.
  rewrite (RemoveFlagged.below_filter
             (fun '(x, y) => (x - orZero cx) * (x - orZero cx)
                             + (y - orZero cy) * (y - orZero cy)
                             <=? orOne radius * radius)).
  - apply filter_ext. intros [x y]. reflexivity.
  - rewrite length_combine. lia.
  - intros i [x y] Hv. simpl.
    destruct (RemoveFlagged.nth_error_combine _ _ _ _ _ Hv) as [Hx Hy].
    rewrite (RemoveFlagged.nth_indexed _ _ i (x - orZero cx)).
    + unfold get. rewrite (RemoveFlagged.nth_map_some _ _ _ _ _ Hy).
      reflexivity.
    + rewrite nth_error_map, Hx. reflexivity.
Qed.

(** *** The trimming loop of union *)

(** What a left-to-right scan keeps when it drops an element that [f]
    accepts and then steps over the element behind it. *)
Fixpoint skipScan {T : Type} (f : T -> bool) (l : list T) : list T :=
  match l with
  | [] => []
  | v :: r =>
      if f v then
        match r with
        | [] => []
        | w :: r' => w :: skipScan f r'
        end
      else v :: skipScan f r
  end.

Module RemoveInside.

Lemma ltb_nan_l (a : float) : (nan <? a) = false.
Proof.
  rewrite FloatAxioms.ltb_spec. change (Prim2SF nan) with S754_nan.
  reflexivity.
Qed.

(** No point with an undefined ordinate is inside a polygon. *)
Lemma inside_nan (p : Polygon) (x : float) : inside p x nan = false.
Proof.
  unfold inside.
  generalize (length (_X p) - 1)%nat as j. generalize (seq 0 (length (_X p))).
  intros l. 
  assert (G : forall st, fst st = false ->
            fst (fold_left
                   (fun '(xo_inside, _j) _i =>
                      (if negb (Bool.eqb (gtb (get (_Y p) _i) nan)
                                         (gtb (get (_Y p) _j) nan))
                          && (x <? get (_X p) _i
                                   + (get (_X p) _j - get (_X p) _i)
                                     * (nan - get (_Y p) _i)
                                     / (get (_Y p) _j - get (_Y p) _i))
                       then negb xo_inside else xo_inside, _i)) l st) = false).
  { induction l as [|i l IH]; intros [b j] Hb; simpl in *; auto.
    apply IH. unfold gtb. rewrite !ltb_nan_l. simpl. exact Hb. }
  intros j. apply G. reflexivity.
Qed.

Definition ofPairs (l : list (float * float)) (acc : float) : Polygon :=
  mkPolygon (map fst l) (map snd l) acc.

Lemma ofPairs_vertexPairs (p : Polygon) :
  wellFormed p -> p = ofPairs (vertexPairs p) (accuracy p).
Proof.
  destruct p as [X Y acc]. unfold wellFormed, ofPairs, vertexPairs; simpl.
  intros H. f_equal.
  - revert Y H. induction X as [|u X IH]; intros [|v Y] H; simpl in *;
      try discriminate; auto.
    f_equal. apply IH. congruence.
  - revert Y H. induction X as [|u X IH]; intros [|v Y] H; simpl in *;
      try discriminate; auto.
    f_equal. apply IH. congruence.
Qed.

Lemma vertexPairs_ofPairs l acc : vertexPairs (ofPairs l acc) = l.
Proof.
  unfold vertexPairs, ofPairs; simpl.
  induction l as [|[u v] l IH]; simpl; congruence.
Qed.

Lemma nth_behind_map {U T : Type} (f : U -> T) (pre : list U) v r d :
  nth (length pre) (map f pre ++ v :: r) d = v.
Proof.
  induction pre as [|u pre IH]; simpl; auto.
Qed.

Lemma splice1_behind_map {U T : Type} (f : U -> T) (pre : list U) v r :
  splice1 (length pre) (map f pre ++ v :: r) = map f pre ++ r.
Proof.
  induction pre as [|u pre IH]; simpl; congruence.
Qed.

Section Loop.

Variable _ipolygon : Polygon.

Definition step (_this : Polygon) (_i : nat) : Polygon :=
  if inside _ipolygon (get (_X _this) _i) (get (_Y _this) _i)
  then remove _this (Index _i) else _this.

Lemma past_the_end (m i : nat) (p : Polygon) :
  (length (_Y p) <= i)%nat -> fold_left step (seq i m) p = p.
Proof.
  revert i. induction m as [|m IH]; intros i H; simpl; auto.
  unfold step at 2. unfold get at 2. rewrite (nth_overflow (_Y p)) by exact H.
  rewrite inside_nan. apply IH. lia.
Qed.

Lemma scan (m : nat) :
  forall (pre rest : list (float * float)) acc,
    (length rest <= m)%nat ->
    (Z.of_nat (length pre + m) < 4294967296)%Z ->
    fold_left step (seq (length pre) m) (ofPairs (pre ++ rest) acc)
    = ofPairs (pre ++ skipScan (fun v => inside _ipolygon (fst v) (snd v)) rest)
              acc.
Proof.
  induction m as [|m IH]; intros pre rest acc Hm Hb.
  - destruct rest; [reflexivity | simpl in Hm; lia].
  - destruct rest as [|[vx vy] rest].
    + apply past_the_end. unfold ofPairs; simpl.
      rewrite length_map, length_app. simpl. lia.
    + cbn [seq fold_left skipScan fst snd].
      assert (Hstep : step (ofPairs (pre ++ (vx, vy) :: rest) acc) (length pre)
                      = if inside _ipolygon vx vy
                        then ofPairs (pre ++ rest) acc
                        else ofPairs (pre ++ (vx, vy) :: rest) acc).
      { unfold step, ofPairs, get; cbn [_X _Y].
        rewrite !map_app. cbn [map fst snd].
        rewrite !nth_behind_map.
        destruct (inside _ipolygon vx vy); [|reflexivity].
        unfold remove, remove_at; cbn [_X _Y accuracy].
        rewrite Structural.toUint32_small by lia.
        destruct (Nat.leb_spec (length pre)
                    (length (map fst pre ++ vx :: map fst rest))) as [_|Hlt].
        - rewrite !splice1_behind_map. reflexivity.
        - rewrite length_app, length_map in Hlt. lia. }
      rewrite Hstep. destruct (inside _ipolygon vx vy).
      * destruct rest as [|w rest].
        -- rewrite app_nil_r. apply past_the_end.
           unfold ofPairs; simpl. rewrite length_map. lia.
        -- replace (pre ++ w :: rest) with ((pre ++ [w]) ++ rest)
             by (rewrite <- app_assoc; reflexivity).
           replace (S (length pre)) with (length (pre ++ [w]))
             by (rewrite length_app; simpl; lia).
           rewrite IH.
           ++ rewrite <- app_assoc. reflexivity.
           ++ simpl in Hm. lia.
           ++ rewrite length_app. simpl. lia.
      * replace (pre ++ (vx, vy) :: rest) with ((pre ++ [(vx, vy)]) ++ rest)
          by (rewrite <- app_assoc; reflexivity).
        replace (S (length pre)) with (length (pre ++ [(vx, vy)]))
          by (rewrite length_app; simpl; lia).
        rewrite IH.
        -- rewrite <- app_assoc. reflexivity.
        -- simpl in Hm. lia.
        -- rewrite length_app. simpl. lia.
Qed.

End Loop.

End RemoveInside.

(** X9.  The loop with which [union] trims a polygon tests the vertices from the
    first on, and after every vertex it removes it steps over the next one:
    that vertex stays, inside or not. *)
Theorem removeInside_steps_over_the_vertex_behind_a_removed_one :
  forall (_this _ipolygon : Polygon),
    wellFormed _this ->
    (Z.of_nat (size _this) < 4294967296)%Z ->
    vertexPairs (removeInside _this _ipolygon)
    = skipScan (fun v => inside _ipolygon (fst v) (snd v)) (vertexPairs _this).
Proof.
  intros _this _ipolygon Hwf Hb.
  unfold removeInside.
  change (fun (_this0 : Polygon) (_i : nat) =>
            if inside _ipolygon (get (_X _this0) _i) (get (_Y _this0) _i)
            then remove _this0 (Index _i) else _this0)
    with (RemoveInside.step _ipolygon).
  assert (Hsize : size _this = length (vertexPairs _this)).
  { unfold size, vertexPairs. rewrite length_combine.
    unfold wellFormed in Hwf. lia. }
  rewrite (RemoveInside.ofPairs_vertexPairs _this Hwf) at 2.
  rewrite (RemoveInside.scan _ipolygon (size _this) [] (vertexPairs _this)).
  - apply RemoveInside.vertexPairs_ofPairs.
  - lia.
  - simpl. exact Hb.
Qed.

(** The subject of the README, trimmed by its clipper. *)
Lemma removeInside_steps_over_the_vertex_behind_a_removed_one_witness :
  vertexPairs (removeInside readmeSubject readmeClipper)
  = skipScan (fun v => inside readmeClipper (fst v) (snd v))
             (vertexPairs readmeSubject).
Proof.
  apply (removeInside_steps_over_the_vertex_behind_a_removed_one
           readmeSubject readmeClipper).
  - reflexivity.
  - reflexivity.
Defined.

(** ** data never reports a negative area or perimeter *)

(** X10.  Whatever the orientation of the vertices, and whatever the numbers, the
    area and the perimeter that [data] returns are not below zero. *)
Theorem data_area_and_perimeter_are_never_negative :
  forall this : Polygon,
    (Data.area (Data.data this) <? 0) = false
    /\ (Data.perimeter (Data.data this) <? 0) = false.
Proof.
  intros this. unfold Data.data. cbn [Data.area Data.perimeter].
  unfold Data.canonical. split.
  - destruct (Data.l_A (Data.locals this) <? 0) eqn:E; cbn [Data.l_A].
    + apply FloatOrder.opp_of_negative. exact E.
    + exact E.
  - assert (Hp : (Data.l_p (Data.locals this) <? 0) = false).
    { unfold Data.locals. cbn [Data.l_p]. unfold Data._sum, Data._sqrt.
      assert (G : forall l acc, (acc <? 0) = false ->
                 (fold_left (fun prev x => prev + x) (map PrimFloat.sqrt l) acc
                  <? 0) = false).
      { induction l as [|x l IH]; intros acc Hacc; cbn [map fold_left]; auto.
        apply IH. apply FloatSign.add_not_negative; auto.
        apply FloatSign.sqrt_not_negative. }
      apply G. reflexivity. }
    destruct (Data.l_A (Data.locals this) <? 0); exact Hp.
Qed.

(** ** inside needs vertices on both sides of the ray *)

(** X11.  When the vertices are all above the ordinate of the point, or all not
    above it, no edge crosses the ray and the point is reported outside.
    This covers the polygons with no vertex and with one vertex. *)
Theorem inside_is_false_without_vertices_on_both_sides :
  forall (this : Polygon) (x y : float) (b : bool),
    (forall i, (i < size this)%nat -> gtb (get (_Y this) i) y = b) ->
    inside this x y = false.
Proof.
  intros this x y b H. unfold inside, size in *.
  assert (G : forall l st,
            (forall i, In i l -> (i < length (_X this))%nat) ->
            fst st = false ->
            gtb (get (_Y this) (snd st)) y = b ->
            fst (fold_left
                   (fun '(xo_inside, _j) _i =>
                      (if negb (Bool.eqb (gtb (get (_Y this) _i) y)
                                         (gtb (get (_Y this) _j) y))
                          && (x <? get (_X this) _i
                                   + (get (_X this) _j - get (_X this) _i)
                                     * (y - get (_Y this) _i)
                                     / (get (_Y this) _j - get (_Y this) _i))
                       then negb xo_inside else xo_inside, _i)) l st) = false).
  { induction l as [|i l IH]; intros [bi j] Hl Hb Hj; simpl in *; auto.
    apply IH.
    - intros k Hk. apply Hl. auto.
    - simpl. rewrite Hj, (H i) by (apply Hl; auto).
      rewrite Bool.eqb_reflx. simpl. exact Hb.
    - simpl. apply H, Hl. auto. }
  destruct (length (_X this)) as [|n] eqn:En.
  - reflexivity.
  - apply G.
    + intros i Hi. apply in_seq in Hi. lia.
    + reflexivity.
    + simpl. apply H. lia.
Qed.

(** The point (5, 20) lies above every vertex of [square10]. *)
Lemma inside_is_false_without_vertices_on_both_sides_witness :
  inside square10 5 20 = false.
Proof.
  apply (inside_is_false_without_vertices_on_both_sides square10 5 20 false).
  intros i Hi.
  do 4 (destruct i as [|i]; [vm_compute; reflexivity|]).
  unfold size, square10 in Hi. simpl in Hi. lia.
Defined.

(** ** isEqual *)

(** X12.  A polygon with finite coordinates and a positive accuracy is equal to
    itself. *)
Theorem isEqual_is_reflexive :
  forall this : Polygon,
    wellFormed this ->
    _finite (_X this) = true -> _finite (_Y this) = true ->
    (0 <? accuracy this) = true ->
    isEqual this this = true.
Proof.
  intros [X Y acc]. unfold wellFormed, isEqual, size, _equal, _finite; simpl.
  intros Hwf HX HY Hacc. rewrite Nat.eqb_refl. simpl.
  apply forallb_forall. intros i Hi. apply in_seq in Hi.
  assert (Hfin : forall l : list float, forallb is_finite l = true ->
                 (i < length l)%nat -> is_finite (get l i) = true).
  { intros l Hl Hlt. rewrite forallb_forall in Hl. apply Hl.
    unfold get. apply nth_In. exact Hlt. }
  rewrite !FloatArith.sub_diag by (apply Hfin; auto; lia).
  change (abs 0) with 0. rewrite Hacc. reflexivity.
Qed.

Lemma isEqual_is_reflexive_witness : isEqual square10 square10 = true.
Proof.
  apply (isEqual_is_reflexive square10).
  - reflexivity.
  - vm_compute. reflexivity.
  - vm_compute. reflexivity.
  - vm_compute. reflexivity.
Defined.

(** X13.  Between two polygons of one accuracy, [isEqual] does not depend on which
    of them is asked. *)
Theorem isEqual_is_symmetric :
  forall this xi_polygon : Polygon,
    accuracy this = accuracy xi_polygon ->
    isEqual this xi_polygon = isEqual xi_polygon this.
Proof.
  intros [X Y acc] [X' Y' acc']. unfold isEqual, size, _equal; simpl.
  intros <-. rewrite (Nat.eqb_sym (length X') (length X)).
  destruct (Nat.eqb_spec (length X) (length X')) as [E|E]; simpl; auto.
  rewrite <- E. generalize (seq 0 (length X)) as l.
  induction l as [|i l IH]; simpl; [reflexivity|].
  rewrite IH.
  rewrite (FloatArith.abs_sub_comm (get X i) (get X' i)).
  rewrite (FloatArith.abs_sub_comm (get Y i) (get Y' i)). reflexivity.
Qed.

Lemma isEqual_is_symmetric_witness :
  isEqual square10 trapezoid = isEqual trapezoid square10.
Proof.
  apply (isEqual_is_symmetric square10 trapezoid). reflexivity.
Defined.

(** ** extent and the extreme vertices *)

Module Extremes.

Import RadialFit.

Lemma Math_min_spec (a b : float) :
  is_nan a = false -> is_nan b = false ->
  (Math_min a b = a \/ Math_min a b = b)
  /\ (Math_min a b <=? a) = true /\ (Math_min a b <=? b) = true.
Proof.
  intros Ha Hb. unfold Math_min. rewrite Ha, Hb. simpl.
  destruct (a <? b) eqn:Hab.
  - repeat split; auto using FloatOrder.leb_refl, FloatOrder.ltb_leb.
  - destruct (b <? a) eqn:Hba.
    + repeat split; auto using FloatOrder.leb_refl, FloatOrder.ltb_leb.
    + pose proof (FloatOrder.ltb_false_leb a b Ha Hb Hab).
      pose proof (FloatOrder.ltb_false_leb b a Hb Ha Hba).
      destruct (1 / a <? 0); repeat split; auto using FloatOrder.leb_refl.
Qed.

Lemma Math_max_spec (a b : float) :
  is_nan a = false -> is_nan b = false ->
  (Math_max a b = a \/ Math_max a b = b)
  /\ (a <=? Math_max a b) = true /\ (b <=? Math_max a b) = true.
Proof.
  intros Ha Hb. unfold Math_max. rewrite Ha, Hb. simpl.
  destruct (a <? b) eqn:Hab.
  - repeat split; auto using FloatOrder.leb_refl, FloatOrder.ltb_leb.
  - destruct (b <? a) eqn:Hba.
    + repeat split; auto using FloatOrder.leb_refl, FloatOrder.ltb_leb.
    + pose proof (FloatOrder.ltb_false_leb a b Ha Hb Hab).
      pose proof (FloatOrder.ltb_false_leb b a Hb Ha Hba).
      destruct (1 / a <? 0); repeat split; auto using FloatOrder.leb_refl.
Qed.

Section Fold.

(** [op] picks one of its two arguments, which is first in the order
    [le]. *)
Variable op : float -> float -> float.
Variable le : float -> float -> bool.
Hypothesis le_trans : forall a b c, le a b = true -> le b c = true -> le a c = true.
Hypothesis op_spec :
  forall a b, is_nan a = false -> is_nan b = false ->
    (op a b = a \/ op a b = b) /\ le (op a b) a = true /\ le (op a b) b = true.

Lemma fold_extreme (l : list float) :
  forall init,
    is_nan init = false -> Forall (fun x => is_nan x = false) l ->
    let r := fold_left op l init in
    (r = init \/ In r l) /\ le r init = true
    /\ Forall (fun x => le r x = true) l.
Proof.
  induction l as [|x l IH]; intros init Hi Hl; simpl.
  - repeat split; auto.
    destruct (op_spec init init Hi Hi) as ([E|E] & H & _); rewrite E in H; auto.
  - inversion Hl as [|? ? Hx Hl']; subst.
    destruct (op_spec init x Hi Hx) as (Hor & H1 & H2).
    assert (Hn : is_nan (op init x) = false) by (destruct Hor as [->| ->]; auto).
    destruct (IH (op init x) Hn Hl') as (Hin & Hle & Hall).
    repeat split.
    + destruct Hin as [->|Hin]; [destruct Hor as [->| ->]|]; auto.
    + eapply le_trans; eauto.
    + constructor; [eapply le_trans; eauto | exact Hall].
Qed.

End Fold.

Lemma finite_Forall_not_nan (l : list float) :
  _finite l = true -> Forall (fun x => is_nan x = false) l.
Proof.
  unfold _finite. rewrite forallb_forall, Forall_forall.
  intros H x Hx. apply FloatOrder.is_finite_not_nan, H, Hx.
Qed.

(** The minimum of a non-empty array of finite numbers is one of them and
    is not above any. *)
Lemma min_spec (l : list float) :
  l <> [] -> _finite l = true ->
  In (_min l) l /\ Forall (fun x => (_min l <=? x) = true) l.
Proof.
  intros Hne Hfin. unfold _min.
  destruct (fold_extreme Math_min PrimFloat.leb FloatOrder.leb_trans
              Math_min_spec l infinity eq_refl (finite_Forall_not_nan l Hfin))
    as (Hin & _ & Hall).
  split; [|exact Hall].
  destruct Hin as [E|Hin]; [|exact Hin].
  destruct l as [|x l]; [congruence|].
  inversion Hall as [|? ? Hx _]; subst. rewrite E in Hx.
  rewrite FloatArith.infinity_not_leb_finite in Hx; [discriminate|].
  unfold _finite in Hfin. simpl in Hfin. apply andb_true_iff in Hfin. apply Hfin.
Qed.

Lemma max_spec (l : list float) :
  l <> [] -> _finite l = true ->
  In (_max l) l /\ Forall (fun x => (x <=? _max l) = true) l.
Proof.
  intros Hne Hfin. unfold _max.
  destruct (fold_extreme Math_max (fun a b => b <=? a)
              (fun a b c H1 H2 => FloatOrder.leb_trans c b a H2 H1)
              Math_max_spec l neg_infinity eq_refl
              (finite_Forall_not_nan l Hfin))
    as (Hin & _ & Hall).
  split; [|exact Hall].
  destruct Hin as [E|Hin]; [|exact Hin].
  destruct l as [|x l]; [congruence|].
  inversion Hall as [|? ? Hx _]; subst. rewrite E in Hx.
  rewrite FloatArith.finite_not_leb_neg_infinity in Hx; [discriminate|].
  unfold _finite in Hfin. simpl in Hfin. apply andb_true_iff in Hfin. apply Hfin.
Qed.

(** [indexOf] finds a number that is in the array, at its first index. *)
Lemma indexOf_In (l : list float) (v : float) :
  In v l -> is_nan v = false ->
  exists i, Array_indexOf l v = Some i /\ (i < length l)%nat
            /\ (get l i =? v) = true
            /\ forall j, (j < i)%nat -> (get l j =? v) = false.
Proof.
  unfold Array_indexOf. intros Hin Hv.
  assert (G : forall k, exists i,
             indexOfFrom k l v = Some (k + i)%nat /\ (i < length l)%nat
             /\ (get l i =? v) = true
             /\ forall j, (j < i)%nat -> (get l j =? v) = false).
  { induction l as [|x l IH]; [destruct Hin|]. intros k. simpl.
    destruct (x =? v) eqn:E.
    - exists O. rewrite Nat.add_0_r. split; [reflexivity|].
      split; [simpl; lia|]. split; [exact E|]. intros j Hj. lia.
    - destruct Hin as [->|Hin].
      + rewrite FloatArith.eqb_refl in E by exact Hv. discriminate.
      + destruct (IH Hin (S k)) as (i & Hi & Hlt & Heq & Hfirst).
        exists (S i). rewrite Hi. split; [f_equal; lia|].
        split; [simpl; lia|]. split; [exact Heq|].
        intros [|j] Hj; [exact E|]. apply Hfirst. lia. }
  destruct (G O) as (i & Hi & H). exists i. split; [exact Hi | exact H].
Qed.

(** The index [indexOf] gives for the minimum or the maximum. *)
Lemma extreme_index (l : list float) (m : float) (le : float -> float -> bool) :
  (forall a b c, le a b = true -> le b c = true -> le a c = true) ->
  (forall a b, (a =? b) = true -> le a b = true) ->
  In m l -> is_nan m = false -> Forall (fun x => le m x = true) l ->
  exists i, Array_indexOf l m = Some i /\ (i < length l)%nat
            /\ forall j, (j < length l)%nat -> le (get l i) (get l j) = true.
Proof.
  intros Htrans Heq Hin Hm Hall.
  destruct (indexOf_In l m Hin Hm) as (i & Hi & Hlt & He & _).
  exists i. repeat split; auto.
  intros j Hj. apply (Htrans _ m).
  - apply Heq. exact He.
  - rewrite Forall_forall in Hall. apply Hall. unfold get. apply nth_In. exact Hj.
Qed.

End Extremes.

(** X14.  On a polygon with at least one vertex and finite coordinates,
    [leftVertex], [rightVertex], [bottomVertex] and [upperVertex] return the
    index of a vertex, and no vertex lies further out in that direction. *)
Theorem extreme_vertices_are_extreme :
  forall this : Polygon,
    wellFormed this -> (0 < size this)%nat ->
    _finite (_X this) = true -> _finite (_Y this) = true ->
    (exists i, leftVertex this = Some i /\ (i < size this)%nat
       /\ forall j, (j < size this)%nat ->
                    (get (_X this) i <=? get (_X this) j) = true)
    /\ (exists i, rightVertex this = Some i /\ (i < size this)%nat
       /\ forall j, (j < size this)%nat ->
                    (get (_X this) j <=? get (_X this) i) = true)
    /\ (exists i, bottomVertex this = Some i /\ (i < size this)%nat
       /\ forall j, (j < size this)%nat ->
                    (get (_Y this) i <=? get (_Y this) j) = true)
    /\ (exists i, upperVertex this = Some i /\ (i < size this)%nat
       /\ forall j, (j < size this)%nat ->
                    (get (_Y this) j <=? get (_Y this) i) = true).
Proof.
  intros [X Y acc]. unfold wellFormed, size, leftVertex, rightVertex,
    bottomVertex, upperVertex; simpl. intros Hwf Hpos HX HY.
  assert (HXne : X <> []) by (destruct X; simpl in *; [lia | discriminate]).
  assert (HYne : Y <> []) by (destruct Y; simpl in *; [lia | discriminate]).
  destruct (Extremes.min_spec X HXne HX) as [HinX HminX].
  destruct (Extremes.max_spec X HXne HX) as [HaxX HmaxX].
  destruct (Extremes.min_spec Y HYne HY) as [HinY HminY].
  destruct (Extremes.max_spec Y HYne HY) as [HaxY HmaxY].
  assert (Hnan : forall l v, _finite l = true -> In v l -> is_nan v = false).
  { intros l v Hl Hv. unfold _finite in Hl. rewrite forallb_forall in Hl.
    apply FloatOrder.is_finite_not_nan, Hl, Hv. }
  rewrite Hwf.
  repeat split.
  - rewrite <- Hwf.
    apply (Extremes.extreme_index X (_min X) PrimFloat.leb
             FloatOrder.leb_trans FloatArith.eqb_leb HinX (Hnan X _ HX HinX) HminX).
  - rewrite <- Hwf.
    apply (Extremes.extreme_index X (_max X) (fun a b => b <=? a)
             (fun a b c H1 H2 => FloatOrder.leb_trans c b a H2 H1)
             (fun a b H => FloatArith.eqb_leb b a
                             (eq_trans (FloatArith.eqb_sym b a) H))
             HaxX (Hnan X _ HX HaxX) HmaxX).
  - apply (Extremes.extreme_index Y (_min Y) PrimFloat.leb
             FloatOrder.leb_trans FloatArith.eqb_leb HinY (Hnan Y _ HY HinY) HminY).
  - apply (Extremes.extreme_index Y (_max Y) (fun a b => b <=? a)
             (fun a b c H1 H2 => FloatOrder.leb_trans c b a H2 H1)
             (fun a b H => FloatArith.eqb_leb b a
                             (eq_trans (FloatArith.eqb_sym b a) H))
             HaxY (Hnan Y _ HY HaxY) HmaxY).
Qed.

Lemma extreme_vertices_are_extreme_witness :
  (exists i, leftVertex trapezoid = Some i /\ (i < size trapezoid)%nat
     /\ forall j, (j < size trapezoid)%nat ->
                  (get (_X trapezoid) i <=? get (_X trapezoid) j) = true)
  /\ (exists i, rightVertex trapezoid = Some i /\ (i < size trapezoid)%nat
     /\ forall j, (j < size trapezoid)%nat ->
                  (get (_X trapezoid) j <=? get (_X trapezoid) i) = true)
  /\ (exists i, bottomVertex trapezoid = Some i /\ (i < size trapezoid)%nat
     /\ forall j, (j < size trapezoid)%nat ->
                  (get (_Y trapezoid) i <=? get (_Y trapezoid) j) = true)
  /\ (exists i, upperVertex trapezoid = Some i /\ (i < size trapezoid)%nat
     /\ forall j, (j < size trapezoid)%nat ->
                  (get (_Y trapezoid) j <=? get (_Y trapezoid) i) = true).
Proof.
  apply (extreme_vertices_are_extreme trapezoid).
  - reflexivity.
  - vm_compute. lia.
  - vm_compute. reflexivity.
  - vm_compute. reflexivity.
Defined.

(** X15.  On a polygon with finite coordinates, every vertex lies within the box
    that [extent] returns. *)
Theorem extent_bounds_every_vertex :
  forall (this : Polygon) (i : nat),
    wellFormed this -> (i < size this)%nat ->
    _finite (_X this) = true -> _finite (_Y this) = true ->
    (get (extent this) 0 <=? get (_X this) i) = true
    /\ (get (_X this) i <=? get (extent this) 1) = true
    /\ (get (extent this) 2 <=? get (_Y this) i) = true
    /\ (get (_Y this) i <=? get (extent this) 3) = true.
Proof.
  intros [X Y acc] i. unfold wellFormed, size, extent; simpl.
  intros Hwf Hi HX HY.
  assert (HXne : X <> []) by (destruct X; simpl in *; [lia | discriminate]).
  assert (HYne : Y <> []) by (destruct Y; simpl in *; [lia | discriminate]).
  destruct (Extremes.min_spec X HXne HX) as [_ HminX].
  destruct (Extremes.max_spec X HXne HX) as [_ HmaxX].
  destruct (Extremes.min_spec Y HYne HY) as [_ HminY].
  destruct (Extremes.max_spec Y HYne HY) as [_ HmaxY].
  rewrite Forall_forall in HminX, HmaxX, HminY, HmaxY.
  unfold get in *. simpl.
  repeat split; [apply HminX | apply HmaxX | apply HminY | apply HmaxY];
    apply nth_In; lia.
Qed.

Lemma extent_bounds_every_vertex_witness :
  (get (extent trapezoid) 0 <=? get (_X trapezoid) 2) = true
  /\ (get (_X trapezoid) 2 <=? get (extent trapezoid) 1) = true
  /\ (get (extent trapezoid) 2 <=? get (_Y trapezoid) 2) = true
  /\ (get (_Y trapezoid) 2 <=? get (extent trapezoid) 3) = true.
Proof.
  apply (extent_bounds_every_vertex trapezoid 2).
  - reflexivity.
  - vm_compute. lia.
  - vm_compute. reflexivity.
  - vm_compute. reflexivity.
Defined.

(** ** radialFit throws on a polygon with fewer vertices than unknowns *)

Module RadialFitThrows.
Import RadialFit RadialFitFacts.

(** A loop one of whose steps throws on every state throws. *)
Lemma forEach_throws {St : Type} (body : nat -> St -> option St)
      (l : list nat) (k : nat) :
  In k l -> (forall s, body k s = None) -> forall s, forEach l body s = None.
Proof.
  induction l as [|i l IH]; intros Hin Hk s; [destruct Hin|].
  rewrite forEach_cons. destruct Hin as [->|Hin].
  - rewrite Hk. reflexivity.
  - destruct (body i s); simpl; auto.
Qed.

(** The elimination reads rows up to the number of columns: on a system
    with fewer equations than unknowns it reads a row that does not
    exist. *)
Lemma gaussElimination_throws A B r c :
  shape A r c -> length B = r -> (r < c)%nat -> _gaussElimination A B = None.
Proof.
  intros HA HB Hrc. unfold _gaussElimination.
  destruct r as [|r].
  { destruct HA as [Hlen _]. destruct A; [reflexivity | discriminate]. }
  destruct (shape_row A (S r) c 0 HA ltac:(lia)) as (row0 & -> & Hrow0);
    cbn [bind].
  destruct (concat_shape A B (S r) c HA HB) as (AB & -> & HAB); cbn [bind].
  destruct (shape_row AB (S r) (c + 1) 0 HAB ltac:(lia)) as (row1 & -> & Hrow1);
    cbn [bind].
  destruct HA as [-> _]. cbn [seq]. rewrite forEach_cons.
  assert (Hmax : columnMaximum AB (length row0) 0 = None).
  { unfold columnMaximum. unfold read at 1.
    destruct (nth_error AB 0) as [rw|]; [|reflexivity]. cbn [bind].
    apply (forEach_throws _ _ (S r)).
    - apply in_seq. lia.
    - intros [p j]. unfold read.
      destruct HAB as [HlenAB _].
      assert (E : nth_error AB (S r) = None) by (apply nth_error_None; lia).
      rewrite E. reflexivity. }
  rewrite Hmax. reflexivity.
Qed.

End RadialFitThrows.

(** X16.  [radialFit] throws on every polygon that has fewer vertices than the
    fit has unknowns: three for a circle, five for an ellipse. *)
Theorem radialFit_throws_below_the_number_of_unknowns :
  forall (Math_atan : float -> float) (this : Polygon) (xi_type : RadialFit.FitType),
    let n := match xi_type with RadialFit.ELLIPSE => 5%nat | _ => 3%nat end in
    (size this < n)%nat ->
    RadialFit.radialFit Math_atan this xi_type = None.
Proof.
  intros Math_atan this xi_type n Hn. unfold size in Hn.
  assert (Hc : RadialFit._fitCircle (_X this) (_Y this) = None
               \/ (3 <= length (_X this))%nat).
  { destruct (Nat.lt_ge_cases (length (_X this)) 3) as [H|H]; [left|right; exact H].
    unfold RadialFit._fitCircle.
    destruct (RadialFitFacts.circleSystem_shape (_X this) (_Y this)) as [HA HB].
    destruct (RadialFit.circleSystem (_X this) (_Y this)) as [A B]; simpl in *.
    rewrite (RadialFitThrows.gaussElimination_throws A B _ 3 HA HB H).
    reflexivity. }
  destruct xi_type; simpl in *.
  - destruct Hc as [Hc|Hc]; [exact Hc | lia].
  - unfold RadialFit._fitEllipse.
    destruct (RadialFitFacts.ellipseSystem_shape (_X this) (_Y this)) as [HA HB].
    destruct (RadialFit.ellipseSystem (_X this) (_Y this)) as [A B]; simpl in *.
    rewrite (RadialFitThrows.gaussElimination_throws A B _ 5 HA HB Hn).
    reflexivity.
  - destruct Hc as [Hc|Hc]; [exact Hc | lia].
Qed.

(** A circle through the two vertices of a segment. *)
Lemma radialFit_throws_below_the_number_of_unknowns_witness :
  RadialFit.radialFit (fun x => x) (mkPolygon [0; 1] [0; 1] 1e-10)
                      RadialFit.CIRCLE = None.
Proof.
  apply (radialFit_throws_below_the_number_of_unknowns
           (fun x => x) (mkPolygon [0; 1] [0; 1] 1e-10) RadialFit.CIRCLE).
  vm_compute. lia.
Defined.

(** ** convexHull: where it starts and what it returns *)

Module ConvexHullFacts.
Import ConvexHull.

(** The first hull vertex is the first of the leftmost vertices. *)
Lemma leftBottom_leftmost (xi_x xi_y : list float) :
  Forall (fun x => is_nan x = false) xi_x -> xi_x <> [] ->
  let s := _leftBottom undefined_accuracy xi_x xi_y in
  (s < length xi_x)%nat
  /\ forall j, (j < length xi_x)%nat -> (get xi_x s <=? get xi_x j) = true.
Proof.
  intros Hnan Hne. unfold _leftBottom, undefined_accuracy.
  assert (Hget : forall i, (i < length xi_x)%nat -> is_nan (get xi_x i) = false).
  { intros i Hi. rewrite Forall_forall in Hnan. apply Hnan.
    unfold get. apply nth_In. exact Hi. }
  assert (G : forall n a s0,
             (a + n <= length xi_x)%nat -> (s0 < a)%nat ->
             (forall j, (j < a)%nat -> (get xi_x s0 <=? get xi_x j) = true) ->
             let s := fold_left
                        (fun xo_index _i =>
                           let _xi := get xi_x _i in
                           let _yi := get xi_y _i in
                           let _x := get xi_x xo_index in
                           let _y := get xi_y xo_index in
                           if (_xi <? _x) || ((abs (_xi - _x) <? nan) && (_yi <? _y))
                           then _i else xo_index)
                        (seq a n) s0 in
             (s < a + n)%nat
             /\ forall j, (j < a + n)%nat -> (get xi_x s <=? get xi_x j) = true).
  { induction n as [|n IH]; intros a s0 Hlen Hs0 Hmin; cbn [seq fold_left].
    - rewrite Nat.add_0_r. split; [exact Hs0 | exact Hmin].
    - rewrite FloatFacts.ltb_nan_r. cbn [andb]. rewrite orb_false_r.
      replace (a + S n)%nat with (S a + n)%nat by lia.
      destruct (get xi_x a <? get xi_x s0) eqn:E.
      + apply IH; [lia | lia |].
        intros j Hj. destruct (Nat.eq_dec j a) as [->|Hne'].
        * apply FloatOrder.leb_refl, Hget. lia.
        * apply (FloatOrder.leb_trans _ (get xi_x s0)).
          -- apply FloatOrder.ltb_leb. exact E.
          -- apply Hmin. lia.
      + apply IH; [lia | lia |].
        intros j Hj. destruct (Nat.eq_dec j a) as [->|Hne'].
        * apply FloatOrder.ltb_false_leb; auto; apply Hget; lia.
        * apply Hmin. lia. }
  destruct xi_x as [|x0 xs]; [congruence|]. cbn [length].
  replace (S (length xs) - 1)%nat with (length xs) by lia.
  specialize (G (length xs) 1%nat O). cbn [length] in G.
  replace (1 + length xs)%nat with (S (length xs)) in G by lia.
  apply G; [lia | lia |].
  intros j Hj. replace j with O by lia.
  apply FloatOrder.leb_refl. apply (Hget O). simpl. lia.
Qed.

(** The vertex the inner loop picks is a vertex of the polygon. *)
Lemma nextVertex_lt (this : Polygon) (_hull : nat) :
  (0 < size this)%nat -> (nextVertex this _hull < size this)%nat.
Proof.
  intros Hpos. unfold nextVertex.
  assert (G : forall l e0,
             (e0 < size this)%nat -> (forall i, In i l -> (i < size this)%nat) ->
             (fold_left
                (fun _indexEnd _i =>
                   if (_hull =? _indexEnd)%nat
                      || _cross (get (_X this) _hull) (get (_Y this) _hull)
                                (get (_X this) _indexEnd) (get (_Y this) _indexEnd)
                                (get (_X this) _i) (get (_Y this) _i)
                   then _i else _indexEnd) l e0 < size this)%nat).
  { induction l as [|i l IH]; intros e0 He Hl; simpl; auto.
    apply IH.
    - destruct (_ || _); auto. apply Hl. left. reflexivity.
    - intros k Hk. apply Hl. right. exact Hk. }
  apply G; [exact Hpos|]. intros i Hi. apply in_seq in Hi. lia.
Qed.

(** What the loop returns: the points gathered so far, then vertices of the
    polygon, the first of which is the vertex the loop was started at. *)
Lemma wrap_vertices (this : Polygon) (_indexStart : nat) :
  (0 < size this)%nat ->
  forall fuel _hull xs ys hx hy,
    (_hull < size this)%nat ->
    wrap fuel this _indexStart _hull xs ys = Some (hx, hy) ->
    exists l, hx = xs ++ map (get (_X this)) (_hull :: l)
              /\ hy = ys ++ map (get (_Y this)) (_hull :: l)
              /\ Forall (fun i => (i < size this)%nat) l.
Proof.
  intros Hpos. induction fuel as [|fuel IH]; intros h xs ys hx hy Hh H;
    [discriminate|].
  cbn [wrap] in H.
  destruct (nextVertex this h =? _indexStart)%nat.
  - inversion H; subst. exists []. repeat split; auto.
  - apply IH in H; [|apply nextVertex_lt; exact Hpos].
    destruct H as (l & -> & -> & Hl).
    exists (nextVertex this h :: l). rewrite <- !app_assoc. repeat split; auto.
    constructor; [apply nextVertex_lt; exact Hpos | exact Hl].
Qed.

End ConvexHullFacts.

(** X17.  When [convexHull] returns, the hull starts at a leftmost vertex of the
    polygon, and every hull point is a vertex of the polygon. *)
Theorem convexHull_returns_vertices_from_a_leftmost_one :
  forall (fuel : nat) (this : Polygon) (hx hy : list float),
    wellFormed this -> (0 < size this)%nat ->
    _finite (_X this) = true ->
    ConvexHull.convexHull fuel this = Some (hx, hy) ->
    (forall j, (j < size this)%nat -> (get hx 0 <=? get (_X this) j) = true)
    /\ length hx = length hy
    /\ forall pt, In pt (combine hx hy) -> In pt (vertexPairs this).
Proof.
  intros fuel this hx hy Hwf Hpos Hfin H. unfold ConvexHull.convexHull in H.
  assert (Hne : _X this <> [])
    by (unfold size in Hpos; destruct (_X this); simpl in *; [lia|discriminate]).
  destruct (ConvexHullFacts.leftBottom_leftmost (_X this) (_Y this)
              (Extremes.finite_Forall_not_nan _ Hfin) Hne) as [Hs Hmin].
  destruct (ConvexHullFacts.wrap_vertices this _ Hpos fuel _ [] [] hx hy Hs H)
    as (l & -> & -> & Hl).
  cbn [app]. split; [exact Hmin|].
  split; [rewrite !length_map; reflexivity|].
  - intros pt Hpt.
    assert (Hall : Forall (fun i => (i < size this)%nat)
                     (ConvexHull._leftBottom ConvexHull.undefined_accuracy
                        (_X this) (_Y this) :: l))
      by (constructor; auto).
    revert Hpt Hall.
    generalize (ConvexHull._leftBottom ConvexHull.undefined_accuracy
                  (_X this) (_Y this) :: l) as idx.
    induction idx as [|i idx IH]; intros Hpt Hall; [destruct Hpt|].
    inversion Hall as [|? ? Hi Hall']; subst. cbn [map combine] in Hpt.
    destruct Hpt as [<-|Hpt]; [|apply IH; auto].
    unfold vertexPairs. rewrite <- (map_get_pairs _ _ Hwf).
    apply in_map_iff. exists i. split; [reflexivity|].
    apply in_seq. unfold size in Hi. lia.
Qed.

(** The hull of [tieTriangle]. *)
Lemma convexHull_returns_vertices_from_a_leftmost_one_witness :
  (forall j, (j < size tieTriangle)%nat ->
             (get [0; 0; 1] 0 <=? get (_X tieTriangle) j) = true)
  /\ length [0; 0; 1] = length [5; 0; 0]
  /\ forall pt, In pt (combine [0; 0; 1] [5; 0; 0]) ->
                In pt (vertexPairs tieTriangle).
Proof.
  apply (convexHull_returns_vertices_from_a_leftmost_one
           3 tieTriangle [0; 0; 1] [5; 0; 0]).
  - reflexivity.
  - vm_compute. lia.
  - vm_compute. reflexivity.
  - vm_compute. reflexivity.
Defined.

(** ** convexHull: vertices on one line *)

Module ConvexHullLoop.
Import ConvexHull.

Lemma leftBottom_bound (acc : float) (xi_x xi_y : list float) :
  _leftBottom acc xi_x xi_y = O
  \/ (_leftBottom acc xi_x xi_y < length xi_x)%nat.
Proof.
  unfold _leftBottom.
  assert (G : forall l s0,
             (s0 = O \/ (s0 < length xi_x)%nat) ->
             (forall i, In i l -> (i < length xi_x)%nat) ->
             let s := fold_left
                        (fun xo_index _i =>
                           let _xi := get xi_x _i in
                           let _yi := get xi_y _i in
                           let _x := get xi_x xo_index in
                           let _y := get xi_y xo_index in
                           if (_xi <? _x) || ((abs (_xi - _x) <? acc) && (_yi <? _y))
                           then _i else xo_index) l s0 in
             s = O \/ (s < length xi_x)%nat).
  { induction l as [|i l IH]; intros s0 Hs Hl; cbn [fold_left]; auto.
    apply IH.
    - cbv zeta. destruct (_ || _); auto. right. apply Hl. left. reflexivity.
    - intros k Hk. apply Hl. right. exact Hk. }
  apply G; auto. intros i Hi. apply in_seq in Hi. lia.
Qed.

Section Collinear.

Variable this : Polygon.

(** No three vertices make the turn that [_cross] looks for. *)
Hypothesis no_turn :
  forall i j k, (i < size this)%nat -> (j < size this)%nat -> (k < size this)%nat ->
    _cross (get (_X this) i) (get (_Y this) i)
           (get (_X this) j) (get (_Y this) j)
           (get (_X this) k) (get (_Y this) k) = false.

(** The inner loop then stops at vertex 1 when it starts from vertex 0, and
    at vertex 0 otherwise. *)
Lemma nextVertex_no_turn (_hull : nat) :
  (2 <= size this)%nat -> (_hull < size this)%nat ->
  nextVertex this _hull = if (_hull =? 0)%nat then 1%nat else O.
Proof.
  intros Hsize Hh. unfold nextVertex.
  assert (G : forall n a e0,
             (a + n <= size this)%nat -> (e0 < a)%nat ->
             fold_left
               (fun _indexEnd _i =>
                  if (_hull =? _indexEnd)%nat
                     || _cross (get (_X this) _hull) (get (_Y this) _hull)
                               (get (_X this) _indexEnd) (get (_Y this) _indexEnd)
                               (get (_X this) _i) (get (_Y this) _i)
                  then _i else _indexEnd) (seq a n) e0
             = fold_left
                 (fun _indexEnd _i =>
                    if (_hull =? _indexEnd)%nat then _i else _indexEnd)
                 (seq a n) e0).
  { induction n as [|n IH]; intros a e0 Ha He; cbn [seq fold_left]; auto.
    rewrite no_turn by lia. rewrite orb_false_r.
    apply IH; [lia|]. destruct (_ =? _)%nat; lia. }
  rewrite (G (size this - 1)%nat 1%nat O) by lia.
  destruct (size this) as [|[|n]] eqn:En; try lia.
  replace (S (S n) - 1)%nat with (S n) by lia. cbn [seq fold_left].
  destruct _hull as [|h]; cbn [Nat.eqb].
  - generalize (seq 2 n) as l. induction l as [|i l IH]; cbn [fold_left]; auto.
  - generalize (seq 2 n) as l. induction l as [|i l IH]; cbn [fold_left]; auto.
Qed.

Lemma wrap_no_turn (_indexStart : nat) :
  (2 <= _indexStart)%nat -> (_indexStart < size this)%nat ->
  forall fuel _hull xs ys,
    (_hull < 2)%nat -> wrap fuel this _indexStart _hull xs ys = None.
Proof.
  intros Hs Hlt. induction fuel as [|fuel IH]; intros h xs ys Hh; [reflexivity|].
  cbn [wrap]. rewrite nextVertex_no_turn by lia.
  destruct h as [|h].
  - replace (if (0 =? 0)%nat then 1%nat else 0%nat) with 1%nat by reflexivity.
    destruct (Nat.eqb_spec 1 _indexStart); [lia|]. apply IH. lia.
  - replace (if (S h =? 0)%nat then 1%nat else 0%nat) with 0%nat by reflexivity.
    destruct (Nat.eqb_spec 0 _indexStart); [lia|]. apply IH. lia.
Qed.

End Collinear.

End ConvexHullLoop.

(** X18.  When no three vertices make a turn to the right, as with vertices on
    one line, and the leftmost vertex is not among the first two, the loop
    of [convexHull] alternates between the first two vertices and never
    comes back to the vertex it started from: [convexHull] does not
    return. *)
Theorem convexHull_loops_on_collinear_vertices :
  forall this : Polygon,
    (forall i j k,
        (i < size this)%nat -> (j < size this)%nat -> (k < size this)%nat ->
        ConvexHull._cross (get (_X this) i) (get (_Y this) i)
                          (get (_X this) j) (get (_Y this) j)
                          (get (_X this) k) (get (_Y this) k) = false) ->
    (2 <= ConvexHull._leftBottom ConvexHull.undefined_accuracy
                                 (_X this) (_Y this))%nat ->
    forall fuel, ConvexHull.convexHull fuel this = None.
Proof.
  intros this Hturn Hs fuel. unfold ConvexHull.convexHull.
  set (s := ConvexHull._leftBottom ConvexHull.undefined_accuracy
                                    (_X this) (_Y this)) in *.
  assert (Hlt : (s < size this)%nat).
  { destruct (ConvexHullLoop.leftBottom_bound ConvexHull.undefined_accuracy
                (_X this) (_Y this)) as [E|E]; fold s in E; unfold size; lia. }
  destruct fuel as [|fuel]; [reflexivity|].
  cbn [ConvexHull.wrap].
  rewrite (ConvexHullLoop.nextVertex_no_turn this Hturn) by lia.
  destruct (Nat.eqb_spec s 0) as [E|_]; [lia|].
  destruct (Nat.eqb_spec 0 s) as [E|_]; [lia|].
  apply (ConvexHullLoop.wrap_no_turn this Hturn s); lia.
Qed.

(** The vertices (1, 0), (2, 0), (0, 0) lie on the abscissa axis, the
    leftmost one last. *)
Lemma convexHull_loops_on_collinear_vertices_witness :
  ConvexHull.convexHull 1000 (mkPolygon [1; 2; 0] [0; 0; 0] 1e-10) = None.
Proof.
  apply (convexHull_loops_on_collinear_vertices
           (mkPolygon [1; 2; 0] [0; 0; 0] 1e-10)).
  - intros i j k Hi Hj Hk. unfold size in *. simpl in Hi, Hj, Hk.
    destruct i as [|[|[|i]]]; try lia;
      destruct j as [|[|[|j]]]; try lia;
      destruct k as [|[|[|k]]]; try lia;
      vm_compute; reflexivity.
  - vm_compute. lia.
Defined.

(** ** intersect: a subject on the inner side of every clip edge *)

(** The clip edges in the order [_clip] visits them: from the last vertex
    of the clipper to the first, then along the clipper. *)
Fixpoint edgesFrom (prev : Intersect.Point) (cl : list Intersect.Point)
  : list (Intersect.Point * Intersect.Point) :=
  match cl with
  | [] => []
  | c :: r => (prev, c) :: edgesFrom c r
  end.

Definition clipEdges (p : Polygon) : list (Intersect.Point * Intersect.Point) :=
  let cl := _toSet (_X p) (_Y p) in
  edgesFrom (last cl Intersect.undefinedPoint) cl.

Module IntersectFacts.
Import Intersect.

Lemma last_In {T : Type} (l : list T) (d : T) : l <> [] -> In (last l d) l.
Proof.
  induction l as [|a l IH]; intros H; [congruence|].
  destruct l as [|b l]; [left; reflexivity|].
  right. apply IH. discriminate.
Qed.

(** An edge with every point on its inner side cuts nothing off. *)
Lemma clipEdge_all_in (c1 c2 : Point) (l : list Point) :
  (forall v, In v l -> _in c1 c2 v = true) -> clipEdge c1 c2 l = l.
Proof.
  intros Hall. unfold clipEdge.
  assert (G : forall l' pre start,
             (forall v, In v l' -> _in c1 c2 v = true) ->
             _in c1 c2 start = true ->
             fst (fold_left
                    (fun '(xo_intersect, _startPt) _endPt =>
                       (if _in c1 c2 _endPt then
                          (if negb (_in c1 c2 _startPt)
                           then xo_intersect
                                  ++ [_lineLineInter c1 c2 _startPt _endPt]
                           else xo_intersect) ++ [_endPt]
                        else if _in c1 c2 _startPt then
                          xo_intersect ++ [_lineLineInter c1 c2 _startPt _endPt]
                        else xo_intersect, _endPt))
                    l' (pre, start)) = pre ++ l').
  { induction l' as [|v l' IH]; intros pre start Hl Hs; cbn [fold_left fst].
    - rewrite app_nil_r. reflexivity.
    - rewrite (Hl v (or_introl eq_refl)), Hs. cbn [negb].
      rewrite IH; [rewrite <- app_assoc; reflexivity | | ].
      + intros w Hw. apply Hl. right. exact Hw.
      + apply Hl. left. reflexivity. }
  destruct l as [|v l]; [reflexivity|].
  apply (G (v :: l) []); [exact Hall|].
  apply Hall, last_In. discriminate.
Qed.

Lemma clip_all_in (xi_clipped : list Point) :
  forall (xi_clipper : list Point) (prev : Point),
    (forall e v, In e (edgesFrom prev xi_clipper) -> In v xi_clipped ->
                 _in (fst e) (snd e) v = true) ->
    fst (fold_left
           (fun '(xo_intersect, _clipPolyPt1) _clipPolyPt2 =>
              (clipEdge _clipPolyPt1 _clipPolyPt2 xo_intersect, _clipPolyPt2))
           xi_clipper (xi_clipped, prev)) = xi_clipped.
Proof.
  induction xi_clipper as [|c cl IH]; intros prev Hall; cbn [fold_left fst];
    [reflexivity|].
  rewrite clipEdge_all_in.
  - apply IH. intros e v He Hv. apply Hall; [right; exact He | exact Hv].
  - intros v Hv. apply (Hall (prev, c) v); [left; reflexivity | exact Hv].
Qed.

End IntersectFacts.

(** X19.  When every vertex of the subject passes the inside test of every clip
    edge, [intersect] returns the subject, vertex for vertex.  A clipper
    without vertices has no edge: intersecting with it returns the subject
    too. *)
Theorem intersect_returns_a_subject_inside_every_clip_edge :
  forall this xi_polygon : Polygon,
    wellFormed this ->
    _finite (_X this) = true -> _finite (_Y this) = true ->
    (forall e v, In e (clipEdges xi_polygon) -> In v (vertexPairs this) ->
                 Intersect._in (fst e) (snd e) v = true) ->
    Intersect.intersect this xi_polygon
    = Some (mkPolygon (_X this) (_Y this) 1e-10).
Proof.
  intros this q Hwf HX HY Hall. unfold Intersect.intersect, Intersect._clip.
  rewrite (Structural.toSet_combine (_X this) (_Y this) Hwf).
  rewrite IntersectFacts.clip_all_in by exact Hall.
  apply Structural.Polygon_point_combine; assumption.
Qed.

(** The square [(2,2), (4,2), (4,4), (2,4)] lies inside [square10]. *)
Lemma intersect_returns_a_subject_inside_every_clip_edge_witness :
  Intersect.intersect (mkPolygon [2; 4; 4; 2] [2; 2; 4; 4] 1e-10) square10
  = Some (mkPolygon [2; 4; 4; 2] [2; 2; 4; 4] 1e-10).
Proof.
  apply (intersect_returns_a_subject_inside_every_clip_edge
           (mkPolygon [2; 4; 4; 2] [2; 2; 4; 4] 1e-10) square10).
  - reflexivity.
  - vm_compute. reflexivity.
  - vm_compute. reflexivity.
  - intros e v He Hv. vm_compute in He, Hv.
    repeat (destruct He as [<-|He]; [|]);
      try (destruct He);
      repeat (destruct Hv as [<-|Hv]; [vm_compute; reflexivity|]);
      destruct Hv.
Defined.

(** ** union: what its result is made of *)

Module UnionFacts.

Lemma length_splice1 {T : Type} (i : nat) (a : list T) :
  length (splice1 i a) = if (i <? length a)%nat then (length a - 1)%nat
                         else length a.
Proof.
  revert i. induction a as [|x a IH]; intros [|i]; simpl; auto; try lia.
  rewrite IH. change (S i <? S (length a))%nat with (i <? length a)%nat.
  destruct (Nat.ltb_spec i (length a)); lia.
Qed.

Lemma remove_at_wellFormed (p : Polygon) (i : nat) :
  wellFormed p -> wellFormed (remove_at p i).
Proof.
  unfold wellFormed, remove_at. intros H.
  destruct (_ <=? _)%nat; simpl; auto.
  rewrite !length_splice1, H. reflexivity.
Qed.

Lemma removeInside_wellFormed (p q : Polygon) :
  wellFormed p -> wellFormed (removeInside p q).
Proof.
  unfold removeInside. generalize (seq 0 (size p)) as l. intros l. revert p.
  induction l as [|i l IH]; intros p H; simpl; auto.
  apply IH. destruct (inside _ _ _); auto.
  simpl. apply remove_at_wellFormed. exact H.
Qed.

Lemma slice_wellFormed (p r : Polygon) (s e : nat) :
  wellFormed p -> slice p s e = Some r -> wellFormed r.
Proof.
  unfold wellFormed, slice, Polygon_array, Array_slice. intros H.
  destruct (_ && _); [|discriminate]. intros E. inversion E; subst; simpl.
  rewrite !length_firstn, !length_skipn, H. reflexivity.
Qed.

Lemma Polygon_point_wellFormed (pts : list (float * float)) (r : Polygon) :
  Polygon_point pts = Some r -> wellFormed r /\ vertexPairs r = pts.
Proof.
  unfold Polygon_point, wellFormed, vertexPairs.
  destruct (forallb _ _); [|discriminate]. intros E. inversion E; subst; simpl.
  rewrite !length_map. split; [reflexivity|].
  clear E. induction pts as [|[u v] pts IH]; simpl; congruence.
Qed.

Lemma insertPolygon_wellFormed (p q : Polygon) (i : nat) :
  wellFormed p -> wellFormed q -> wellFormed (insertPolygon p i q).
Proof.
  unfold wellFormed, insertPolygon. intros Hp Hq.
  destruct (_ <? _)%nat; simpl;
    rewrite !length_app, ?length_app, ?length_firstn, ?length_skipn; lia.
Qed.

Lemma insertPolygon_Permutation (p q : Polygon) (i : nat) :
  wellFormed p -> wellFormed q ->
  Permutation (vertexPairs (insertPolygon p i q))
              (vertexPairs p ++ vertexPairs q).
Proof.
  unfold wellFormed, insertPolygon, vertexPairs. intros Hp Hq.
  destruct (_ <? _)%nat; simpl.
  - rewrite Structural.combine_app by (rewrite !length_firstn; lia).
    rewrite Structural.combine_app by exact Hq.
    rewrite Structural.combine_firstn, Structural.combine_skipn.
    rewrite <- (firstn_skipn (toUint32 i) (combine (_X p) (_Y p))) at 3.
    rewrite <- app_assoc. apply Permutation_app_head, Permutation_app_comm.
  - rewrite Structural.combine_app by exact Hp. reflexivity.
Qed.

Section Sort.

Variable Array_sort : forall T : Type, (T -> T -> float) -> list T -> list T.
Hypothesis Array_sort_Permutation :
  forall T cmp l, Permutation (Array_sort T cmp l) l.

Lemma sortCW_Permutation (p : Polygon) :
  wellFormed p ->
  Permutation (vertexPairs (sortCW Array_sort p)) (vertexPairs p).
Proof.
  intros Hwf. unfold wellFormed in Hwf.
  assert (HX : skipn (length (_X p)) (_X p) = []) by apply skipn_all.
  assert (HY : skipn (length (_X p)) (_Y p) = [])
    by (rewrite Hwf; apply skipn_all).
  unfold sortCW, vertexPairs, size; simpl.
  rewrite HX, HY, !app_nil_r.
  set (z := map _ (seq 0 (length (_X p)))).
  assert (Hz : map (fun a => (SortCW.x a, SortCW.y a)) z = combine (_X p) (_Y p)).
  { unfold z. rewrite map_map. simpl. now apply map_get_pairs. }
  assert (Hc : forall l : list SortCW.AngleZipped,
             combine (map SortCW.x l) (map SortCW.y l)
             = map (fun a => (SortCW.x a, SortCW.y a)) l).
  { induction l; simpl; congruence. }
  rewrite Hc, <- Hz. apply Permutation_map, Array_sort_Permutation.
Qed.

End Sort.

End UnionFacts.

(** X20.  When [union] returns a polygon, its vertices are those of the
    intersection of the two trimmed polygons and those of the two trimmed
    polygons, in some order: none is added and none is lost. *)
Theorem union_is_made_of_the_intersection_and_the_trimmed_polygons :
  forall (Array_sort : forall T : Type, (T -> T -> float) -> list T -> list T),
    (forall T cmp l, Permutation (Array_sort T cmp l) l) ->
    forall this xi_polygon r : Polygon,
      wellFormed this -> wellFormed xi_polygon ->
      union Array_sort this xi_polygon = Some r ->
      exists _this _ipolygon _intersect,
        union_trimmed this xi_polygon = Some (_this, _ipolygon)
        /\ Intersect.intersect _this _ipolygon = Some _intersect
        /\ Permutation (vertexPairs r)
                       (vertexPairs _intersect ++ vertexPairs _this
                          ++ vertexPairs _ipolygon).
Proof.
  intros Array_sort Hsort this q r Hwf Hwfq H. unfold union in H.
  destruct (union_trimmed this q) as [[t c]|] eqn:Et; [|discriminate].
  destruct (Intersect.intersect t c) as [i|] eqn:Ei; [|discriminate].
  exists t, c, i. split; [reflexivity|]. split; [exact Ei|].
  assert (Hwft : wellFormed t /\ wellFormed c).
  { unfold union_trimmed in Et.
    destruct (slice this 0 (size this)) as [t0|] eqn:E1; [|discriminate].
    destruct (slice q 0 (size q)) as [c0|] eqn:E2; [|discriminate].
    inversion Et; subst.
    pose proof (UnionFacts.slice_wellFormed _ _ _ _ Hwf E1).
    pose proof (UnionFacts.slice_wellFormed _ _ _ _ Hwfq E2).
    split; apply UnionFacts.removeInside_wellFormed; assumption. }
  destruct Hwft as [Hwft Hwfc].
  assert (Hwfi : wellFormed i).
  { unfold Intersect.intersect in Ei.
    apply UnionFacts.Polygon_point_wellFormed in Ei. apply Ei. }
  set (i1 := insertPolygon i (size t) t) in *.
  set (i2 := insertPolygon i1 (size c) c) in *.
  assert (Hwf1 : wellFormed i1)
    by (apply UnionFacts.insertPolygon_wellFormed; assumption).
  assert (Hwf2 : wellFormed i2)
    by (apply UnionFacts.insertPolygon_wellFormed; assumption).
  unfold Polygon_array in H.
  destruct (_ && _); [|discriminate]. inversion H; subst r; clear H.
  change (vertexPairs {| _X := _X (sortCW Array_sort i2);
                         _Y := _Y (sortCW Array_sort i2);
                         accuracy := 1e-10 |})
    with (vertexPairs (sortCW Array_sort i2)).
  rewrite (UnionFacts.sortCW_Permutation Array_sort Hsort i2 Hwf2).
  unfold i2. rewrite UnionFacts.insertPolygon_Permutation by assumption.
  unfold i1. rewrite UnionFacts.insertPolygon_Permutation by assumption.
  rewrite <- app_assoc. reflexivity.
Qed.

(** The union of the README, sorted with the insertion sort. *)
Lemma union_is_made_of_the_intersection_and_the_trimmed_polygons_witness :
  exists r _this _ipolygon _intersect,
    union insertion_sort readmeSubject readmeClipper = Some r
    /\ union_trimmed readmeSubject readmeClipper = Some (_this, _ipolygon)
    /\ Intersect.intersect _this _ipolygon = Some _intersect
    /\ Permutation (vertexPairs r)
                   (vertexPairs _intersect ++ vertexPairs _this
                      ++ vertexPairs _ipolygon).
Proof.
  destruct (union insertion_sort readmeSubject readmeClipper) as [r|] eqn:E;
    [|vm_compute in E; discriminate E].
  destruct (union_is_made_of_the_intersection_and_the_trimmed_polygons
              insertion_sort insertion_sort_Permutation
              readmeSubject readmeClipper r eq_refl eq_refl E)
    as (t & c & i & H1 & H2 & H3).
  exists r, t, c, i. auto.
Defined.

(** ** simplify in doubles: what it keeps

    Much of what [simplify] does rests on one fact only: the squared
    tolerance is not below zero. *)

(** [l1] is [l2] with some elements left out. *)
Inductive Subseq {T : Type} : list T -> list T -> Prop :=
| Subseq_nil : Subseq [] []
| Subseq_skip : forall x l1 l2, Subseq l1 l2 -> Subseq l1 (x :: l2)
| Subseq_keep : forall x l1 l2, Subseq l1 l2 -> Subseq (x :: l1) (x :: l2).

Module SubseqFacts.

Lemma Subseq_refl {T : Type} (l : list T) : Subseq l l.
Proof. induction l; [apply Subseq_nil | apply Subseq_keep; auto]. Qed.

Lemma Subseq_nil_l {T : Type} (l : list T) : Subseq [] l.
Proof. induction l; [apply Subseq_nil | apply Subseq_skip; auto]. Qed.

Lemma Subseq_app {T : Type} (a a' b b' : list T) :
  Subseq a a' -> Subseq b b' -> Subseq (a ++ b) (a' ++ b').
Proof.
  induction 1; intros Hb; simpl; auto;
    [apply Subseq_skip | apply Subseq_keep]; auto.
Qed.

Lemma Subseq_trans {T : Type} (a b c : list T) :
  Subseq a b -> Subseq b c -> Subseq a c.
Proof.
  intros Hab Hbc. revert a Hab.
  induction Hbc as [|x b c Hbc IH|x b c Hbc IH]; intros a Hab; auto.
  - apply Subseq_skip. auto.
  - inversion Hab; subst; [apply Subseq_skip | apply Subseq_keep]; auto.
Qed.

Lemma Subseq_app_r {T : Type} (a b c : list T) :
  Subseq a b -> Subseq a (b ++ c).
Proof.
  intros H. rewrite <- (app_nil_r a). apply Subseq_app; auto.
  apply Subseq_nil_l.
Qed.

Lemma Subseq_length {T : Type} (a b : list T) :
  Subseq a b -> (length a <= length b)%nat.
Proof. induction 1; simpl; lia. Qed.

Lemma last_default {T : Type} (l : list T) (d d' : T) :
  l <> [] -> last l d = last l d'.
Proof.
  induction l as [|x l IH]; intros H; [congruence|].
  destruct l as [|y l]; [reflexivity|]. apply IH. discriminate.
Qed.

End SubseqFacts.

Module SimplifyAny.
Import Simplify SimplifyFacts SubseqFacts.

Section Kept.

Context {R : Type} (A : Arith R).
Variable tol : R.
Hypothesis tol2_zero : ltb A (tol2 A tol) (zero A) = false.

Lemma reduce_dpL_any :
  forall fuel vs L a mid b Rr s e key res,
    vs = L ++ a :: mid ++ b :: Rr ->
    s = length L ->
    e = (s + 1 + length mid)%nat ->
    dpL A tol fuel a b mid = Some res ->
    (forall i, s < i < e -> marked key i = false)%nat ->
    exists key',
      _reduce A fuel tol vs s e key = Some key'
      /\ (forall i, (i <= s \/ e <= i)%nat -> marked key' i = marked key i)
      /\ map (at_ A vs) (filter (marked key') (seq (s + 1) (length mid))) = res.
Proof.
  induction fuel as [|fuel IH]; intros vs L a mid b Rr s e key res Hvs Hs He Hdp Hkey.
  - discriminate.
  - cbn [_reduce].
    destruct mid as [|p mid'].
    + simpl in Hdp. inversion Hdp; subst res.
      replace (e <=? s + 1)%nat with true
        by (symmetry; apply Nat.leb_le; simpl in He; lia).
      exists key. repeat split; auto.
    + replace (e <=? s + 1)%nat with false
        by (symmetry; apply Nat.leb_gt; simpl in He; lia).
      set (mid := p :: mid') in *.
      assert (Hfar := farthest_farL A L a mid b Rr). cbv zeta in Hfar.
      rewrite <- Hvs, <- Hs, <- He in Hfar. rewrite Hfar.
      cbn [dpL] in Hdp. fold mid in Hdp.
      destruct (farL A a b mid (zero A)) as [[[[pre m] post] D]|] eqn:Efar.
      * destruct (farL_split A _ _ _ _ _ _ _ _ Efar) as [Hmid HD].
        destruct (ltb A (tol2 A tol) D) eqn:Etol.
        -- fold (tol2 A tol). rewrite Etol.
           destruct (dpL A tol fuel a m pre) as [r1|] eqn:E1; [|discriminate].
           destruct (dpL A tol fuel m b post) as [r2|] eqn:E2; [|discriminate].
           inversion Hdp; subst res. clear Hdp.
           assert (Hlen : length mid = (length pre + 1 + length post)%nat).
           { rewrite Hmid, length_app. simpl. lia. }
           set (iMax := (s + 1 + length pre)%nat).
           destruct (IH vs L a pre m (post ++ b :: Rr) s iMax (iMax :: key) r1)
             as (key2 & Hred1 & Hout1 & Hin1); auto.
           { rewrite Hvs, Hmid. rewrite <- !app_assoc. reflexivity. }
           { intros i Hi. rewrite marked_cons.
             replace (i =? iMax)%nat with false
               by (symmetry; apply Nat.eqb_neq; lia).
             apply Hkey. unfold iMax in Hi. lia. }
           rewrite Hred1.
           destruct (IH vs (L ++ a :: pre) m post b Rr iMax e key2 r2)
             as (key3 & Hred2 & Hout2 & Hin2); auto.
           { rewrite Hvs, Hmid. rewrite <- !app_assoc. reflexivity. }
           { rewrite length_app. simpl. unfold iMax. lia. }
           { unfold iMax. lia. }
           { intros i Hi. rewrite Hout1 by lia. rewrite marked_cons.
             replace (i =? iMax)%nat with false
               by (symmetry; apply Nat.eqb_neq; lia).
             apply Hkey. unfold iMax in Hi. lia. }
           exists key3. split; auto. split.
           ++ intros i Hi. rewrite Hout2 by (unfold iMax; lia).
              rewrite Hout1 by (unfold iMax; lia).
              rewrite marked_cons.
              replace (i =? iMax)%nat with false
                by (symmetry; apply Nat.eqb_neq; unfold iMax; lia).
              reflexivity.
           ++ rewrite Hlen.
              replace (length pre + 1 + length post)%nat
                with (length pre + S (length post))%nat by lia.
              rewrite seq_app, filter_app, map_app. cbn [seq filter].
              replace (s + 1 + length pre)%nat with iMax by reflexivity.
              assert (Hm : marked key3 iMax = true).
              { rewrite Hout2 by lia. rewrite Hout1 by lia.
                rewrite marked_cons, Nat.eqb_refl. reflexivity. }
              rewrite Hm. cbn [map].
              assert (Hat : at_ A vs iMax = m).
              { rewrite Hvs, Hmid.
                replace (L ++ a :: (pre ++ m :: post) ++ b :: Rr)
                  with ((L ++ a :: pre) ++ m :: post ++ b :: Rr)
                  by (rewrite <- !app_assoc; reflexivity).
                replace iMax with (length (L ++ a :: pre))
                  by (rewrite length_app; simpl; unfold iMax; lia).
                apply at_middle. }
              rewrite Hat.
              rewrite (filter_marked_ext key3 key2 (s + 1) (length pre))
                by (intros i Hi; apply Hout2; unfold iMax; lia).
              rewrite Hin1.
              replace (S iMax) with (iMax + 1)%nat by lia.
              rewrite Hin2. reflexivity.
        -- fold (tol2 A tol). rewrite Etol. inversion Hdp; subst res.
           exists key. repeat split; auto.
           rewrite filter_unmarked; auto.
           intros i Hi. apply Hkey. lia.
      * fold (tol2 A tol). rewrite tol2_zero. inversion Hdp; subst res.
        exists key. repeat split; auto.
        rewrite filter_unmarked; auto.
        intros i Hi. apply Hkey. lia.
Qed.

Lemma keep_chain_any a mid b res :
  dpL A tol (length (a :: mid ++ [b])) a b mid = Some res ->
  keep A tol (a :: mid ++ [b]) = Some (a :: res ++ [b]).
Proof.
  intros Hdp. unfold keep.
  set (c := a :: mid ++ [b]) in *.
  assert (Hk : length c = S (S (length mid)))
    by (unfold c; simpl; rewrite length_app; simpl; lia).
  destruct (reduce_dpL_any (length c) c [] a mid b [] O
                       (S (length mid))
                       [(length c - 1)%nat; O] res)
    as (key & Hred & Hout & Hin); auto.
  { intros i Hi. rewrite !marked_cons.
    replace (i =? length c - 1)%nat with false
      by (symmetry; apply Nat.eqb_neq; lia).
    replace (i =? 0)%nat with false by (symmetry; apply Nat.eqb_neq; lia).
    reflexivity. }
  replace (length c - 1)%nat with (S (length mid)) by lia.
  replace (length c - 1)%nat with (S (length mid)) in Hred, Hout by lia.
  rewrite Hred. f_equal.
  rewrite Hk.
  replace (S (S (length mid)))
    with (1 + (length mid + 1))%nat by lia.
  rewrite seq_app, seq_app, !filter_app, !map_app.
  cbn [seq filter].
  change (0 + 1 + length mid)%nat with (S (length mid)).
  change (0 + 1)%nat with 1%nat in *.
  rewrite (Hout O) by lia.
  rewrite (Hout (S (length mid))) by lia.
  rewrite !marked_cons, !Nat.eqb_refl, orb_true_r. cbn [orb map app].
  rewrite Hin. f_equal. f_equal.
  unfold c.
  replace (a :: mid ++ [b]) with ((a :: mid) ++ [b]) by reflexivity.
  replace (S (length mid)) with (length (a :: mid)) by reflexivity.
  rewrite at_middle. reflexivity.
Qed.

(** The second pass keeps a subsequence of the vertices between the ends. *)
Lemma dpL_Subseq fuel :
  forall a b mid res, dpL A tol fuel a b mid = Some res -> Subseq res mid.
Proof.
  induction fuel as [|fuel IH]; intros a b mid res H; [discriminate|].
  destruct mid as [|p mid'].
  - inversion H. apply Subseq_nil.
  - rewrite dpL_step in H.
    destruct (farL A a b (p :: mid') (zero A)) as [[[[pre m] post] D]|] eqn:Efar.
    2:{ inversion H. apply Subseq_nil_l. }
    destruct (farL_split A _ _ _ _ _ _ _ _ Efar) as [Hmid _].
    destruct (ltb A (tol2 A tol) D).
    2:{ inversion H. apply Subseq_nil_l. }
    destruct (dpL A tol fuel a m pre) as [r1|] eqn:E1; [|discriminate].
    destruct (dpL A tol fuel m b post) as [r2|] eqn:E2; [|discriminate].
    inversion H; subst res. rewrite Hmid.
    apply Subseq_app; [eapply IH; eauto|].
    apply Subseq_keep. eapply IH; eauto.
Qed.

Lemma firstn_past {T : Type} (p : list T) (x : T) (sk : list T) (i : nat) :
  (length p < i)%nat ->
  firstn i (p ++ x :: sk) = p ++ x :: firstn (i - S (length p)) sk.
Proof.
  revert i. induction p as [|y p IH]; intros [|i] H; simpl in *; try lia.
  - rewrite Nat.sub_0_r. reflexivity.
  - f_equal. apply IH. lia.
Qed.

Lemma firstn_split (tv : list Vertex) (j i : nat) :
  (j < i)%nat -> (j < length tv)%nat ->
  exists mid, firstn i tv = firstn j tv ++ at_ A tv j :: mid.
Proof.
  intros Hji Hj.
  destruct (skipn j tv) as [|x sk] eqn:E.
  { apply (f_equal (@length _)) in E. rewrite length_skipn in E. simpl in E. lia. }
  assert (Htv : tv = firstn j tv ++ x :: sk)
    by (rewrite <- E; symmetry; apply firstn_skipn).
  assert (Hlen : length (firstn j tv) = j) by (rewrite length_firstn; lia).
  assert (Hat : at_ A tv j = x).
  { unfold at_.
    transitivity (nth j (firstn j tv ++ x :: sk) (undefined A, undefined A));
      [f_equal; exact Htv|].
    rewrite app_nth2 by lia. rewrite Hlen, Nat.sub_diag. reflexivity. }
  exists (firstn (i - S j) sk). rewrite Hat.
  transitivity (firstn i (firstn j tv ++ x :: sk)); [f_equal; exact Htv|].
  rewrite firstn_past by lia. rewrite Hlen. reflexivity.
Qed.

(** The first pass keeps a subsequence that starts with the first vertex
    and ends with the last. *)
Lemma radial_scan (tv : list Vertex) (n : nat) :
  forall a vs j,
    (a + n <= length tv)%nat -> (j < a)%nat ->
    (exists pre, vs = pre ++ [at_ A tv j] /\ Subseq pre (firstn j tv)) ->
    (exists tl, vs = at_ A tv 0 :: tl) ->
    let '(vs', j') := fold_left (radStep A tol tv) (seq a n) (vs, j) in
    (j' < a + n)%nat
    /\ (exists pre, vs' = pre ++ [at_ A tv j'] /\ Subseq pre (firstn j' tv))
    /\ (exists tl, vs' = at_ A tv 0 :: tl).
Proof.
  induction n as [|n IH]; intros a vs j Hlen Hj Hvs Hhd; cbn [seq fold_left].
  - rewrite Nat.add_0_r. auto.
  - cbn [radStep].
    replace (a + S n)%nat with (S a + n)%nat by lia.
    destruct (ltb A (_magDiff2vec A (at_ A tv a) (at_ A tv j)) (tol2 A tol)).
    + apply IH; auto; lia.
    + apply IH; try lia.
      * destruct Hvs as (pre & -> & Hpre).
        exists (pre ++ [at_ A tv j]). split; [reflexivity|].
        destruct (firstn_split tv j a Hj ltac:(lia)) as (mid & ->).
        apply Subseq_app; [exact Hpre|].
        apply Subseq_keep. apply Subseq_nil_l.
      * destruct Hhd as (tl & ->). exists (tl ++ [at_ A tv a]). reflexivity.
Qed.

Lemma radial_Subseq (v : Vertex) (tv : list Vertex) :
  exists tl, radial A (tol2 A tol) (v :: tv) = v :: tl
             /\ Subseq (v :: tl) (v :: tv)
             /\ last (v :: tl) v = last (v :: tv) v.
Proof.
  rewrite radial_fold.
  set (l := v :: tv). set (n := length l).
  assert (Hn : n = S (length tv)) by reflexivity.
  pose proof (radial_scan l (n - 1) 1 [at_ A l 0] 0 ltac:(lia) ltac:(lia)) as H.
  destruct (fold_left (radStep A tol l) (seq 1 (n - 1)) ([at_ A l 0], O))
    as [vs j].
  destruct H as (Hj & (pre & -> & Hpre) & (tl & Htl)).
  { exists []. split; [reflexivity | apply Subseq_nil]. }
  { exists []. reflexivity. }
  assert (Hlast : l = firstn (n - 1) l ++ [at_ A l (n - 1)]).
  { rewrite <- (firstn_skipn (n - 1) l) at 1. f_equal.
    destruct (firstn_split l (n - 1) n ltac:(lia) ltac:(lia)) as (mid & E).
    rewrite (firstn_all2 (n := n)) in E by (unfold n; lia).
    rewrite <- (firstn_skipn (n - 1) l) in E at 1.
    apply app_inv_head in E. rewrite E.
    assert (Hm : length (skipn (n - 1) l) = 1%nat)
      by (rewrite length_skipn; unfold n; lia).
    rewrite E in Hm. simpl in Hm. destruct mid; [reflexivity | simpl in Hm; lia]. }
  assert (Hv : at_ A l 0 = v) by reflexivity.
  rewrite Hv in Htl.
  assert (Hend : last l v = at_ A l (n - 1)).
  { pose proof (last_last (firstn (n - 1) l) (at_ A l (n - 1)) v) as G.
    rewrite <- Hlast in G. exact G. }
  destruct (Nat.ltb_spec j (n - 1)) as [Hlt|Hge].
  - exists (tl ++ [at_ A l (n - 1)]). rewrite Htl. split; [reflexivity|].
    change (v :: tl ++ [at_ A l (n - 1)]) with ((v :: tl) ++ [at_ A l (n - 1)]).
    split.
    + assert (G : Subseq ((v :: tl) ++ [at_ A l (n - 1)])
                         (firstn (n - 1) l ++ [at_ A l (n - 1)])).
      { apply Subseq_app; [|apply Subseq_refl]. rewrite <- Htl.
        destruct (firstn_split l j (n - 1) Hlt ltac:(lia)) as (mid & ->).
        apply Subseq_app; [exact Hpre|]. apply Subseq_keep. apply Subseq_nil_l. }
      rewrite <- Hlast in G. exact G.
    + rewrite last_last. symmetry. exact Hend.
  - assert (j = (n - 1)%nat) by lia. subst j.
    exists tl. split; [exact Htl|]. rewrite <- Htl. split.
    + assert (G : Subseq (pre ++ [at_ A l (n - 1)])
                         (firstn (n - 1) l ++ [at_ A l (n - 1)]))
        by (apply Subseq_app; [exact Hpre | apply Subseq_refl]).
      rewrite <- Hlast in G. exact G.
    + rewrite last_last. symmetry. exact Hend.
Qed.

(** [simplify] on a list that is not empty returns a subsequence of it with
    the same first and the same last element. *)
Lemma simplifyVertices_Subseq (t : R) (v : Vertex) (tv : list Vertex) :
  orZero A t = tol ->
  exists tl, simplifyVertices A t (v :: tv) = Some (v :: tl)
             /\ Subseq (v :: tl) (v :: tv)
             /\ last (v :: tl) v = last (v :: tv) v.
Proof.
  intros Ht. rewrite (simplifyVertices_keep A tol t v tv Ht).
  destruct (radial_Subseq v tv) as (c & -> & Hsub & Hlast).
  destruct c as [|b mid] using rev_ind.
  - exists []. rewrite keep_single. auto.
  - clear IHmid.
    destruct (dpL_total A tol (length (v :: mid ++ [b])) v b mid) as (res & Hres).
    { simpl. rewrite length_app. simpl. lia. }
    exists (res ++ [b]). rewrite (keep_chain_any v mid b res Hres).
    split; [reflexivity|]. split.
    + apply (Subseq_trans _ (v :: mid ++ [b])); [|exact Hsub].
      apply Subseq_keep. apply Subseq_app; [|apply Subseq_refl].
      eapply dpL_Subseq; eauto.
    + rewrite <- Hlast.
      change (v :: res ++ [b]) with ((v :: res) ++ [b]).
      change (v :: mid ++ [b]) with ((v :: mid) ++ [b]).
      rewrite !last_last. reflexivity.
Qed.

End Kept.

End SimplifyAny.

(** X22.  In doubles, for every tolerance, [simplify] returns on every polygon
    with a vertex; what it returns is a subsequence of the vertices it was
    given, with the same first and the same last vertex. *)
Theorem simplify_keeps_a_subsequence_with_both_ends :
  forall (this : Polygon) (xi_tolerance : float),
    wellFormed this -> (0 < size this)%nat ->
    exists q,
      Simplify.simplify this xi_tolerance = Some q
      /\ wellFormed q
      /\ Subseq (vertexPairs q) (vertexPairs this)
      /\ hd_error (vertexPairs q) = hd_error (vertexPairs this)
      /\ last (vertexPairs q) (nan, nan) = last (vertexPairs this) (nan, nan).
Proof.
  intros this t Hwf Hpos. unfold Simplify.simplify.
  rewrite (Structural.toSet_combine _ _ Hwf). fold (vertexPairs this).
  assert (Hne : vertexPairs this <> []).
  { intros E. apply (f_equal (@length _)) in E.
    unfold vertexPairs in E. rewrite length_combine in E.
    unfold wellFormed in Hwf. unfold size in Hpos. simpl in E. lia. }
  destruct (vertexPairs this) as [|v tv]; [congruence|].
  destruct (SimplifyAny.simplifyVertices_Subseq Simplify.floatArith
              (Simplify.orZero Simplify.floatArith t)
              (FloatOrder.square_not_negative _) t v tv eq_refl)
    as (tl & E & Hsub & Hlast).
  exists (mkPolygon (map fst (v :: tl)) (map snd (v :: tl)) (accuracy this)).
  split.
  { exact (f_equal
             (fun o : option (list (float * float)) =>
                match o with
                | Some v0 => Some (mkPolygon (map fst v0) (map snd v0)
                                             (accuracy this))
                | None => None
                end) E). }
  change (mkPolygon (map fst (v :: tl)) (map snd (v :: tl)) (accuracy this))
    with (RemoveInside.ofPairs (v :: tl) (accuracy this)).
  rewrite RemoveInside.vertexPairs_ofPairs.
  split; [unfold wellFormed; simpl; rewrite !length_map; reflexivity|].
  split; [exact Hsub|]. split; [reflexivity|].
  rewrite (SubseqFacts.last_default (v :: tl) (nan, nan) v) by discriminate.
  rewrite (SubseqFacts.last_default (v :: tv) (nan, nan) v) by discriminate.
  exact Hlast.
Qed.

Lemma simplify_keeps_a_subsequence_with_both_ends_witness :
  exists q,
    Simplify.simplify square10 1 = Some q
    /\ wellFormed q
    /\ Subseq (vertexPairs q) (vertexPairs square10)
    /\ hd_error (vertexPairs q) = hd_error (vertexPairs square10)
    /\ last (vertexPairs q) (nan, nan) = last (vertexPairs square10) (nan, nan).
Proof.
  apply (simplify_keeps_a_subsequence_with_both_ends square10 1).
  - reflexivity.
  - vm_compute. lia.
Defined.

(** ** simplify in doubles: applied twice

    A second run of [simplify] returns what the first run returned where
    the numbers that the two stages compare are in order: where the squared
    distance [_dist] of a vertex from a chord, as [_reduce] computes it, is a
    number and is not above the squared distances of the vertex from the two
    ends of the chord, as the radial filter computes them.  Overflow and
    rounding can break this, and then a second run can remove more. *)

Module SimplifyOrdered.
Import Simplify SimplifyFacts SubseqFacts.

Section Ordered.

Context {R : Type} (A : Arith R).
Variable tol : R.

(** Facts of the order that doubles obey. *)
Hypothesis tol2_zero : ltb A (tol2 A tol) (zero A) = false.
Hypothesis leb_trans :
  forall x y z, leb A x y = true -> leb A y z = true -> leb A x z = true.
Hypothesis leb_total :
  forall x y, leb A x x = true -> leb A y y = true ->
              leb A x y = false -> leb A y x = true.
Hypothesis leb_left : forall x y, leb A x y = true -> leb A x x = true.
Hypothesis ltb_leb : forall x y, ltb A x y = true -> leb A x y = true.
Hypothesis ltb_leb_false : forall x y, ltb A x y = true -> leb A y x = false.

(** The distance of [v] from the chord [a - b] is not above its distances
    from [a] and from [b]. *)
Definition near (a v b : @Vertex R) : Prop :=
  leb A (distance A v a b) (_magDiff2vec A v a) = true
  /\ leb A (distance A v a b) (_magDiff2vec A b v) = true.

(** The vertices given to [simplify]: every three of them, taken in their
    order, are so. *)
Variable V : list (@Vertex R).
Hypothesis V_near : forall a v b, Subseq [a; v; b] V -> near a v b.

Lemma chord_near a mid b v :
  Subseq (a :: mid ++ [b]) V -> In v mid -> near a v b.
Proof.
  intros HS Hin. apply V_near.
  apply in_split in Hin. destruct Hin as (l1 & l2 & ->).
  apply (Subseq_trans _ (a :: (l1 ++ v :: l2) ++ [b])); [|exact HS].
  apply Subseq_keep. rewrite <- app_assoc.
  apply (Subseq_app [] l1 [v; b] ((v :: l2) ++ [b])); [apply Subseq_nil_l|].
  apply Subseq_keep.
  apply (Subseq_app [] l2 [b] [b]); [apply Subseq_nil_l | apply Subseq_refl].
Qed.

Lemma chord_left a pre m post b :
  Subseq (a :: (pre ++ m :: post) ++ [b]) V -> Subseq (a :: pre ++ [m]) V.
Proof.
  intros HS. apply (Subseq_trans _ (a :: (pre ++ m :: post) ++ [b]));
    [|exact HS].
  apply Subseq_keep. rewrite <- app_assoc.
  apply Subseq_app; [apply Subseq_refl|].
  apply Subseq_keep. apply Subseq_nil_l.
Qed.

Lemma chord_right a pre m post b :
  Subseq (a :: (pre ++ m :: post) ++ [b]) V -> Subseq (m :: post ++ [b]) V.
Proof.
  intros HS. apply (Subseq_trans _ (a :: (pre ++ m :: post) ++ [b]));
    [|exact HS].
  apply Subseq_skip. rewrite <- app_assoc.
  apply (Subseq_app [] pre (m :: post ++ [b]) ((m :: post) ++ [b]));
    [apply Subseq_nil_l | apply Subseq_refl].
Qed.

(** *** The order facts used below *)

Lemma leb_false_le x y z :
  leb A x y = false -> leb A z y = true -> leb A x z = false.
Proof.
  intros Hxy Hzy. destruct (leb A x z) eqn:E; auto.
  rewrite (leb_trans _ _ _ E Hzy) in Hxy. discriminate.
Qed.

Lemma leb_false_false x y z :
  leb A x x = true -> leb A y y = true ->
  leb A x y = false -> leb A y z = false -> leb A x z = false.
Proof.
  intros Hx Hy Hxy Hyz. destruct (leb A x z) eqn:E; auto.
  apply leb_total in Hxy; auto.
  rewrite (leb_trans _ _ _ Hxy E) in Hyz. discriminate.
Qed.

(** A vertex farther from the chord than the tolerance is at least the
    tolerance away from anything that is at least as far as the chord. *)
Lemma beyond_tolerance D x :
  ltb A (tol2 A tol) D = true -> leb A D x = true ->
  ltb A x (tol2 A tol) = false.
Proof.
  intros H1 H2. destruct (ltb A x (tol2 A tol)) eqn:E; auto.
  apply ltb_leb in E. apply ltb_leb_false in H1.
  rewrite (leb_trans _ _ _ H2 E) in H1. discriminate.
Qed.

(** *** The scan [farL] picks the first vertex of greatest distance *)

Lemma farL_some a b mid M pre m post D :
  (forall q, In q mid ->
             leb A (distance A q a b) (distance A q a b) = true) ->
  farL A a b mid M = Some (pre, m, post, D) ->
  leb A D M = false
  /\ (forall p, In p pre -> leb A D (distance A p a b) = false)
  /\ (forall q, In q post -> leb A (distance A q a b) D = true).
Proof.
  revert M pre. induction mid as [|p rest IH]; intros M pre Hd H; simpl in H.
  - discriminate.
  - assert (Hd' : forall q, In q rest ->
                            leb A (distance A q a b) (distance A q a b) = true)
      by (intros q Hq; apply Hd; now right).
    destruct (leb A (distance A p a b) M) eqn:E.
    + destruct (farL A a b rest M) as [[[[pre' m'] post'] D']|] eqn:Er;
        inversion H; subst. clear H.
      destruct (IH _ _ Hd' Er) as (H1 & H2 & H3). repeat split; auto.
      intros q [<-|Hq]; auto. eapply leb_false_le; eauto.
    + destruct (farL A a b rest (distance A p a b))
        as [[[[pre' m'] post'] D']|] eqn:Er;
        inversion H; subst; clear H.
      * destruct (IH _ _ Hd' Er) as (H1 & H2 & H3).
        destruct (farL_split A _ _ _ _ _ _ _ _ Er) as [Hrest HD].
        split; [|split; [|exact H3]].
        -- apply (leb_false_false _ (distance A p a b)); auto.
           ++ rewrite HD. apply Hd'. rewrite Hrest.
              apply in_or_app. right. now left.
           ++ apply Hd. now left.
        -- intros q [<-|Hq]; auto.
      * split; [exact E|]. split; [intros q []|].
        apply farL_none. exact Er.
Qed.

(** *** Running [dpL] on what it kept keeps all of it *)

Lemma dpL_idempotent fuel :
  forall a b mid res,
    Subseq (a :: mid ++ [b]) V ->
    dpL A tol fuel a b mid = Some res ->
    forall fuel', (length res < fuel')%nat -> dpL A tol fuel' a b res = Some res.
Proof.
  induction fuel as [|fuel IH]; intros a b mid res HS H fuel' Hf; [discriminate|].
  destruct fuel' as [|fuel']; [lia|].
  destruct mid as [|p mid'].
  - inversion H. reflexivity.
  - rewrite dpL_step in H.
    destruct (farL A a b (p :: mid') (zero A)) as [[[[pre m] post] D]|] eqn:Efar.
    2:{ inversion H. reflexivity. }
    destruct (farL_split A _ _ _ _ _ _ _ _ Efar) as [Hmid HD].
    destruct (farL_some _ _ _ _ _ _ _ _
                (fun q Hq => leb_left _ _ (proj1 (chord_near _ _ _ q HS Hq)))
                Efar) as (H0 & Hpre & Hpost).
    destruct (ltb A (tol2 A tol) D) eqn:Etol.
    2:{ inversion H. reflexivity. }
    destruct (dpL A tol fuel a m pre) as [r1|] eqn:E1; [|discriminate].
    destruct (dpL A tol fuel m b post) as [r2|] eqn:E2; [|discriminate].
    inversion H; subst res. clear H.
    rewrite Hmid in HS.
    assert (Hfar : farL A a b (r1 ++ m :: r2) (zero A) = Some (r1, m, r2, D)).
    { rewrite HD. apply farL_intro.
      - rewrite <- HD. exact H0.
      - intros q Hq. rewrite <- HD. apply Hpre. eapply dpL_incl; eauto.
      - intros q Hq. rewrite <- HD. apply Hpost. eapply dpL_incl; eauto. }
    rewrite length_app in Hf. simpl in Hf.
    assert (Hgo : forall l, l = r1 ++ m :: r2 ->
                            dpL A tol (S fuel') a b l = Some (r1 ++ m :: r2)).
    { intros l Hl. destruct l as [|x l]; [destruct r1; discriminate|].
      rewrite dpL_step, Hl, Hfar, Etol.
      rewrite (IH _ _ _ _ (chord_left _ _ _ _ _ HS) E1) by lia.
      rewrite (IH _ _ _ _ (chord_right _ _ _ _ _ HS) E2) by lia.
      reflexivity. }
    apply Hgo. reflexivity.
Qed.

(** *** Consecutive kept vertices are at least the tolerance apart *)

Lemma dpL_farPairs fuel :
  forall a b mid res,
    Subseq (a :: mid ++ [b]) V ->
    dpL A tol fuel a b mid = Some res -> res <> [] ->
    farPairs A tol (a :: res ++ [b]).
Proof.
  induction fuel as [|fuel IH]; intros a b mid res HS H Hne; [discriminate|].
  destruct mid as [|p mid'].
  - inversion H. congruence.
  - rewrite dpL_step in H.
    destruct (farL A a b (p :: mid') (zero A)) as [[[[pre m] post] D]|] eqn:Efar.
    2:{ inversion H. congruence. }
    destruct (farL_split A _ _ _ _ _ _ _ _ Efar) as [Hmid HD].
    destruct (ltb A (tol2 A tol) D) eqn:Etol.
    2:{ inversion H. congruence. }
    destruct (dpL A tol fuel a m pre) as [r1|] eqn:E1; [|discriminate].
    destruct (dpL A tol fuel m b post) as [r2|] eqn:E2; [|discriminate].
    inversion H; subst res. clear H.
    assert (Hm : near a m b).
    { apply (chord_near a (p :: mid') b m HS). rewrite Hmid.
      apply in_or_app. right. now left. }
    rewrite Hmid in HS.
    assert (Hleft : farPairs A tol ((a :: r1) ++ [m])).
    { destruct r1 as [|x r1].
      - simpl. split; auto. eapply beyond_tolerance; eauto.
        rewrite HD. apply Hm.
      - apply (IH _ _ _ _ (chord_left _ _ _ _ _ HS) E1). discriminate. }
    assert (Hright : farPairs A tol (m :: r2 ++ [b])).
    { destruct r2 as [|x r2].
      - simpl. split; auto. eapply beyond_tolerance; eauto.
        rewrite HD. apply Hm.
      - apply (IH _ _ _ _ (chord_right _ _ _ _ _ HS) E2). discriminate. }
    replace (a :: (r1 ++ m :: r2) ++ [b]) with ((a :: r1) ++ m :: r2 ++ [b])
      by (simpl; rewrite <- app_assoc; reflexivity).
    apply farPairs_join; auto.
Qed.

Lemma dpL_farPairs_kept fuel a b mid res :
  Subseq (a :: mid ++ [b]) V ->
  dpL A tol fuel a b mid = Some res -> farPairs A tol (a :: res).
Proof.
  intros HS H. destruct res as [|x res]; [exact I|].
  apply farPairs_init with (z := b).
  apply (dpL_farPairs fuel a b mid (x :: res) HS H). discriminate.
Qed.

(** *** Putting the two stages together *)

(** [simplify] returns on the vertices [V], and applying it to its result
    returns the result. *)
Lemma simplifyVertices_twice t v vs :
  orZero A t = tol -> V = v :: vs ->
  exists r, simplifyVertices A t (v :: vs) = Some r
            /\ simplifyVertices A t r = Some r.
Proof.
  intros Ht HV.
  rewrite (simplifyVertices_keep A tol t v vs Ht).
  destruct (SimplifyAny.radial_Subseq A tol v vs) as (c & -> & Hsub & _).
  rewrite <- HV in Hsub.
  destruct c as [|b mid] using rev_ind.
  - exists [v]. rewrite keep_single. split; reflexivity.
  - clear IHmid.
    destruct (dpL_total A tol (length (v :: mid ++ [b])) v b mid) as (res & Hres).
    { simpl. rewrite length_app. simpl. lia. }
    exists (v :: res ++ [b]). split.
    + apply SimplifyAny.keep_chain_any; auto.
    + rewrite (simplifyVertices_keep A tol t v (res ++ [b]) Ht).
      replace (v :: res ++ [b]) with ((v :: res) ++ [b]) by reflexivity.
      rewrite radial_far; [|discriminate|eapply dpL_farPairs_kept; eauto].
      cbn [app]. apply SimplifyAny.keep_chain_any; auto.
      eapply dpL_idempotent; eauto.
      simpl. rewrite length_app. simpl. lia.
Qed.

End Ordered.

(** *** Doubles obey the order facts *)

Lemma leb_total (x y : float) :
  (x <=? x) = true -> (y <=? y) = true -> (x <=? y) = false -> (y <=? x) = true.
Proof.
  intros Hx Hy Hxy.
  apply FloatOrder.ltb_false_leb.
  - apply (FloatOrder.leb_not_nan _ _ Hx).
  - apply (FloatOrder.leb_not_nan _ _ Hy).
  - destruct (x <? y) eqn:E; auto.
    rewrite (FloatOrder.ltb_leb _ _ E) in Hxy. discriminate.
Qed.

Lemma leb_left (x y : float) : (x <=? y) = true -> (x <=? x) = true.
Proof.
  intros H. apply FloatOrder.leb_refl. apply (FloatOrder.leb_not_nan _ _ H).
Qed.

End SimplifyOrdered.

(** [_dist], the squared distance of [v] from the chord [a - b] as [_reduce]
    computes it, is not above the squared distance of [v] from [a] nor that
    of [b] from [v], as the radial filter computes them.  (A [_dist] that is
    [NaN] is not.) *)
Definition nearerThanEnds (a v b : float * float) : bool :=
  let _dist := Simplify.distance Simplify.floatArith v a b in
  (_dist <=? Simplify._magDiff2vec Simplify.floatArith v a)
  && (_dist <=? Simplify._magDiff2vec Simplify.floatArith b v).

(** [nearerThanEnds a v b] for every [v] and every later [b] in [l]. *)
Fixpoint chordsFrom (a : float * float) (l : list (float * float)) : bool :=
  match l with
  | [] => true
  | v :: r => forallb (nearerThanEnds a v) r && chordsFrom a r
  end.

(** [nearerThanEnds a v b] for every three vertices [a], [v], [b] taken in
    this order from [l]. *)
Fixpoint distancesOrdered (l : list (float * float)) : bool :=
  match l with
  | [] => true
  | a :: r => chordsFrom a r && distancesOrdered r
  end.

Module DistancesOrdered.

Lemma Subseq_In {T : Type} (b : T) (l : list T) : Subseq [b] l -> In b l.
Proof.
  induction l as [|x l IH]; intros H; inversion H; subst.
  - right. auto.
  - now left.
Qed.

Lemma chordsFrom_sound a l v b :
  chordsFrom a l = true -> Subseq [v; b] l -> nearerThanEnds a v b = true.
Proof.
  induction l as [|x l IH]; intros H HS; [inversion HS|].
  cbn [chordsFrom] in H. apply andb_true_iff in H. destruct H as [Hx Hl].
  inversion HS; subst.
  - auto.
  - apply (proj1 (forallb_forall _ _) Hx). apply Subseq_In. assumption.
Qed.

Lemma sound l a v b :
  distancesOrdered l = true -> Subseq [a; v; b] l -> nearerThanEnds a v b = true.
Proof.
  induction l as [|x l IH]; intros H HS; [inversion HS|].
  cbn [distancesOrdered] in H. apply andb_true_iff in H. destruct H as [Hx Hl].
  inversion HS; subst.
  - auto.
  - eapply chordsFrom_sound; eauto.
Qed.

Lemma In_Subseq {T : Type} (b : T) (l : list T) : In b l -> Subseq [b] l.
Proof.
  induction l as [|x l IH]; intros H; [destruct H|].
  destruct H as [->|H].
  - apply Subseq_keep. apply SubseqFacts.Subseq_nil_l.
  - apply Subseq_skip. auto.
Qed.

Lemma chordsFrom_complete a l :
  (forall v b, Subseq [v; b] l -> nearerThanEnds a v b = true) ->
  chordsFrom a l = true.
Proof.
  induction l as [|x l IH]; intros H; [reflexivity|].
  cbn [chordsFrom]. apply andb_true_iff. split.
  - apply forallb_forall. intros b Hb. apply H.
    apply Subseq_keep. apply In_Subseq. exact Hb.
  - apply IH. intros v b HS. apply H. apply Subseq_skip. exact HS.
Qed.

(** [distancesOrdered] tests just this. *)
Lemma complete l :
  (forall a v b, Subseq [a; v; b] l -> nearerThanEnds a v b = true) ->
  distancesOrdered l = true.
Proof.
  induction l as [|x l IH]; intros H; [reflexivity|].
  cbn [distancesOrdered]. apply andb_true_iff. split.
  - apply chordsFrom_complete. intros v b HS. apply H.
    apply Subseq_keep. exact HS.
  - apply IH. intros a v b HS. apply H. apply Subseq_skip. exact HS.
Qed.

(** [simplify] on a polygon is [simplifyVertices] on its vertices. *)
Lemma simplify_vertexPairs (this : Polygon) (t : float)
      (r : list (float * float)) :
  wellFormed this ->
  Simplify.simplifyVertices Simplify.floatArith t (vertexPairs this) = Some r ->
  Simplify.simplify this t = Some (RemoveInside.ofPairs r (accuracy this)).
Proof.
  intros Hwf H. unfold Simplify.simplify.
  rewrite (Structural.toSet_combine _ _ Hwf). fold (vertexPairs this).
  rewrite H. reflexivity.
Qed.

End DistancesOrdered.

(** The pentagon [(0,H), (-2H,H), (-H,0), (0,2H), (2H,0)] with [H = 1e200]:
    the squares of its coordinate differences overflow. *)
Definition overflowPentagon : Polygon :=
  mkPolygon [0; (-2e200)%float; (-1e200)%float; 0; 2e200]
            [1e200; 1e200; 0; 2e200; 0] 1e-10.

(** C7, as stated, fails in the arithmetic of the engine.  With tolerance
    1, [simplify] keeps four of the five vertices of [overflowPentagon],
    and [simplify] on these four keeps three.  In the first run the
    distances from the chord (0,H)-(2H,0) are [Infinity], [NaN] and
    [Infinity]; the comparison [_dist <= _maxDistSqr] fails against [NaN],
    so the last vertex, (0,2H), becomes the split vertex.  In the second
    run the vertex that gave [NaN] is gone, the split vertex is (-2H,H), and
    the distance of (0,2H) from the chord (-2H,H)-(2H,0) is [NaN], which
    is not above the tolerance. *)
Lemma simplify_twice_differs_on_overflow :
  Simplify.simplify overflowPentagon 1
  = Some (mkPolygon [0; (-2e200)%float; 0; 2e200] [1e200; 1e200; 2e200; 0] 1e-10)
  /\ Simplify.simplify
       (mkPolygon [0; (-2e200)%float; 0; 2e200] [1e200; 1e200; 2e200; 0] 1e-10) 1
     = Some (mkPolygon [0; (-2e200)%float; 2e200] [1e200; 1e200; 0] 1e-10).
Proof. vm_compute. split; reflexivity. Qed.

(** Rounding alone has the same effect.  The vertices (6,4), (2,0), (8,0),
    (4,-4), (2,0), moved by 1e16 along both axes, where consecutive doubles
    are 2 apart: with tolerance 5 the first run keeps three vertices and
    the second run keeps two of them. *)
Example simplify_twice_differs_by_rounding :
  let p := mkPolygon
             [10000000000000006; 10000000000000002; 10000000000000008;
              10000000000000004; 10000000000000002]
             [10000000000000004; 10000000000000000; 10000000000000000;
              9999999999999996; 10000000000000000] 1e-10 in
  let q := mkPolygon
             [10000000000000006; 10000000000000008; 10000000000000002]
             [10000000000000004; 10000000000000000; 10000000000000000] 1e-10 in
  Simplify.simplify p 5 = Some q
  /\ Simplify.simplify q 5
     = Some (mkPolygon [10000000000000006; 10000000000000002]
                       [10000000000000004; 10000000000000000] 1e-10).
Proof. vm_compute. split; reflexivity. Qed.

(** On neither polygon are the distances in order. *)
Example distances_are_not_ordered_where_simplify_twice_differs :
  distancesOrdered (vertexPairs overflowPentagon) = false
  /\ distancesOrdered
       (combine [10000000000000006; 10000000000000002; 10000000000000008;
                 10000000000000004; 10000000000000002]
                [10000000000000004; 10000000000000000; 10000000000000000;
                 9999999999999996; 10000000000000000]) = false.
Proof. vm_compute. split; reflexivity. Qed.

(** C7, as amended.  In doubles, for every tolerance, [simplify] returns on
    every polygon with a vertex, and applying it again with the same
    tolerance returns the same polygon, provided that for every three
    vertices [a], [v], [b] taken in this order from the polygon the squared
    distance of [v] from the chord [a - b], as [_reduce] computes it, is not
    above the squared distances of [v] from [a] and of [b] from [v]. *)
Theorem simplify_is_idempotent_where_the_distances_are_ordered :
  forall (this : Polygon) (xi_tolerance : float),
    wellFormed this -> (0 < size this)%nat ->
    distancesOrdered (vertexPairs this) = true ->
    exists q,
      Simplify.simplify this xi_tolerance = Some q
      /\ Simplify.simplify q xi_tolerance = Some q.
Proof.
  intros this t Hwf Hpos Hord.
  assert (Hne : vertexPairs this <> []).
  { intros E. apply (f_equal (@length _)) in E.
    unfold vertexPairs in E. rewrite length_combine in E.
    unfold wellFormed in Hwf. unfold size in Hpos. simpl in E. lia. }
  destruct (vertexPairs this) as [|v tv] eqn:EV; [congruence|].
  destruct (SimplifyOrdered.simplifyVertices_twice
              Simplify.floatArith
              (Simplify.orZero Simplify.floatArith t)
              (FloatOrder.square_not_negative _)
              FloatOrder.leb_trans SimplifyOrdered.leb_total
              SimplifyOrdered.leb_left FloatOrder.ltb_leb
              FloatOrder.ltb_leb_false (v :: tv)
              (fun a w b HS =>
                 proj1 (andb_true_iff _ _)
                       (DistancesOrdered.sound _ a w b Hord HS))
              t v tv eq_refl eq_refl)
    as (r & E1 & E2).
  exists (RemoveInside.ofPairs r (accuracy this)). split.
  - apply DistancesOrdered.simplify_vertexPairs; [exact Hwf|].
    rewrite EV. exact E1.
  - apply (DistancesOrdered.simplify_vertexPairs
             (RemoveInside.ofPairs r (accuracy this)) t r).
    + unfold wellFormed. simpl. rewrite !length_map. reflexivity.
    + rewrite RemoveInside.vertexPairs_ofPairs. exact E2.
Qed.

(** The square (0,0), (4,0), (4,4), (0,4) with three more vertices along
    its first side, a quarter above it or on it, and the tolerance 1:
    [simplify] returns the square, and the square again when applied to
    it. *)
Lemma simplify_is_idempotent_where_the_distances_are_ordered_witness :
  exists q,
    Simplify.simplify
      (mkPolygon [0; 1; 2; 3; 4; 4; 0] [0; 0.25; 0; 0.25; 0; 4; 4] 1e-10) 1
    = Some q
    /\ Simplify.simplify q 1 = Some q.
Proof.
  apply (simplify_is_idempotent_where_the_distances_are_ordered
           (mkPolygon [0; 1; 2; 3; 4; 4; 0] [0; 0.25; 0; 0.25; 0; 4; 4] 1e-10)
           1).
  - reflexivity.
  - vm_compute. lia.
  - vm_compute. reflexivity.
Defined.

(** In doubles the squared distance of (5,5) from the chord (0,0)-(8,6) is
    just above 1: with the tolerance 1, [simplify] keeps the three vertices
    (0,0), (5,5), (8,6), and keeps them again. *)
Example simplify_keeps_a_vertex_at_the_tolerance :
  Simplify.distance Simplify.floatArith (5, 5) (0, 0) (8, 6)
  = 1.0000000000000007
  /\ distancesOrdered [(0, 0); (5, 5); (8, 6)] = true
  /\ Simplify.simplify (mkPolygon [0; 5; 8] [0; 5; 6] 1e-10) 1
     = Some (mkPolygon [0; 5; 8] [0; 5; 6] 1e-10).
Proof. vm_compute. repeat split; reflexivity. Qed.

(** ** lineIntersect: the flag and the points *)

(** X23.  [lineIntersect] returns as many abscissas as ordinates, at most one
    point for each edge, and its flag tells whether it returns a point. *)
Theorem lineIntersect_flag_tells_whether_points_are_returned :
  forall (this : Polygon) (x1 y1 x2 y2 : float),
    let r := LineIntersect.lineIntersect this x1 y1 x2 y2 in
    length (LineIntersect.X r) = length (LineIntersect.Y r)
    /\ LineIntersect.FLAG r = negb (length (LineIntersect.X r) =? 0)%nat
    /\ (length (LineIntersect.X r) <= Nat.max 1 (size this))%nat.
Proof.
  intros this x1 y1 x2 y2. unfold LineIntersect.lineIntersect.
  assert (G : forall l r0,
             length (LineIntersect.X r0) = length (LineIntersect.Y r0) ->
             LineIntersect.FLAG r0
             = negb (length (LineIntersect.X r0) =? 0)%nat ->
             let r := fold_left
                        (fun r e =>
                           match LineIntersect.edgeResult this x1 y1 x2 y2 e with
                           | Some (px, py) =>
                               LineIntersect.mkResult
                                 true (LineIntersect.X r ++ [px])
                                 (LineIntersect.Y r ++ [py])
                           | None => r
                           end) l r0 in
             length (LineIntersect.X r) = length (LineIntersect.Y r)
             /\ LineIntersect.FLAG r
                = negb (length (LineIntersect.X r) =? 0)%nat
             /\ (length (LineIntersect.X r)
                 <= length (LineIntersect.X r0) + length l)%nat).
  { induction l as [|e l IH]; intros r0 H1 H2; cbn [fold_left].
    - rewrite Nat.add_0_r. auto.
    - destruct (LineIntersect.edgeResult this x1 y1 x2 y2 e) as [[px py]|].
      + destruct (IH (LineIntersect.mkResult
                        true (LineIntersect.X r0 ++ [px])
                        (LineIntersect.Y r0 ++ [py]))) as (H3 & H4 & H5).
        * cbn. rewrite !length_app, H1. reflexivity.
        * cbn. rewrite length_app. cbn.
          destruct (Nat.eqb_spec (length (LineIntersect.X r0) + 1) 0); [lia|].
          reflexivity.
        * cbn [LineIntersect.X] in H5. rewrite length_app in H5. cbn in *.
          repeat split; auto. lia.
      + destruct (IH r0 H1 H2) as (H3 & H4 & H5). cbn in *.
        repeat split; auto. lia. }
  destruct (G (LineIntersect.edges (length (_X this)))
              (LineIntersect.mkResult false [] []) eq_refl eq_refl)
    as (H1 & H2 & H3).
  repeat split; auto.
  assert (Hlen : length (LineIntersect.edges (length (_X this)))
                 = (length (_X this) - 1 + 1)%nat).
  { unfold LineIntersect.edges.
    rewrite length_app, length_map, length_seq. reflexivity. }
  rewrite Hlen in H3. cbn [LineIntersect.X length] in H3.
  unfold size. lia.
Qed.

(** ** on, maxSide, minSide and closest without the properties of the global object *)

(** X24.  Where the global object has no [_equal], [on] throws for every polygon
    and every point: the loop throws at its first edge, and on a polygon
    with fewer than two vertices the test of the closing edge does. *)
Theorem on_throws_on_every_polygon :
  forall (this : Polygon) (xi_x xi_y : float), on None this xi_x xi_y = None.
Proof.
  intros this x y. unfold on.
  destruct (length (_X this)) as [|[|n]]; try reflexivity.
Qed.

(** X25.  Where the global object has no [_safePythag], [maxSide] and [minSide]
    throw on every polygon, the one without vertices included, whose
    [_diff] has one entry; [closest] throws on every polygon with a vertex
    and returns [-1] on the polygon without vertices. *)
Theorem maxSide_minSide_and_closest_throw :
  forall (this : Polygon) (xi_x xi_y : float),
    maxSide None this = None
    /\ minSide None this = None
    /\ closest None this xi_x xi_y
       = if (size this =? 0)%nat then Some None else None.
Proof.
  intros this x y.
  assert (Hdiff : forall a b, _distance2 None (_diff a) b = None).
  { intros a b. unfold _diff, _distance2.
    destruct (skipn 1 _ ++ _) eqn:E; [|reflexivity].
    apply (f_equal (@length _)) in E. rewrite length_app in E. simpl in E. lia. }
  unfold maxSide, minSide, closest, size. rewrite !Hdiff.
  split; [reflexivity|]. split; [reflexivity|].
  destruct (_X this) as [|x0 X]; reflexivity.
Qed.

(** X26.  Where the global object does have an [_equal], [on] still never finds a
    point on the closing edge: after the loop [_i] is past the last vertex,
    the closing test reads [this._X[_i]], which is [undefined], and its
    cross term is a comparison with [NaN].  What [on] returns is what the
    loop over the other edges found. *)
Theorem on_never_finds_a_point_on_the_closing_edge :
  forall (_equal : float -> float -> bool) (this : Polygon) (xi_x xi_y : float),
    on (Some _equal) this xi_x xi_y
    = onEdges (Some _equal) this (orZero xi_x) (orZero xi_y)
              (seq 1 (length (_X this) - 1)).
Proof.
  intros _equal this x y. unfold on.
  destruct (onEdges _ _ _ _ _) as [[|]|]; try reflexivity.
  unfold _pointOnLine, get.
  rewrite (nth_overflow (_X this) (n := Nat.max 1 (length (_X this))) nan)
    by lia.
  rewrite FloatNaN.sub_nan_r, FloatNaN.mul_nan_r, FloatNaN.eqb_nan_l.
  reflexivity.
Qed.

(** ** remove with an array of indexes *)

(** Indexes that decrease strictly, the first of them below [bound]. *)
Fixpoint descending (bound : nat) (l : list nat) : Prop :=
  match l with
  | [] => True
  | i :: r => (i < bound)%nat /\ descending i r
  end.

Module RemoveIndexes.

(** The elements of [l], whose first element has index [k], without those
    whose index is in [idx]. *)
Fixpoint without {T : Type} (k : nat) (idx : list nat) (l : list T) : list T :=
  match l with
  | [] => []
  | x :: r =>
      if existsb (Nat.eqb k) idx then without (S k) idx r
      else x :: without (S k) idx r
  end.

Lemma existsb_below (k : nat) (idx : list nat) :
  (forall i, In i idx -> (i < k)%nat) -> existsb (Nat.eqb k) idx = false.
Proof.
  induction idx as [|i idx IH]; intros H; simpl; auto.
  rewrite IH by (intros j Hj; apply H; right; exact Hj).
  destruct (Nat.eqb_spec k i) as [->|_]; [|reflexivity].
  specialize (H i (or_introl eq_refl)). lia.
Qed.

Lemma without_none {T : Type} (k : nat) (idx : list nat) (l : list T) :
  (forall i, In i idx -> (i < k)%nat) -> without k idx l = l.
Proof.
  revert k. induction l as [|x l IH]; intros k H; [reflexivity|].
  cbn [without]. rewrite existsb_below by exact H.
  f_equal. apply IH. intros i Hi. specialize (H i Hi). lia.
Qed.

Lemma without_splice1 {T : Type} (j : nat) (idx : list nat) (l : list T) :
  (forall i, In i idx -> (i < j)%nat) ->
  forall k, (k <= j)%nat ->
    without k idx (splice1 (j - k) l) = without k (j :: idx) l.
Proof.
  intros Hidx. induction l as [|x l IH]; intros k Hk;
    [destruct (j - k)%nat; reflexivity|].
  destruct (Nat.eq_dec k j) as [->|Hne].
  - rewrite Nat.sub_diag. cbn [splice1 without existsb].
    rewrite Nat.eqb_refl. cbn [orb].
    rewrite without_none by exact Hidx.
    rewrite without_none; [reflexivity|].
    intros i [<-|Hi]; [lia|]. specialize (Hidx i Hi). lia.
  - destruct (j - k)%nat as [|d] eqn:E; [lia|].
    cbn [splice1 without existsb].
    replace d with (j - S k)%nat by lia.
    destruct (Nat.eqb_spec k j) as [->|_]; [lia|]. cbn [orb].
    rewrite IH by lia. reflexivity.
Qed.

Lemma descending_In (bound : nat) (l : list nat) :
  descending bound l -> forall i, In i l -> (i < bound)%nat.
Proof.
  revert bound. induction l as [|j l IH]; intros bound H i Hi; [destruct Hi|].
  destruct H as [Hj Hl]. destruct Hi as [<-|Hi]; [exact Hj|].
  specialize (IH j Hl i Hi). lia.
Qed.

Lemma descending_weaken (b b' : nat) (l : list nat) :
  descending b l -> (b <= b')%nat -> descending b' l.
Proof.
  destruct l as [|i l]; [auto|]. intros [Hi Hl] Hb. split; [lia | exact Hl].
Qed.

Lemma combine_splice1 {U T : Type} (i : nat) (a : list U) (b : list T) :
  combine (splice1 i a) (splice1 i b) = splice1 i (combine a b).
Proof.
  revert a b. induction i as [|i IH]; intros [|x a] [|y b]; simpl; auto;
    try (destruct a; reflexivity).
  f_equal. apply IH.
Qed.

Lemma fold_remove_at (l : list nat) :
  forall p : Polygon,
    wellFormed p -> (Z.of_nat (size p) < 4294967296)%Z ->
    descending (size p) l ->
    fold_left remove_at l p
    = RemoveInside.ofPairs (without 0 l (vertexPairs p)) (accuracy p).
Proof.
  induction l as [|j l IH]; intros p Hwf Hb Hl.
  - cbn [fold_left]. rewrite without_none by (intros i []).
    apply RemoveInside.ofPairs_vertexPairs. exact Hwf.
  - destruct Hl as [Hj Hl]. cbn [fold_left].
    assert (Hrm : remove_at p j
                  = mkPolygon (splice1 j (_X p)) (splice1 j (_Y p)) (accuracy p)).
    { unfold remove_at. rewrite Structural.toUint32_small by (unfold size in *; lia).
      destruct (Nat.leb_spec j (length (_X p))); [reflexivity|].
      unfold size in Hj. lia. }
    assert (Hwf' : wellFormed (remove_at p j))
      by (apply UnionFacts.remove_at_wellFormed; exact Hwf).
    assert (Hsize : size (remove_at p j) = (size p - 1)%nat).
    { rewrite Hrm. unfold size in *. cbn [_X].
      rewrite UnionFacts.length_splice1.
      destruct (Nat.ltb_spec j (length (_X p))); lia. }
    rewrite IH.
    + rewrite Hrm at 1 2. unfold vertexPairs at 1. cbn [_X _Y accuracy].
      rewrite combine_splice1. fold (vertexPairs p).
      rewrite <- (Nat.sub_0_r j) at 1.
      rewrite without_splice1;
        [reflexivity | apply descending_In; exact Hl | lia].
    + exact Hwf'.
    + rewrite Hsize. lia.
    + rewrite Hsize. apply (descending_weaken j); [exact Hl | lia].
Qed.

Lemma without_filter {T : Type} (idx : list nat) (l : list T) :
  forall k,
    without k idx l
    = map fst (filter (fun '(_, i) => negb (existsb (Nat.eqb i) idx))
                      (combine l (seq k (length l)))).
Proof.
  induction l as [|x l IH]; intros k; [reflexivity|].
  cbn [without length seq combine filter].
  destruct (existsb (Nat.eqb k) idx); cbn [negb map fst]; rewrite IH; reflexivity.
Qed.

End RemoveIndexes.

(** X27.  [remove] with an array of indexes removes one vertex after the other,
    and each index is looked up in what the removals before it left.  When
    the indexes are given in decreasing order no removal shifts a vertex
    that is still to be removed: the vertices left are exactly those whose
    index is not in the array. *)
Theorem remove_with_decreasing_indexes :
  forall (this : Polygon) (l : list nat),
    wellFormed this -> (Z.of_nat (size this) < 4294967296)%Z ->
    l <> [] -> descending (size this) l ->
    vertexPairs (remove this (Indexes l))
    = map fst (filter (fun '(_, i) => negb (existsb (Nat.eqb i) l))
                      (indexed (vertexPairs this))).
Proof.
  intros this l Hwf Hb Hne Hl.
  destruct l as [|j l]; [congruence|]. cbn [remove].
  rewrite RemoveIndexes.fold_remove_at by assumption.
  rewrite RemoveInside.vertexPairs_ofPairs.
  apply RemoveIndexes.without_filter.
Qed.

(** Vertices 2 and 0 of [square10]. *)
Lemma remove_with_decreasing_indexes_witness :
  vertexPairs (remove square10 (Indexes [2; 0]%nat))
  = map fst (filter (fun '(_, i) => negb (existsb (Nat.eqb i) [2; 0]%nat))
                    (indexed (vertexPairs square10))).
Proof.
  apply (remove_with_decreasing_indexes square10 [2; 0]%nat).
  - reflexivity.
  - reflexivity.
  - discriminate.
  - unfold size, square10. simpl. lia.
Defined.

(** ** inside does not depend on the vertex the polygon starts with *)

Module InsideFacts.

(** The test [inside] makes for the edge from [vj] to [vi]. *)
Definition crosses (xi_x xi_y : float) (vi vj : float * float) : bool :=
  negb (Bool.eqb (gtb (snd vi) xi_y) (gtb (snd vj) xi_y))
  && (xi_x <? fst vi + (fst vj - fst vi) * (xi_y - snd vi) / (snd vj - snd vi)).

(** The loop of [inside] over the vertices [l], entered with the previous
    vertex [prev] and the flag [b]. *)
Fixpoint scan (xi_x xi_y : float) (prev : float * float)
         (l : list (float * float)) (b : bool) : bool :=
  match l with
  | [] => b
  | v :: r => scan xi_x xi_y v r (xorb b (crosses xi_x xi_y v prev))
  end.

Lemma scan_xorb x y prev l b :
  scan x y prev l b = xorb b (scan x y prev l false).
Proof.
  revert prev b. induction l as [|v l IH]; intros prev b; cbn [scan].
  - rewrite xorb_false_r. reflexivity.
  - rewrite (IH v (xorb b _)), (IH v (xorb false _)).
    rewrite xorb_false_l, xorb_assoc. reflexivity.
Qed.

Lemma scan_app x y prev l1 l2 b :
  scan x y prev (l1 ++ l2) b = scan x y (last l1 prev) l2 (scan x y prev l1 b).
Proof.
  revert prev b. induction l1 as [|v l1 IH]; intros prev b; [reflexivity|].
  cbn [app scan]. rewrite IH. f_equal.
  destruct l1 as [|p l1]; [reflexivity|].
  change (last (v :: p :: l1) prev) with (last (p :: l1) prev).
  apply SubseqFacts.last_default. discriminate.
Qed.

Lemma inside_scan (l : list (float * float)) (acc x y : float) :
  inside (RemoveInside.ofPairs l acc) x y
  = scan x y (last l (nan, nan)) l false.
Proof.
  unfold inside, RemoveInside.ofPairs. cbn [_X _Y]. rewrite length_map.
  assert (Hget : forall i, (get (map fst l) i, get (map snd l) i)
                           = nth i l (nan, nan)).
  { unfold get. induction l as [|[u w] l IH]; intros [|i]; simpl; auto. }
  assert (G : forall rest pre b j,
             l = pre ++ rest ->
             fst (fold_left
                    (fun '(xo_inside, _j) _i =>
                       (if negb (Bool.eqb (gtb (get (map snd l) _i) y)
                                          (gtb (get (map snd l) _j) y))
                           && (x <? get (map fst l) _i
                                    + (get (map fst l) _j - get (map fst l) _i)
                                      * (y - get (map snd l) _i)
                                      / (get (map snd l) _j - get (map snd l) _i))
                        then negb xo_inside else xo_inside, _i))
                    (seq (length pre) (length rest)) (b, j))
             = scan x y (nth j l (nan, nan)) rest b).
  { induction rest as [|v rest IH]; intros pre b j Hl; [reflexivity|].
    cbn [length seq fold_left scan].
    assert (Hv : nth (length pre) l (nan, nan) = v)
      by (rewrite Hl; apply nth_middle).
    replace (S (length pre)) with (length (pre ++ [v]))
      by (rewrite length_app; simpl; lia).
    rewrite (IH (pre ++ [v]) _ (length pre))
      by (rewrite <- app_assoc; exact Hl).
    rewrite Hv. f_equal.
    unfold crosses. rewrite <- (Hget j), <- Hv, <- (Hget (length pre)).
    cbn [fst snd].
    destruct (_ && _); destruct b; reflexivity. }
  transitivity (scan x y (nth (length l - 1) l (nan, nan)) l false);
    [exact (G l [] false (length l - 1)%nat eq_refl)|].
  clear G Hget. f_equal. destruct l as [|v l]; [reflexivity|].
  destruct (@exists_last _ (v :: l) ltac:(discriminate)) as (l0 & z & ->).
  rewrite last_last, length_app. cbn [length].
  replace (length l0 + 1 - 1)%nat with (length l0) by lia.
  apply nth_middle.
Qed.

End InsideFacts.

(** X28.  Moving the first vertex of a polygon to its end changes the answer of
    [inside] for no point: the loop visits the same edges, and each edge
    flips the answer or not on its own. *)
Theorem inside_does_not_depend_on_the_first_vertex :
  forall (X Y : list float) (vx vy acc xi_x xi_y : float),
    length X = length Y ->
    inside (mkPolygon (X ++ [vx]) (Y ++ [vy]) acc) xi_x xi_y
    = inside (mkPolygon (vx :: X) (vy :: Y) acc) xi_x xi_y.
Proof.
  intros X Y vx vy acc x y Hwf.
  assert (H1 : mkPolygon (X ++ [vx]) (Y ++ [vy]) acc
               = RemoveInside.ofPairs (combine X Y ++ [(vx, vy)]) acc).
  { unfold RemoveInside.ofPairs. rewrite !map_app.
    rewrite Structural.map_fst_combine, Structural.map_snd_combine by exact Hwf.
    reflexivity. }
  assert (H2 : mkPolygon (vx :: X) (vy :: Y) acc
               = RemoveInside.ofPairs ((vx, vy) :: combine X Y) acc).
  { unfold RemoveInside.ofPairs. cbn [map fst snd].
    rewrite Structural.map_fst_combine, Structural.map_snd_combine by exact Hwf.
    reflexivity. }
  rewrite H1, H2, !InsideFacts.inside_scan.
  rewrite last_last, InsideFacts.scan_app. cbn [InsideFacts.scan].
  set (z := last (combine X Y) (vx, vy)).
  assert (Hz : last ((vx, vy) :: combine X Y) (nan, nan) = z).
  { unfold z. destruct (combine X Y) as [|w l]; [reflexivity|].
    change (last ((vx, vy) :: w :: l) (nan, nan)) with (last (w :: l) (nan, nan)).
    apply SubseqFacts.last_default. discriminate. }
  rewrite Hz.
  rewrite (InsideFacts.scan_xorb x y (vx, vy) (combine X Y)
             (xorb false (InsideFacts.crosses x y (vx, vy) z))).
  rewrite xorb_false_l. apply xorb_comm.
Qed.

(** [square10] started at its second vertex. *)
Lemma inside_does_not_depend_on_the_first_vertex_witness :
  inside (mkPolygon ([10; 10; 0] ++ [0]) ([0; 10; 10] ++ [0]) 1e-10) 5 5
  = inside (mkPolygon (0 :: [10; 10; 0]) (0 :: [0; 10; 10]) 1e-10) 5 5.
Proof.
  apply (inside_does_not_depend_on_the_first_vertex
           [10; 10; 0] [0; 10; 10] 0 0 1e-10 5 5).
  reflexivity.
Defined.
